(** * Request-coalescing queues of the item picker: model and properties

    The development embeds
    - the directory store and its HTTP handlers ([server/index.js]),
    - the batching server (the three [create*Batcher] closures), and
    - the three client queue classes ([BatchQueryQueue], [AddQueue],
      [LatestPayloadQueue])
    as executable functions over explicit states, and proves the
    properties the specification states about them.

    Part I holds the definitions, Part II the lemmas and theorems. *)

From stdpp Require Import gmap strings list sorting pretty.
From Stdlib Require Import QArith Qround.

Open Scope Z_scope.

(* ===================================================================== *)
(** * Part I: definitions                                                 *)
(* ===================================================================== *)

(** ** JavaScript values as the code observes them *)

(** A JS number is either integral ([Number.isInteger] holds: [Int]) or
    not: a fraction, [NaN] or an infinity ([NonInt]).  The code never does
    arithmetic on the second kind, it only compares them for identity (Set
    membership); a test [!Number.isInteger(id) || id <= 0] is a match on the
    two cases, the comparison being made in the first only. *)
Inductive JsNum : Type :=
  | Int (z : Z)
  | NonInt (tag : nat).

(** An element of a JSON array: a number, or any other value (string, null,
    boolean, ...) identified by [tag], carried with the number that the
    built-in [Number(...)] coerces it to. *)
Inductive JsValue : Type :=
  | VNum (n : JsNum)
  | VOther (tag : string) (coerced : JsNum).

#[global] Instance JsNum_eq_dec : EqDecision JsNum.
Proof. solve_decision. Defined.

#[global] Instance JsValue_eq_dec : EqDecision JsValue.
Proof. solve_decision. Defined.

(** [Number(raw)] *)
Definition Number (raw : JsValue) : JsNum :=
  match raw with
  | VNum n => n
  | VOther _ n => n
  end.

(** A numeric argument such as [offset] or [limit]: [Some q] is a finite
    number, [None] anything for which [Number.isFinite] fails (undefined,
    a string, [NaN], an infinity). *)
Definition JsArg : Type := option Q.

(** An error value: the message of the [Error] object. *)
Definition JsError : Type := string.

(** ** JS [Set]: insertion-ordered, without repetition *)

Module JsSet.
Section ops.
Context {A : Type} `{EqDecision A}.

Definition has (x : A) (s : list A) : bool := bool_decide (x ∈ s).

Definition add (x : A) (s : list A) : list A :=
  if has x s then s else s ++ [x].

(** [new Set(iterable)] *)
Definition of_list (l : list A) : list A :=
  foldl (λ s x, add x s) [] l.
End ops.
End JsSet.

(** [Array.prototype.sort((a, b) => a - b)] on integral numbers. *)
Definition sort_asc (l : list Z) : list Z := merge_sort Z.le l.

(** ** Strings *)

(** [String(id)] for an integral id: its decimal digits, which is what JS
    prints for the integers a number holds exactly (up to 2^53).  Nothing
    proved below depends on the digits. *)
Definition String_of (id : Z) : string := pretty id.

Definition is_space (a : Ascii.ascii) : bool :=
  match Ascii.nat_of_ascii a with
  | 9%nat | 10%nat | 11%nat | 12%nat | 13%nat | 32%nat => true
  | _ => false
  end.

Fixpoint trimStart (s : string) : string :=
  match s with
  | EmptyString => EmptyString
  | String a r => if is_space a then trimStart r else s
  end.

Fixpoint trimEnd (s : string) : string :=
  match s with
  | EmptyString => EmptyString
  | String a r =>
      match trimEnd r with
      | EmptyString => if is_space a then EmptyString else String a EmptyString
      | r' => String a r'
      end
  end.

(** [s.trim()] on the ASCII white space and line terminators (bytes 9 to 13
    and 32); JS also strips the white space outside ASCII (U+00A0, U+FEFF,
    U+2028, U+2029, the space separators), which a string of bytes does not
    single out.  Nothing proved below depends on the set. *)
Definition trim (s : string) : string := trimEnd (trimStart s).

Fixpoint starts_with (sub s : string) : bool :=
  match sub, s with
  | EmptyString, _ => true
  | String a sub', String b s' => bool_decide (a = b) && starts_with sub' s'
  | String _ _, EmptyString => false
  end.

(** [s.includes(sub)] *)
Fixpoint includes (s sub : string) : bool :=
  starts_with sub s ||
  match s with
  | EmptyString => false
  | String _ s' => includes s' sub
  end.

(** ** The directory store (module-level state of the server) *)

Definition BASE_MAX_ID : Z := 1000000.
Definition PAGE_LIMIT : Z := 20.

Definition REASON_FORMAT : string := "ID должен быть положительным целым числом".
Definition REASON_BASE : string := "ID уже существует в базовом наборе".
Definition REASON_ADDED : string := "ID уже добавлен".

Record Store : Type := mkStore {
  addedIds : list Z;               (* const addedIds = new Set() *)
  addedIdCache : option (list Z);  (* let addedIdCache = null *)
  selectedIds : list Z;            (* let selectedIds = [] *)
  selectedLookup : list Z          (* let selectedLookup = new Set() *)
}.

Definition initStore : Store := mkStore [] None [] [].

Record QueryResult : Type := mkResult {
  items : list Z;
  total : nat
}.

(** An entry of the [rejected] array: [{ id, reason }]. *)
Record Rejection : Type := mkRejection {
  rej_id : JsValue;
  rej_reason : string
}.

#[global] Instance Rejection_eq_dec : EqDecision Rejection.
Proof. solve_decision. Defined.

#[global] Instance QueryResult_eq_dec : EqDecision QueryResult.
Proof. solve_decision. Defined.

Definition getNormalizedFilter (value : option string) : string :=
  match value with
  | Some s => trim s
  | None => EmptyString
  end.

Definition clampOffset (value : JsArg) : Z :=
  match value with
  | Some q => if Qle_bool 0 q then Qfloor q else 0
  | None => 0
  end.

Definition clampLimit (value : JsArg) : Z :=
  match value with
  | Some q => if Qle_bool q 0 then PAGE_LIMIT else Z.min (Qfloor q) 200
  | None => PAGE_LIMIT
  end.

Definition ensureSelectedLookup (st : Store) : Store :=
  mkStore (addedIds st) (addedIdCache st) (selectedIds st)
          (JsSet.of_list (selectedIds st)).

Definition hasId (st : Store) (rawId : JsValue) : bool :=
  match Number rawId with
  | NonInt _ => false
  | Int id =>
      if id <=? 0 then false
      else if (1 <=? id) && (id <=? BASE_MAX_ID) then true
      else JsSet.has id (addedIds st)
  end.

(** [getSortedAdded] fills the cache when it is empty and returns it. *)
Definition getSortedAdded (st : Store) : list Z * Store :=
  match addedIdCache st with
  | Some cache => (cache, st)
  | None =>
      let cache := sort_asc (addedIds st) in
      (cache, mkStore (addedIds st) (Some cache) (selectedIds st) (selectedLookup st))
  end.

(** The [matchesFilter] closure of both query builders. *)
Definition matchesFilter (normalizedFilter : string) (id : Z) : bool :=
  match normalizedFilter with
  | EmptyString => true
  | _ => includes (String_of id) normalizedFilter
  end.

(** The accumulator of a page scan: the [items] array and the [total]
    counter. *)
Definition push_page (safeOffset safeLimit : Z) (acc : list Z * nat) (id : Z)
  : list Z * nat :=
  let '(its, tot) := acc in
  ((if (safeOffset <=? Z.of_nat tot) && (Z.of_nat (length its) <? safeLimit)
    then its ++ [id] else its),
   S tot).

(** The [consider] closure of [buildAvailableResult]. *)
Definition consider (lookup : list Z) (normalizedFilter : string)
    (safeOffset safeLimit : Z) (acc : list Z * nat) (id : Z) : list Z * nat :=
  if JsSet.has id lookup then acc
  else if negb (matchesFilter normalizedFilter id) then acc
  else push_page safeOffset safeLimit acc id.

(** [for (let id = 1; id <= last; id += 1) body(id)]: the state of the loop
    is the counter and the accumulator. *)
Definition for_ids {A} (last : Z) (body : A → Z → A) (a : A) : A :=
  (Z.iter last (λ s, (s.1 + 1, body s.2 s.1)) (1, a)).2.

Definition buildAvailableResult (st : Store)
    (filter : option string) (offset limit : JsArg) : QueryResult * Store :=
  let normalizedFilter := getNormalizedFilter filter in
  let safeOffset := clampOffset offset in
  let safeLimit := clampLimit limit in
  let step := consider (selectedLookup st) normalizedFilter safeOffset safeLimit in
  let acc1 := for_ids BASE_MAX_ID step ([], 0%nat) in
  let '(sortedAdded, st') := getSortedAdded st in
  let acc2 := foldl step acc1 sortedAdded in
  (mkResult (fst acc2) (snd acc2), st').

Definition buildSelectedResult (st : Store)
    (filter : option string) (offset limit : JsArg) : QueryResult :=
  let normalizedFilter := getNormalizedFilter filter in
  let safeOffset := clampOffset offset in
  let safeLimit := clampLimit limit in
  let step := λ acc id,
    if negb (matchesFilter normalizedFilter id) then acc
    else push_page safeOffset safeLimit acc id in
  let acc := foldl step ([], 0%nat) (selectedIds st) in
  mkResult (fst acc) (snd acc).

(** One turn of the loop of [sanitizeIds]; the accumulator is
    [(seen, result)]. *)
Definition sanitize_step (st : Store) (acc : list Z * list Z) (raw : JsValue)
  : list Z * list Z :=
  let '(seen, result) := acc in
  match Number raw with
  | NonInt _ => acc
  | Int id =>
      if id <=? 0 then acc
      else if negb (hasId st (VNum (Int id))) then acc
      else if JsSet.has id seen then acc
      else (JsSet.add id seen, result ++ [id])
  end.

(** [sanitizeIds(ids)]; [None] is a value that is not an array. *)
Definition sanitizeIds (st : Store) (ids : option (list JsValue)) : list Z :=
  match ids with
  | None => []
  | Some l => snd (foldl (sanitize_step st) ([], []) l)
  end.

(** ** JS [Map]: insertion-ordered association list

    [set] on a key already present replaces the value and keeps the key's
    position, as [Map.prototype.set] does. *)

Module JsMap.
Section ops.
Context {K V : Type} `{EqDecision K}.

Fixpoint get (k : K) (m : list (K * V)) : option V :=
  match m with
  | [] => None
  | (k', v) :: r => if decide (k = k') then Some v else get k r
  end.

Fixpoint set (k : K) (v : V) (m : list (K * V)) : list (K * V) :=
  match m with
  | [] => [(k, v)]
  | (k', v') :: r =>
      if decide (k = k') then (k, v) :: r else (k', v') :: set k v r
  end.
End ops.
End JsMap.

(** ** The host: timeouts and promises *)

(** The timeouts one queue instance has set and that have neither fired nor
    been cleared.  A handle is always truthy. *)
Record Clock : Type := mkClock {
  scheduled : list nat;
  next_handle : nat
}.

Definition initClock : Clock := mkClock [] 0%nat.

Definition setTimeout (c : Clock) : nat * Clock :=
  (next_handle c, mkClock (scheduled c ++ [next_handle c]) (S (next_handle c))).

Definition clearTimeout (h : nat) (c : Clock) : Clock :=
  mkClock (filter (λ h', h' ≠ h) (scheduled c)) (next_handle c).

Inductive Outcome (V : Type) : Type :=
  | Resolved (v : V)
  | Rejected (e : JsError).
Arguments Resolved {V} v.
Arguments Rejected {V} e.

(** The promises created so far; a promise is named by its number and is
    settled at most once: later calls of [resolve] or [reject] do nothing. *)
Record Promises (V : Type) : Type := mkPromises {
  next_promise : nat;
  settled : gmap nat (Outcome V)
}.
Arguments mkPromises {V} _ _.
Arguments next_promise {V} _.
Arguments settled {V} _.

Definition initPromises {V} : Promises V := mkPromises 0%nat ∅.

Definition newPromise {V} (p : Promises V) : nat * Promises V :=
  (next_promise p, mkPromises (S (next_promise p)) (settled p)).

Definition settle {V} (w : nat) (o : Outcome V) (p : Promises V) : Promises V :=
  match settled p !! w with
  | Some _ => p
  | None => mkPromises (next_promise p) (<[w := o]> (settled p))
  end.

(** [resolvers.forEach(({ resolve }) => resolve(v))] and its [reject] twin. *)
Definition settle_all {V} (ws : list nat) (o : Outcome V) (p : Promises V)
  : Promises V :=
  foldl (λ p w, settle w o p) p ws.

(** ** Adding identifiers: the loop shared by [POST /api/items/batch] of
    [server/index.js] and [flush] of [createAddBatcher] *)

(** One turn of the classification loop; the accumulator is
    [(toAdd, rejected)]. *)
Definition classify_step (st : Store) (acc : list Z * list Rejection)
    (raw : JsValue) : list Z * list Rejection :=
  let '(toAdd, rejected) := acc in
  match Number raw with
  | NonInt _ => (toAdd, rejected ++ [mkRejection raw REASON_FORMAT])
  | Int id =>
      if id <=? 0 then (toAdd, rejected ++ [mkRejection raw REASON_FORMAT])
      else if (1 <=? id) && (id <=? BASE_MAX_ID)
        then (toAdd, rejected ++ [mkRejection (VNum (Int id)) REASON_BASE])
      else if JsSet.has id (addedIds st)
        then (toAdd, rejected ++ [mkRejection (VNum (Int id)) REASON_ADDED])
      else (JsSet.add id toAdd, rejected)
  end.

(** [for (const id of added) addedIds.add(id)], then the cache reset. *)
Definition commit_added (st : Store) (added : list Z) : Store :=
  mkStore (foldl (λ s id, JsSet.add id s) (addedIds st) added)
          (if bool_decide (0 < length added)%nat then None else addedIdCache st)
          (selectedIds st) (selectedLookup st).

(** Classification of a whole candidate list and the mutation of the store;
    returns [(added, rejected)]. *)
Definition add_batch (st : Store) (requested : list JsValue)
  : (list Z * list Rejection) * Store :=
  let '(toAdd, rejected) := foldl (classify_step st) ([], []) requested in
  let added := sort_asc toAdd in
  ((added, rejected), commit_added st added).

(** ** Plain objects used as maps

    [results] and [response] in the servers, and the reply the client
    parses, are plain objects indexed by the key of a query.  They are
    modelled by finite maps: an assignment [o[k] = v] is an insertion and a
    read [o[k]] a lookup.  That is what JS does for every key that is not
    the name of a member of [Object.prototype]; for those names a read finds
    the inherited member when the object has no entry of its own, and an
    assignment to ["__proto__"] replaces the prototype instead of adding an
    entry.  The statements about such objects are made for plain keys. *)
Definition OBJECT_PROTOTYPE_KEYS : list string :=
  ["constructor"; "hasOwnProperty"; "isPrototypeOf"; "propertyIsEnumerable";
   "toLocaleString"; "toString"; "valueOf"; "__proto__";
   "__defineGetter__"; "__defineSetter__"; "__lookupGetter__"; "__lookupSetter__"].

Definition plain_key (k : string) : Prop := k ∉ OBJECT_PROTOTYPE_KEYS.

#[global] Instance plain_key_dec (k : string) : Decision (plain_key k).
Proof. unfold plain_key. apply _. Defined.

(** ** Queries as the server reads them *)

Inductive QueryType : Type := Available | Selected | SelectionFull | UnknownType.

(** A query object; an empty [q_key] stands for every falsy key. *)
Record Query : Type := mkQuery {
  q_key : string;
  q_type : QueryType;
  q_filter : option string;
  q_offset : JsArg;
  q_limit : JsArg
}.

(** The three-way branch on [query.type]; [results[key] = ...], an insertion
    for a plain key. *)
Definition run_query (acc : gmap string QueryResult * Store) (query : Query)
  : gmap string QueryResult * Store :=
  let '(results, st) := acc in
  match q_type query with
  | Available =>
      let '(r, st') := buildAvailableResult st (q_filter query) (q_offset query)
                                            (q_limit query) in
      (<[q_key query := r]> results, st')
  | Selected =>
      (<[q_key query := buildSelectedResult st (q_filter query) (q_offset query)
                                            (q_limit query)]> results, st)
  | SelectionFull =>
      (<[q_key query := mkResult (selectedIds st) (length (selectedIds st))]> results, st)
  | UnknownType => (results, st)
  end.

(** What a handler sends back, or a batcher resolves a request with. *)
Inductive Response : Type :=
  | RespQuery (results : gmap string QueryResult)
  | RespSelection (selected : list Z)
  | RespAdd (added : list Z) (rejected : list Rejection).

(** ** The server without batching ([server/index.js]) *)

Module Direct.

(** [app.post('/api/items/batch')]; [None] is a body whose [ids] is not an
    array. *)
Definition post_items_batch (st : Store) (ids : option (list JsValue))
  : Response * Store :=
  let incoming := default [] ids in
  let '((added, rejected), st') := add_batch st incoming in
  (RespAdd added rejected, st').

(** [app.post('/api/selection')] *)
Definition post_selection (st : Store) (body : option (list JsValue))
  : Response * Store :=
  let nextSelection := sanitizeIds st body in
  let st' := ensureSelectedLookup
    (mkStore (addedIds st) (addedIdCache st) nextSelection (selectedLookup st)) in
  (RespSelection (selectedIds st'), st').

(** [app.post('/api/query')] *)
Definition post_query (st : Store) (queries : list Query) : Response * Store :=
  let step := λ acc query,
    if bool_decide (q_key query = EmptyString) then acc else run_query acc query in
  let '(results, st') := foldl step (∅, st) queries in
  (RespQuery results, st').

Inductive Request : Type :=
  | PostItemsBatch (ids : option (list JsValue))
  | PostSelection (body : option (list JsValue))
  | PostQuery (queries : list Query).

Definition handle (st : Store) (r : Request) : Response * Store :=
  match r with
  | PostItemsBatch ids => post_items_batch st ids
  | PostSelection body => post_selection st body
  | PostQuery queries => post_query st queries
  end.

(** The store after a sequence of requests. *)
Definition run (st : Store) (rs : list Request) : Store :=
  foldl (λ st r, snd (handle st r)) st rs.

End Direct.

(** ** The batching server: [createQueryBatcher], [createSelectionBatcher],
    [createAddBatcher] and the handlers that feed them *)

Module Batched.

(** An element of [pending] of the query batcher: [{ queries, resolve }]. *)
Record PendingQuery : Type := mkPendingQuery {
  pq_queries : list Query;
  pq_resolve : nat
}.

Record QueryBatcher : Type := mkQueryBatcher {
  qb_timer : option nat;
  qb_pending : list PendingQuery;
  qb_clock : Clock
}.

Record SelectionBatcher : Type := mkSelectionBatcher {
  sb_timer : option nat;
  sb_latest : option (list Z);
  sb_resolvers : list nat;
  sb_clock : Clock
}.

(** An element of [pendingRequests]: [{ ids, idSet, resolve }]. *)
Record PendingAdd : Type := mkPendingAdd {
  pa_ids : list JsValue;
  pa_idSet : list JsValue;
  pa_resolve : nat
}.

Record AddBatcher : Type := mkAddBatcher {
  ab_timer : option nat;
  ab_pendingRequests : list PendingAdd;
  ab_clock : Clock
}.

Record Server : Type := mkServer {
  store : Store;
  promises : Promises Response;
  queryBatcher : QueryBatcher;
  selectionBatcher : SelectionBatcher;
  addBatcher : AddBatcher
}.

Definition initServer : Server :=
  mkServer initStore initPromises
           (mkQueryBatcher None [] initClock)
           (mkSelectionBatcher None None [] initClock)
           (mkAddBatcher None [] initClock).

(** *** createQueryBatcher *)

(** The [keyToQuery] map built from all pending items. *)
Definition collect_queries (pending : list PendingQuery) : list (string * Query) :=
  foldl (λ m item,
           foldl (λ m query,
                    if bool_decide (q_key query = EmptyString) then m
                    else JsMap.set (q_key query) query m)
                 m (pq_queries item))
        [] pending.

(** The [response] object of one pending item; [results[query.key] !==
    undefined] is the presence of an entry, for a plain key. *)
Definition response_for (results : gmap string QueryResult) (item : PendingQuery)
  : gmap string QueryResult :=
  foldl (λ response query,
           if bool_decide (q_key query = EmptyString) then response
           else match results !! q_key query with
                | Some r => <[q_key query := r]> response
                | None => response
                end)
        ∅ (pq_queries item).

Definition query_flush (s : Server) : Server :=
  let qb := queryBatcher s in
  match qb_pending qb with
  | [] =>
      mkServer (store s) (promises s) (mkQueryBatcher None [] (qb_clock qb))
               (selectionBatcher s) (addBatcher s)
  | pending =>
      let collectedQueries := (collect_queries pending).*2 in
      let '(results, st') := foldl run_query (∅, store s) collectedQueries in
      let promises' :=
        foldl (λ p item,
                 settle (pq_resolve item)
                        (Resolved (RespQuery (response_for results item))) p)
              (promises s) pending in
      mkServer st' promises' (mkQueryBatcher None [] (qb_clock qb))
               (selectionBatcher s) (addBatcher s)
  end.

Definition query_enqueue (s : Server) (queries : list Query) : nat * Server :=
  let qb := queryBatcher s in
  let '(w, promises') := newPromise (promises s) in
  let pending' := qb_pending qb ++ [mkPendingQuery queries w] in
  let qb' :=
    match qb_timer qb with
    | Some t => mkQueryBatcher (Some t) pending' (qb_clock qb)
    | None =>
        let '(t, clock') := setTimeout (qb_clock qb) in
        mkQueryBatcher (Some t) pending' clock'
    end in
  (w, mkServer (store s) promises' qb' (selectionBatcher s) (addBatcher s)).

(** *** createSelectionBatcher *)

Definition selection_flush (s : Server) : Server :=
  let sb := selectionBatcher s in
  match sb_latest sb with
  | None =>
      let promises' :=
        settle_all (sb_resolvers sb)
                   (Resolved (RespSelection (selectedIds (store s)))) (promises s) in
      mkServer (store s) promises' (queryBatcher s)
               (mkSelectionBatcher None None [] (sb_clock sb)) (addBatcher s)
  | Some latest =>
      let st := store s in
      let st' := ensureSelectedLookup
        (mkStore (addedIds st) (addedIdCache st) latest (selectedLookup st)) in
      let promises' :=
        settle_all (sb_resolvers sb)
                   (Resolved (RespSelection (selectedIds st'))) (promises s) in
      mkServer st' promises' (queryBatcher s)
               (mkSelectionBatcher None None [] (sb_clock sb)) (addBatcher s)
  end.

Definition selection_enqueue (s : Server) (nextSelection : list Z) : nat * Server :=
  let sb := selectionBatcher s in
  let '(w, promises') := newPromise (promises s) in
  let resolvers' := sb_resolvers sb ++ [w] in
  let sb' :=
    match sb_timer sb with
    | Some t => mkSelectionBatcher (Some t) (Some nextSelection) resolvers' (sb_clock sb)
    | None =>
        let '(t, clock') := setTimeout (sb_clock sb) in
        mkSelectionBatcher (Some t) (Some nextSelection) resolvers' clock'
    end in
  (w, mkServer (store s) promises' (queryBatcher s) sb' (addBatcher s)).

(** *** createAddBatcher *)

(** The [requested] array: the ids of all pending requests, in order. *)
Definition requested_of (pendingRequests : list PendingAdd) : list JsValue :=
  concat (map pa_ids pendingRequests).

(** [added.filter((id) => req.idSet.has(id))] *)
Definition addedForRequest (added : list Z) (req : PendingAdd) : list Z :=
  filter (λ id, JsSet.has (VNum (Int id)) (pa_idSet req) = true) added.

(** [rejectedGlobal.filter((item) => req.idSet.has(Number(item.id)))] *)
Definition rejectedForRequest (rejectedGlobal : list Rejection) (req : PendingAdd)
  : list Rejection :=
  filter (λ item, JsSet.has (VNum (Number (rej_id item))) (pa_idSet req) = true)
         rejectedGlobal.

Definition add_flush (s : Server) : Server :=
  let ab := addBatcher s in
  match ab_pendingRequests ab with
  | [] =>
      mkServer (store s) (promises s) (queryBatcher s) (selectionBatcher s)
               (mkAddBatcher None [] (ab_clock ab))
  | pendingRequests =>
      let requested := requested_of pendingRequests in
      let '((added, rejectedGlobal), st') := add_batch (store s) requested in
      let promises' :=
        foldl (λ p req,
                 settle (pa_resolve req)
                        (Resolved (RespAdd (addedForRequest added req)
                                           (rejectedForRequest rejectedGlobal req))) p)
              (promises s) pendingRequests in
      mkServer st' promises' (queryBatcher s) (selectionBatcher s)
               (mkAddBatcher None [] (ab_clock ab))
  end.

Definition add_enqueue (s : Server) (ids : list JsValue) : nat * Server :=
  let ab := addBatcher s in
  let '(w, promises') := newPromise (promises s) in
  let idSet := JsSet.of_list ids in
  let pending' := ab_pendingRequests ab ++ [mkPendingAdd ids idSet w] in
  let ab' :=
    match ab_timer ab with
    | Some t => mkAddBatcher (Some t) pending' (ab_clock ab)
    | None =>
        let '(t, clock') := setTimeout (ab_clock ab) in
        mkAddBatcher (Some t) pending' clock'
    end in
  (w, mkServer (store s) promises' (queryBatcher s) (selectionBatcher s) ab').

(** *** The handlers and the timeouts *)

Definition post_items_batch (s : Server) (ids : option (list JsValue)) : nat * Server :=
  add_enqueue s (default [] ids).

Definition post_selection (s : Server) (body : option (list JsValue)) : nat * Server :=
  selection_enqueue s (sanitizeIds (store s) body).

Definition post_query (s : Server) (queries : list Query) : nat * Server :=
  query_enqueue s queries.

(** A timeout of a batcher fires: the host forgets it and calls [flush]. *)
Definition fire_query (t : nat) (s : Server) : Server :=
  let qb := queryBatcher s in
  query_flush
    (mkServer (store s) (promises s)
              (mkQueryBatcher (qb_timer qb) (qb_pending qb) (clearTimeout t (qb_clock qb)))
              (selectionBatcher s) (addBatcher s)).

Definition fire_selection (t : nat) (s : Server) : Server :=
  let sb := selectionBatcher s in
  selection_flush
    (mkServer (store s) (promises s) (queryBatcher s)
              (mkSelectionBatcher (sb_timer sb) (sb_latest sb) (sb_resolvers sb)
                                  (clearTimeout t (sb_clock sb)))
              (addBatcher s)).

Definition fire_add (t : nat) (s : Server) : Server :=
  let ab := addBatcher s in
  add_flush
    (mkServer (store s) (promises s) (queryBatcher s) (selectionBatcher s)
              (mkAddBatcher (ab_timer ab) (ab_pendingRequests ab)
                            (clearTimeout t (ab_clock ab)))).

(** What can happen to the server: a request arrives, or a scheduled
    timeout fires. *)
Inductive step : Server → Server → Prop :=
  | step_items_batch s ids : step s (post_items_batch s ids).2
  | step_selection s body : step s (post_selection s body).2
  | step_query s queries : step s (post_query s queries).2
  | step_fire_query s t :
      t ∈ scheduled (qb_clock (queryBatcher s)) → step s (fire_query t s)
  | step_fire_selection s t :
      t ∈ scheduled (sb_clock (selectionBatcher s)) → step s (fire_selection t s)
  | step_fire_add s t :
      t ∈ scheduled (ab_clock (addBatcher s)) → step s (fire_add t s).

Inductive reachable : Server → Prop :=
  | reachable_init : reachable initServer
  | reachable_step s s' : reachable s → step s s' → reachable s'.

End Batched.

(** ** The client queues

    Each class is modelled with the part of the host it touches: its
    timeouts, the promises it hands out, the calls it makes to its
    dispatcher, and the flushes suspended at [await this.dispatcher(...)].
    The dispatcher is a constructor argument doing network I/O, so what it
    eventually yields is chosen by the environment when the call completes. *)

(** The private [schedule()] method, the same in the three classes: it
    gives the new [timer] and clock. *)
Definition schedule (tm : option nat) (c : Clock) : option nat * Clock :=
  match tm with
  | Some t => (Some t, c)
  | None => let '(t, c') := setTimeout c in (Some t, c')
  end.

(** [if (this.timer) { clearTimeout(this.timer); this.timer = null }], as
    each [flush()] has it: the clock once the timer is cleared. *)
Definition clear_timer (tm : option nat) (c : Clock) : Clock :=
  match tm with
  | Some t => clearTimeout t c
  | None => c
  end.

Definition MSG_NO_KEY : string := "Запрос должен содержать ключ".
Definition MSG_NO_RESULT : string := "Сервер не вернул результат для запроса".
Definition MSG_NOT_ADDED : string := "ID не был добавлен".

(** *** class BatchQueryQueue<Request extends { key: string }, Result> *)

Module BatchQueryQueue.
Section queue.
Context {Request Result : Type} (key : Request → string).

(** A value of the [pending] map: [{ request, resolvers }]. *)
Record Entry : Type := mkEntry {
  request : Request;
  resolvers : list nat
}.

Record World : Type := mkWorld {
  pending : list (string * Entry);        (* this.pending *)
  timer : option nat;                     (* this.timer *)
  clock : Clock;
  promises : Promises Result;
  calls : list (list Request);            (* arguments of the dispatcher calls *)
  inflight : list (list (string * Entry)) (* [entries] of the suspended flushes *)
}.

Definition init : World := mkWorld [] None initClock initPromises [] [].

(** [enqueue(request)] returns the promise and the new state. *)
Definition enqueue (w : World) (req : Request) : nat * World :=
  let '(p, promises') := newPromise (promises w) in
  if bool_decide (key req = EmptyString) then
    (p, mkWorld (pending w) (timer w) (clock w)
                (settle p (Rejected MSG_NO_KEY) promises') (calls w) (inflight w))
  else
    let pending' :=
      match JsMap.get (key req) (pending w) with
      | Some existing =>
          JsMap.set (key req) (mkEntry req (resolvers existing ++ [p])) (pending w)
      | None => JsMap.set (key req) (mkEntry req [p]) (pending w)
      end in
    let '(tm', clock') := schedule (timer w) (clock w) in
    (p, mkWorld pending' tm' clock' promises' (calls w) (inflight w)).

(** [flush()] up to its [await]: the dispatcher has been called. *)
Definition flush (w : World) : World :=
  match pending w with
  | [] =>
      mkWorld [] None (clear_timer (timer w) (clock w)) (promises w)
              (calls w) (inflight w)
  | entries =>
      let requests := map (λ e, request e.2) entries in
      mkWorld [] None (clear_timer (timer w) (clock w)) (promises w)
              (calls w ++ [requests]) (inflight w ++ [entries])
  end.

(** The rest of [flush()], once the dispatcher has settled; [responseMap]
    holds the entries of the object the dispatcher resolved with, and
    [responseMap[key]] is its entry for a plain key. *)
Definition resume (entries : list (string * Entry))
    (outcome : JsError + gmap string Result) (p : Promises Result)
  : Promises Result :=
  match outcome with
  | inr responseMap =>
      foldl (λ p e,
               match responseMap !! e.1 with
               | None => settle_all (resolvers e.2) (Rejected MSG_NO_RESULT) p
               | Some result => settle_all (resolvers e.2) (Resolved result) p
               end)
            p entries
  | inl error =>
      foldl (λ p e, settle_all (resolvers e.2) (Rejected error) p) p entries
  end.

(** The timeout [t] fires. *)
Definition fire (t : nat) (w : World) : World :=
  flush (mkWorld (pending w) (timer w) (clearTimeout t (clock w)) (promises w)
                 (calls w) (inflight w)).

(** The [i]-th dispatcher call in flight completes with [outcome]. *)
Definition complete (i : nat) (outcome : JsError + gmap string Result) (w : World)
  : World :=
  match inflight w !! i with
  | None => w
  | Some entries =>
      mkWorld (pending w) (timer w) (clock w)
              (resume entries outcome (promises w)) (calls w)
              (delete i (inflight w))
  end.

Inductive step : World → World → Prop :=
  | step_enqueue w req : step w (enqueue w req).2
  | step_fire w t : t ∈ scheduled (clock w) → step w (fire t w)
  | step_complete w i outcome :
      is_Some (inflight w !! i) → step w (complete i outcome w).

Inductive reachable : World → Prop :=
  | reachable_init : reachable init
  | reachable_step w w' : reachable w → step w w' → reachable w'.

(** All the promises of a list of captured or pending entries. *)
Definition waiters (entries : list (string * Entry)) : list nat :=
  concat (map (λ e, resolvers e.2) entries).

(** A burst of [enqueue] calls; returns the promises handed out, in call
    order, and the state reached. *)
Definition enqueue_all (w : World) (reqs : list Request) : list nat * World :=
  foldl (λ acc req, let '(p, w') := enqueue acc.2 req in (acc.1 ++ [p], w'))
        ([], w) reqs.

(** The [pending] map is keyed by the key of the request it holds. *)
Definition keyed (m : list (string * Entry)) : Prop :=
  NoDup m.*1 ∧ ∀ k e, (k, e) ∈ m → key (request e) = k.

End queue.
Arguments Entry : clear implicits.
Arguments World : clear implicits.
End BatchQueryQueue.

(** *** class AddQueue *)

Module AddQueue.

Record AddQueueResult : Type := mkAddQueueResult {
  aq_id : Z;
  aq_success : bool;
  aq_message : string
}.

(** What the dispatcher resolves with: [{ added, rejected }]. *)
Record AddResponse : Type := mkAddResponse {
  added : list JsNum;
  rejected : list Rejection
}.

Record World : Type := mkWorld {
  pending : list (Z * list nat);         (* Map<number, Resolver[]> *)
  timer : option nat;
  clock : Clock;
  promises : Promises AddQueueResult;
  calls : list (list Z);
  inflight : list (list (Z * list nat))
}.

Definition init : World := mkWorld [] None initClock initPromises [] [].

Definition enqueue (w : World) (id : JsNum) : nat * World :=
  let '(p, promises') := newPromise (promises w) in
  let invalid :=
    (p, mkWorld (pending w) (timer w) (clock w)
                (settle p (Rejected REASON_FORMAT) promises') (calls w) (inflight w)) in
  match id with
  | NonInt _ => invalid
  | Int id =>
      if id <=? 0 then invalid
      else
        let pending' :=
          match JsMap.get id (pending w) with
          | Some existing => JsMap.set id (existing ++ [p]) (pending w)
          | None => JsMap.set id [p] (pending w)
          end in
        let '(tm', clock') := schedule (timer w) (clock w) in
        (p, mkWorld pending' tm' clock' promises' (calls w) (inflight w))
  end.

Definition flush (w : World) : World :=
  match pending w with
  | [] =>
      mkWorld [] None (clear_timer (timer w) (clock w)) (promises w)
              (calls w) (inflight w)
  | entries =>
      let ids := entries.*1 in
      mkWorld [] None (clear_timer (timer w) (clock w)) (promises w)
              (calls w ++ [ids]) (inflight w ++ [entries])
  end.

(** The [rejectedMap] built from [response.rejected]. *)
Definition rejectedMap_of (rejected : list Rejection) : list (JsNum * string) :=
  foldl (λ m record, JsMap.set (Number (rej_id record)) (rej_reason record) m)
        [] rejected.

(** The [payload] computed for one pending id. *)
Definition payload_for (response : AddResponse) (id : Z) : AddQueueResult :=
  if JsSet.has (Int id) (JsSet.of_list (added response)) then
    mkAddQueueResult id true ("ID " +:+ String_of id +:+ " успешно добавлен")
  else
    mkAddQueueResult id false
      (default MSG_NOT_ADDED (JsMap.get (Int id) (rejectedMap_of (rejected response)))).

Definition resume (entries : list (Z * list nat))
    (outcome : JsError + AddResponse) (p : Promises AddQueueResult)
  : Promises AddQueueResult :=
  match outcome with
  | inr response =>
      foldl (λ p e, settle_all e.2 (Resolved (payload_for response e.1)) p) p entries
  | inl error =>
      foldl (λ p e, settle_all e.2 (Rejected error) p) p entries
  end.

Definition fire (t : nat) (w : World) : World :=
  flush (mkWorld (pending w) (timer w) (clearTimeout t (clock w)) (promises w)
                 (calls w) (inflight w)).

Definition complete (i : nat) (outcome : JsError + AddResponse) (w : World) : World :=
  match inflight w !! i with
  | None => w
  | Some entries =>
      mkWorld (pending w) (timer w) (clock w)
              (resume entries outcome (promises w)) (calls w)
              (delete i (inflight w))
  end.

Inductive step : World → World → Prop :=
  | step_enqueue w id : step w (enqueue w id).2
  | step_fire w t : t ∈ scheduled (clock w) → step w (fire t w)
  | step_complete w i outcome :
      is_Some (inflight w !! i) → step w (complete i outcome w).

Inductive reachable : World → Prop :=
  | reachable_init : reachable init
  | reachable_step w w' : reachable w → step w w' → reachable w'.

Definition waiters (entries : list (Z * list nat)) : list nat :=
  concat (map (λ e, e.2) entries).

End AddQueue.

(** *** class LatestPayloadQueue<TPayload, TResult> *)

Module LatestPayloadQueue.
Section queue.
Context {TPayload TResult : Type}.

(** [this.pending] when it is not null: [{ payload, resolvers }]. *)
Record Pending : Type := mkPending {
  payload : TPayload;
  resolvers : list nat
}.

Record World : Type := mkWorld {
  pending : option Pending;
  timer : option nat;
  clock : Clock;
  promises : Promises TResult;
  calls : list TPayload;
  inflight : list Pending
}.

Definition init : World := mkWorld None None initClock initPromises [] [].

Definition enqueue (w : World) (pl : TPayload) : nat * World :=
  let '(p, promises') := newPromise (promises w) in
  let pending' :=
    match pending w with
    | Some cur => mkPending pl (resolvers cur ++ [p])
    | None => mkPending pl [p]
    end in
  let '(tm', clock') := schedule (timer w) (clock w) in
  (p, mkWorld (Some pending') tm' clock' promises' (calls w) (inflight w)).

Definition flush (w : World) : World :=
  match pending w with
  | None =>
      mkWorld None None (clear_timer (timer w) (clock w))
              (promises w) (calls w) (inflight w)
  | Some current =>
      mkWorld None None (clear_timer (timer w) (clock w))
              (promises w) (calls w ++ [payload current]) (inflight w ++ [current])
  end.

Definition resume (current : Pending) (outcome : JsError + TResult)
    (p : Promises TResult) : Promises TResult :=
  match outcome with
  | inr result => settle_all (resolvers current) (Resolved result) p
  | inl error => settle_all (resolvers current) (Rejected error) p
  end.

Definition fire (t : nat) (w : World) : World :=
  flush (mkWorld (pending w) (timer w) (clearTimeout t (clock w)) (promises w)
                 (calls w) (inflight w)).

Definition complete (i : nat) (outcome : JsError + TResult) (w : World) : World :=
  match inflight w !! i with
  | None => w
  | Some current =>
      mkWorld (pending w) (timer w) (clock w)
              (resume current outcome (promises w)) (calls w)
              (delete i (inflight w))
  end.

Inductive step : World → World → Prop :=
  | step_enqueue w pl : step w (enqueue w pl).2
  | step_fire w t : t ∈ scheduled (clock w) → step w (fire t w)
  | step_complete w i outcome :
      is_Some (inflight w !! i) → step w (complete i outcome w).

Inductive reachable : World → Prop :=
  | reachable_init : reachable init
  | reachable_step w w' : reachable w → step w w' → reachable w'.

End queue.
Arguments Pending : clear implicits.
Arguments World : clear implicits.
End LatestPayloadQueue.

(** ** What a queue shows of its timer

    Every queue instance (three classes in the client, three closures in the
    server) has a [timer] variable, timeouts outstanding at the host, and a
    pending state that is empty or not. *)

Record TimerView : Type := mkTimerView {
  tv_timer : option nat;
  tv_scheduled : list nat;
  tv_pending : bool      (* is the pending state non-empty? *)
}.

Definition nonempty {A} (l : list A) : bool :=
  match l with [] => false | _ => true end.

Definition is_some {A} (o : option A) : bool :=
  match o with Some _ => true | None => false end.

Definition BatchQueryQueue_view {Request Result}
    (w : BatchQueryQueue.World Request Result) : TimerView :=
  mkTimerView (BatchQueryQueue.timer w) (scheduled (BatchQueryQueue.clock w))
              (nonempty (BatchQueryQueue.pending w)).

Definition AddQueue_view (w : AddQueue.World) : TimerView :=
  mkTimerView (AddQueue.timer w) (scheduled (AddQueue.clock w))
              (nonempty (AddQueue.pending w)).

Definition LatestPayloadQueue_view {TPayload TResult}
    (w : LatestPayloadQueue.World TPayload TResult) : TimerView :=
  mkTimerView (LatestPayloadQueue.timer w) (scheduled (LatestPayloadQueue.clock w))
              (is_some (LatestPayloadQueue.pending w)).

Definition queryBatcher_view (s : Batched.Server) : TimerView :=
  mkTimerView (Batched.qb_timer (Batched.queryBatcher s))
              (scheduled (Batched.qb_clock (Batched.queryBatcher s)))
              (nonempty (Batched.qb_pending (Batched.queryBatcher s))).

Definition selectionBatcher_view (s : Batched.Server) : TimerView :=
  mkTimerView (Batched.sb_timer (Batched.selectionBatcher s))
              (scheduled (Batched.sb_clock (Batched.selectionBatcher s)))
              (is_some (Batched.sb_latest (Batched.selectionBatcher s))
               || nonempty (Batched.sb_resolvers (Batched.selectionBatcher s))).

Definition addBatcher_view (s : Batched.Server) : TimerView :=
  mkTimerView (Batched.ab_timer (Batched.addBatcher s))
              (scheduled (Batched.ab_clock (Batched.addBatcher s)))
              (nonempty (Batched.ab_pendingRequests (Batched.addBatcher s))).

(** The views of the reachable states of every queue instance. *)
Inductive queue_view : TimerView → Prop :=
  | view_BatchQueryQueue {Request Result} (key : Request → string)
      (w : BatchQueryQueue.World Request Result) :
      BatchQueryQueue.reachable key w → queue_view (BatchQueryQueue_view w)
  | view_AddQueue (w : AddQueue.World) :
      AddQueue.reachable w → queue_view (AddQueue_view w)
  | view_LatestPayloadQueue {TPayload TResult}
      (w : LatestPayloadQueue.World TPayload TResult) :
      LatestPayloadQueue.reachable w → queue_view (LatestPayloadQueue_view w)
  | view_queryBatcher (s : Batched.Server) :
      Batched.reachable s → queue_view (queryBatcher_view s)
  | view_selectionBatcher (s : Batched.Server) :
      Batched.reachable s → queue_view (selectionBatcher_view s)
  | view_addBatcher (s : Batched.Server) :
      Batched.reachable s → queue_view (addBatcher_view s).

(** The views before and after a step taken from a reachable state. *)
Inductive queue_move : TimerView → TimerView → Prop :=
  | move_BatchQueryQueue {Request Result} (key : Request → string)
      (w w' : BatchQueryQueue.World Request Result) :
      BatchQueryQueue.reachable key w → BatchQueryQueue.step key w w' →
      queue_move (BatchQueryQueue_view w) (BatchQueryQueue_view w')
  | move_AddQueue (w w' : AddQueue.World) :
      AddQueue.reachable w → AddQueue.step w w' →
      queue_move (AddQueue_view w) (AddQueue_view w')
  | move_LatestPayloadQueue {TPayload TResult}
      (w w' : LatestPayloadQueue.World TPayload TResult) :
      LatestPayloadQueue.reachable w → LatestPayloadQueue.step w w' →
      queue_move (LatestPayloadQueue_view w) (LatestPayloadQueue_view w')
  | move_queryBatcher (s s' : Batched.Server) :
      Batched.reachable s → Batched.step s s' →
      queue_move (queryBatcher_view s) (queryBatcher_view s')
  | move_selectionBatcher (s s' : Batched.Server) :
      Batched.reachable s → Batched.step s s' →
      queue_move (selectionBatcher_view s) (selectionBatcher_view s')
  | move_addBatcher (s s' : Batched.Server) :
      Batched.reachable s → Batched.step s s' →
      queue_move (addBatcher_view s) (addBatcher_view s').

(** The timer variable holds the one outstanding timeout, and is set exactly
    when something is pending. *)
Definition timed (tm : option nat) (c : Clock) (pending_nonempty : bool) : Prop :=
  scheduled c = option_list tm ∧ is_some tm = pending_nonempty.

(** ** Promises still owed

    [ledger live P]: the promises in [live] are distinct, were created by
    [P] and are not settled yet; and every settled promise was created
    by [P]. *)
Definition ledger {V} (live : list nat) (P : Promises V) : Prop :=
  NoDup live
  ∧ (∀ p, p ∈ live → (p < next_promise P)%nat ∧ settled P !! p = None)
  ∧ (∀ p, is_Some (settled P !! p) → (p < next_promise P)%nat).

(** Several [forEach] loops in a row, each with its own outcome. *)
Definition settle_each {V} (groups : list (list nat * Outcome V)) (P : Promises V)
  : Promises V :=
  foldl (λ P g, settle_all g.1 g.2 P) P groups.

Arguments settle : simpl never.
Arguments settle_all : simpl never.
Arguments settle_each : simpl never.

(** The promises owed by each client queue: those pending and those captured
    by a flush whose dispatcher call is in flight. *)
Definition BatchQueryQueue_live {Request Result}
    (w : BatchQueryQueue.World Request Result) : list nat :=
  BatchQueryQueue.waiters (BatchQueryQueue.pending w)
  ++ concat (map BatchQueryQueue.waiters (BatchQueryQueue.inflight w)).

Definition AddQueue_live (w : AddQueue.World) : list nat :=
  AddQueue.waiters (AddQueue.pending w)
  ++ concat (map AddQueue.waiters (AddQueue.inflight w)).

Definition LatestPayloadQueue_live {TPayload TResult}
    (w : LatestPayloadQueue.World TPayload TResult) : list nat :=
  from_option LatestPayloadQueue.resolvers [] (LatestPayloadQueue.pending w)
  ++ concat (map LatestPayloadQueue.resolvers (LatestPayloadQueue.inflight w)).

(** The promises held in the values of a JS map, [g] reading them off a
    value. *)
Definition held {K V} (g : V → list nat) (m : list (K * V)) : list nat :=
  concat (map (λ e, g e.2) m).

(** What the continuation of a flush gives the waiters of one captured
    entry, by queue class. *)
Definition BatchQueryQueue_outcome {Result}
    (outcome : JsError + gmap string Result) (k : string) : Outcome Result :=
  match outcome with
  | inl error => Rejected error
  | inr responseMap =>
      match responseMap !! k with
      | None => Rejected MSG_NO_RESULT
      | Some result => Resolved result
      end
  end.

Definition AddQueue_outcome (outcome : JsError + AddQueue.AddResponse) (id : Z)
  : Outcome AddQueue.AddQueueResult :=
  match outcome with
  | inl error => Rejected error
  | inr response => Resolved (AddQueue.payload_for response id)
  end.

Definition LatestPayloadQueue_outcome {TResult} (outcome : JsError + TResult)
  : Outcome TResult :=
  match outcome with
  | inl error => Rejected error
  | inr result => Resolved result
  end.

(** The promises the server owes: one per pending request of each
    batcher. *)
Definition Batched_live (s : Batched.Server) : list nat :=
  map Batched.pq_resolve (Batched.qb_pending (Batched.queryBatcher s))
  ++ Batched.sb_resolvers (Batched.selectionBatcher s)
  ++ map Batched.pa_resolve (Batched.ab_pendingRequests (Batched.addBatcher s)).

(** A dispatcher failure seen from the promises: [P] before and [P'] after
    the failed call completes; [cycle] are the waiters the flush captured,
    [owed] those of every other cycle, pending or in flight. *)
Definition cycle_failed {V} (error : JsError) (cycle owed : list nat)
    (P P' : Promises V) : Prop :=
  (∀ p, p ∈ cycle → settled P' !! p = Some (Rejected error))
  ∧ (∀ p, p ∉ cycle → settled P' !! p = settled P !! p)
  ∧ (∀ p, p ∈ owed → (p ∉ cycle) ∧ (settled P' !! p = None)).

(** The three batchers of the server, together: a step of one leaves the
    other two alone. *)
Definition server_timed (s : Batched.Server) : Prop :=
  timed (Batched.qb_timer (Batched.queryBatcher s))
        (Batched.qb_clock (Batched.queryBatcher s))
        (nonempty (Batched.qb_pending (Batched.queryBatcher s)))
  ∧ (timed (Batched.sb_timer (Batched.selectionBatcher s))
           (Batched.sb_clock (Batched.selectionBatcher s))
           (is_some (Batched.sb_latest (Batched.selectionBatcher s)))
     ∧ is_some (Batched.sb_latest (Batched.selectionBatcher s))
       = nonempty (Batched.sb_resolvers (Batched.selectionBatcher s)))
  ∧ timed (Batched.ab_timer (Batched.addBatcher s))
          (Batched.ab_clock (Batched.addBatcher s))
          (nonempty (Batched.ab_pendingRequests (Batched.addBatcher s))).

(** ** The identifier space and the classification rules, as the
    specification words them *)

(** The base range [1..BASE_MAX_ID] together with the overflow set. *)
Definition in_id_space (st : Store) (id : Z) : Prop :=
  1 ≤ id ≤ BASE_MAX_ID ∨ id ∈ addedIds st.

Inductive Verdict : Type :=
  | Accepted (id : Z)
  | RejectedAs (reason : string).

(** The rules in the order the specification gives them: not a positive
    integer; inside the base range; already in the overflow set; otherwise
    accepted. *)
Definition spec_verdict (overflow : list Z) (raw : JsValue) : Verdict :=
  match Number raw with
  | NonInt _ => RejectedAs REASON_FORMAT
  | Int id =>
      if decide (id ≤ 0) then RejectedAs REASON_FORMAT
      else if decide (1 ≤ id ≤ BASE_MAX_ID) then RejectedAs REASON_BASE
      else if decide (id ∈ overflow) then RejectedAs REASON_ADDED
      else Accepted id
  end.

(** The record kept for a rejected candidate: the item as submitted for a
    format rejection, its numeric value otherwise. *)
Definition rejection_of (raw : JsValue) (reason : string) : Rejection :=
  mkRejection (if decide (reason = REASON_FORMAT) then raw else VNum (Number raw)) reason.

Definition spec_accepted (overflow : list Z) (requested : list JsValue) : list Z :=
  omap (λ raw, match spec_verdict overflow raw with
               | Accepted id => Some id
               | RejectedAs _ => None
               end) requested.

Definition spec_rejected (overflow : list Z) (requested : list JsValue)
  : list Rejection :=
  omap (λ raw, match spec_verdict overflow raw with
               | Accepted _ => None
               | RejectedAs reason => Some (rejection_of raw reason)
               end) requested.

(** The ids of an input list that are positive integers of the identifier
    space, in input order, and the first occurrence of each element of a
    list. *)
Definition survivors (st : Store) (l : list JsValue) : list Z :=
  omap (λ raw, match Number raw with
               | Int id => if decide (0 < id ∧ in_id_space st id) then Some id else None
               | NonInt _ => None
               end) l.

Fixpoint first_occurrences (seen l : list Z) : list Z :=
  match l with
  | [] => []
  | x :: r =>
      if decide (x ∈ seen) then first_occurrences seen r
      else x :: first_occurrences (x :: seen) r
  end.

(** ** Invariants of the store *)

(** A selection holds distinct positive ids of the identifier space. *)
Definition selection_ok (st : Store) (l : list Z) : Prop :=
  NoDup l ∧ ∀ id, id ∈ l → 0 < id ∧ in_id_space st id.

Definition store_ok (st : Store) : Prop :=
  NoDup (addedIds st)
  ∧ (∀ id, id ∈ addedIds st → BASE_MAX_ID < id)
  ∧ (∀ cache, addedIdCache st = Some cache → cache = sort_asc (addedIds st))
  ∧ (∀ id, id ∈ selectedLookup st ↔ id ∈ selectedIds st)
  ∧ selection_ok st (selectedIds st).

Definition server_ok (s : Batched.Server) : Prop :=
  store_ok (Batched.store s)
  ∧ ∀ latest, Batched.sb_latest (Batched.selectionBatcher s) = Some latest →
              selection_ok (Batched.store s) latest.

(** The stores either server can be in. *)
Inductive store_reachable : Store → Prop :=
  | store_direct (rs : list Direct.Request) : store_reachable (Direct.run initStore rs)
  | store_batched (s : Batched.Server) :
      Batched.reachable s → store_reachable (Batched.store s).

(** ** The client's calls to the server ([src/api/client.ts])

    [postJson] is the network: it is a parameter that yields the parsed
    reply, or the error it throws. *)

Module Client.

(** A reply [{ added, rejected }] as the client reads it off the wire. *)
Definition add_reply (added : list Z) (rejected : list Rejection)
  : AddQueue.AddResponse :=
  AddQueue.mkAddResponse (map Int added) rejected.

(** [rejected?.find((item) => Number(item.id) === id)?.reason] *)
Fixpoint find_reason (id : Z) (rejected : list Rejection) : option string :=
  match rejected with
  | [] => None
  | item :: rest =>
      if decide (Number (rej_id item) = Int id) then Some (rej_reason item)
      else find_reason id rest
  end.

(** [enqueueAddition(id)] of the version without queues. *)
Definition enqueueAddition (postJson : list JsValue → JsError + AddQueue.AddResponse)
    (id : JsNum) : JsError + AddQueue.AddQueueResult :=
  match id with
  | NonInt _ => inl REASON_FORMAT
  | Int id =>
      if id <=? 0 then inl REASON_FORMAT
      else
        match postJson [VNum (Int id)] with
        | inl error => inl error
        | inr result =>
            if JsSet.has (Int id) (AddQueue.added result) then
              inr (AddQueue.mkAddQueueResult id true
                     ("ID " +:+ String_of id +:+ " успешно добавлен"))
            else
              inr (AddQueue.mkAddQueueResult id false
                     (default MSG_NOT_ADDED (find_reason id (AddQueue.rejected result))))
        end
  end.

(** [runQuery(request)] of the version without queues; [results] holds the
    entries of the parsed [payload.results], and [payload.results?.[key]] is
    its entry for a plain key. *)
Definition runQuery (postJson : list Query → JsError + gmap string QueryResult)
    (request : Query) : JsError + QueryResult :=
  match postJson [request] with
  | inl error => inl error
  | inr results =>
      match results !! q_key request with
      | None => inl MSG_NO_RESULT
      | Some result => inr result
      end
  end.

(** The dispatcher given to [new AddQueue(10_000, ...)]. *)
Definition add_dispatcher (postJson : list JsValue → JsError + AddQueue.AddResponse)
    (ids : list Z) : JsError + AddQueue.AddResponse :=
  match ids with
  | [] => inr (AddQueue.mkAddResponse [] [])
  | _ => postJson (map (λ id, VNum (Int id)) ids)
  end.

(** The dispatcher given to [new BatchQueryQueue(1000, ...)]. *)
Definition query_dispatcher (postJson : list Query → JsError + gmap string QueryResult)
    (requests : list Query) : JsError + gmap string QueryResult :=
  match requests with
  | [] => inr ∅
  | _ => postJson requests
  end.

(** The unbatched server behind [postJson], on a given store. *)
Definition post_items_batch (st : Store) (ids : list JsValue)
  : JsError + AddQueue.AddResponse :=
  inr (add_reply (add_batch st ids).1.1 (add_batch st ids).1.2).

Definition post_query (st : Store) (queries : list Query)
  : JsError + gmap string QueryResult :=
  match (Direct.post_query st queries).1 with
  | RespQuery results => inr results
  | _ => inl MSG_NO_RESULT
  end.

End Client.

(** ** The pure parts of the view ([App.tsx]) *)

Module App.

Definition PAGE_SIZE : Z := 20.

(** The requests [fetchAvailablePage] and [fetchSelectedPage] hand to
    [runQuery]. *)
Definition available_query (filterValue : string) (offset : nat) : Query :=
  mkQuery ("available:" +:+ filterValue +:+ ":" +:+ String_of (Z.of_nat offset))
          Available (Some filterValue)
          (Some (inject_Z (Z.of_nat offset))) (Some (inject_Z PAGE_SIZE)).

Definition selected_query (filterValue : string) (offset : nat) : Query :=
  mkQuery ("selected:" +:+ filterValue +:+ ":" +:+ String_of (Z.of_nat offset))
          Selected (Some filterValue)
          (Some (inject_Z (Z.of_nat offset))) (Some (inject_Z PAGE_SIZE)).

(** The request [loadSelection] hands to [runQuery] when the view starts. *)
Definition selectionFull_query : Query :=
  mkQuery "selectionFull" SelectionFull None None None.

(** [isSameOrder(a, b)]; the shortcut [a === b] gives [true] only for
    arrays that the comparison below also finds equal. *)
Fixpoint every_same (a b : list Z) : bool :=
  match a, b with
  | [], _ => true
  | x :: a', y :: b' => bool_decide (x = y) && every_same a' b'
  | _ :: _, [] => false
  end.

Definition isSameOrder (a b : list Z) : bool :=
  if bool_decide (length a ≠ length b) then false else every_same a b.

(** The updater of [setAvailableItems] and [setSelectedItems] after a page
    has arrived: the accumulator of the loop is [(seen, merged)]. *)
Definition merge_page (append : bool) (prev page : list Z) : list Z :=
  if negb append then page
  else
    (foldl (λ acc id,
              if JsSet.has id acc.1 then acc
              else (JsSet.add id acc.1, acc.2 ++ [id]))
           (JsSet.of_list prev, prev) page).2.

(** The updater of [removeIdFromAvailableList]. *)
Definition remove_available (id : Z) (prev : list Z) : list Z :=
  if negb (bool_decide (id ∈ prev)) then prev
  else filter (λ value, value ≠ id) prev.

(** The loop of [syncSelectedItemsFromSelection], with its [break]. *)
Fixpoint sync_loop (filterValue : string) (limit : nat) (selection nextItems : list Z)
  : list Z :=
  match selection with
  | [] => nextItems
  | id :: rest =>
      if negb (matchesFilter filterValue id) then
        sync_loop filterValue limit rest nextItems
      else
        let nextItems' := nextItems ++ [id] in
        if (limit <=? length nextItems')%nat then nextItems'
        else sync_loop filterValue limit rest nextItems'
  end.

(** The updater of [syncSelectedItemsFromSelection]: [selectedFilter] is
    [selectedFilterRef.current], [selection] is [selectionRef.current]. *)
Definition syncSelectedItems (selectedFilter : string) (selection prev : list Z)
  : list Z :=
  match prev with
  | [] => prev
  | _ => sync_loop (trim selectedFilter) (length prev) selection []
  end.

(** The selection [handleMoveToSelection(id)] applies; [None] when it
    returns early. *)
Definition moveToSelection (current : list Z) (id : Z) : option (list Z) :=
  if bool_decide (id ∈ current) then None else Some (current ++ [id]).

(** The selection [handleRemoveFromSelection(id)] applies. *)
Definition removeFromSelection (current : list Z) (id : Z) : option (list Z) :=
  if negb (bool_decide (id ∈ current)) then None
  else Some (filter (λ value, value ≠ id) current).

(** [array.indexOf(x)]; [None] is [-1]. *)
Fixpoint indexOf (x : Z) (l : list Z) : option nat :=
  match l with
  | [] => None
  | y :: r => if decide (x = y) then Some 0%nat else S <$> indexOf x r
  end.

(** [next.splice(i, 1)] and [next.splice(i, 0, x)]. *)
Definition splice_out (i : nat) (l : list Z) : list Z := take i l ++ drop (S i) l.

Definition splice_in (i : nat) (x : Z) (l : list Z) : list Z :=
  take i l ++ x :: drop i l.

(** The order [handleDragOver] moves to; [None] when it returns early. *)
Definition dragOver (current : list Z) (draggingId : option Z) (targetId : Z)
  : option (list Z) :=
  match draggingId with
  | None => None
  | Some dragging =>
      if bool_decide (dragging = targetId) then None
      else
        match indexOf dragging current, indexOf targetId current with
        | Some fromIndex, Some toIndex =>
            if bool_decide (fromIndex = toIndex) then None
            else Some (splice_in toIndex dragging (splice_out fromIndex current))
        | _, _ => None
        end
  end.

(** [applySelection(next)]: the selection kept and whether it is sent to
    the server. *)
Definition applySelection (current next : list Z) : list Z * bool :=
  if isSameOrder next current then (current, false) else (next, true).

End App.

(** ** Promises handed out

    [accounted live P]: every promise created by [P] is among those owed or
    has been settled. *)
Definition accounted {V} (live : list nat) (P : Promises V) : Prop :=
  ∀ p, (p < next_promise P)%nat → p ∈ live ∨ is_Some (settled P !! p).

(** A request the queue refuses before it touches its state: no key for
    [BatchQueryQueue], no positive integer for [AddQueue]. *)
Definition invalid_id (id : JsNum) : Prop :=
  match id with
  | Int z => z ≤ 0
  | NonInt _ => True
  end.

(** ** What a query is answered with

    The result the three-way branch of both servers computes for a query on
    a store; [None] for a type that is none of the three. *)
#[global] Instance QueryType_eq_dec : EqDecision QueryType.
Proof. solve_decision. Defined.

Definition query_answer (st : Store) (query : Query) : option QueryResult :=
  match q_type query with
  | Available =>
      Some (buildAvailableResult st (q_filter query) (q_offset query)
                                 (q_limit query)).1
  | Selected =>
      Some (buildSelectedResult st (q_filter query) (q_offset query) (q_limit query))
  | SelectionFull => Some (mkResult (selectedIds st) (length (selectedIds st)))
  | UnknownType => None
  end.


(* ===================================================================== *)
(** * Part II: lemmas and theorems                                        *)
(* ===================================================================== *)

(** ** JS sets and maps *)

Section js_set.
Context {A : Type} `{EqDecision A}.
Implicit Types (x y : A) (s l : list A).

Lemma has_true x s : JsSet.has x s = true ↔ x ∈ s.
Proof. unfold JsSet.has. by rewrite bool_decide_eq_true. Qed.

Lemma has_false x s : JsSet.has x s = false ↔ x ∉ s.
Proof. unfold JsSet.has. by rewrite bool_decide_eq_false. Qed.

Lemma elem_of_add y x s : y ∈ JsSet.add x s ↔ y = x ∨ y ∈ s.
Proof.
  unfold JsSet.add. destruct (JsSet.has x s) eqn:E.
  - apply has_true in E. split; [by right | intros [-> | ?]; done].
  - rewrite elem_of_app, list_elem_of_singleton. tauto.
Qed.

Lemma NoDup_add x s : NoDup s → NoDup (JsSet.add x s).
Proof.
  intros Hs. unfold JsSet.add. destruct (JsSet.has x s) eqn:E; [done |].
  apply has_false in E. apply NoDup_app. split_and!; [done | | apply NoDup_singleton].
  intros y Hy ->%list_elem_of_singleton. done.
Qed.

Lemma elem_of_add_all y l s :
  y ∈ foldl (λ s x, JsSet.add x s) s l ↔ y ∈ s ∨ y ∈ l.
Proof.
  revert s. induction l as [| x l IH]; intros s; simpl.
  - rewrite elem_of_nil. tauto.
  - rewrite IH, elem_of_add, elem_of_cons. tauto.
Qed.

Lemma NoDup_add_all l s :
  NoDup s → NoDup (foldl (λ s x, JsSet.add x s) s l).
Proof.
  revert s. induction l as [| x l IH]; intros s Hs; simpl; [done |].
  by apply IH, NoDup_add.
Qed.

Lemma elem_of_of_list y l : y ∈ JsSet.of_list l ↔ y ∈ l.
Proof. unfold JsSet.of_list. rewrite elem_of_add_all, elem_of_nil. tauto. Qed.

Lemma NoDup_of_list l : NoDup (JsSet.of_list l).
Proof. apply NoDup_add_all, NoDup_nil_2. Qed.

(** Adding elements that are new and distinct appends them. *)
Lemma add_all_fresh l s :
  NoDup l → (∀ x, x ∈ l → x ∉ s) →
  foldl (λ s x, JsSet.add x s) s l = s ++ l.
Proof.
  revert s. induction l as [| x l IH]; intros s Hl Hs; simpl.
  - by rewrite app_nil_r.
  - apply NoDup_cons in Hl as [Hx Hl].
    unfold JsSet.add at 2.
    destruct (JsSet.has x s) eqn:E.
    { apply has_true in E. exfalso. eapply Hs; [left | done]. }
    rewrite IH; [by rewrite <- app_assoc | done |].
    intros y Hy. rewrite elem_of_app, list_elem_of_singleton.
    intros [? | ->]; [| done]. eapply Hs; [by right | done].
Qed.
End js_set.

Section js_map.
Context {K V : Type} `{EqDecision K}.
Implicit Types (k : K) (v : V) (m : list (K * V)).

Lemma get_set k k' v m :
  JsMap.get k' (JsMap.set k v m) = if decide (k' = k) then Some v else JsMap.get k' m.
Proof.
  induction m as [| [k0 v0] m IH]; simpl.
  - repeat case_decide; done.
  - destruct (decide (k = k0)) as [-> | Hne]; simpl.
    + repeat case_decide; congruence.
    + rewrite IH. repeat case_decide; congruence.
Qed.


Lemma get_Some_elem k v m : JsMap.get k m = Some v → (k, v) ∈ m.
Proof.
  induction m as [| [k0 v0] m IH]; cbn [JsMap.get]; [done |].
  destruct (decide (k = k0)) as [-> | Hne].
  - intros [= ->]. left.
  - intros Hg. right. auto.
Qed.

Lemma elem_get_Some k v m : NoDup m.*1 → (k, v) ∈ m → JsMap.get k m = Some v.
Proof.
  induction m as [| [k0 v0] m IH]; [intros _ Hin; by apply elem_of_nil in Hin |].
  rewrite fmap_cons, NoDup_cons. cbn [fst JsMap.get].
  intros [Hk0 Hm] [Heq | Hin]%elem_of_cons.
  - injection Heq as -> ->. by rewrite decide_True.
  - rewrite decide_False; [auto |]. intros ->.
    apply Hk0. apply list_elem_of_fmap. by exists (k0, v).
Qed.

(** The keys after [set]: unchanged for a key present, extended at the
    end for a new one. *)
Lemma keys_set k v m :
  (JsMap.set k v m).*1 = if decide (k ∈ m.*1) then m.*1 else m.*1 ++ [k].
Proof.
  induction m as [| [k0 v0] m IH].
  - destruct (decide (k ∈ ([] : list (K * V)).*1)) as [Hin | _]; [| done].
    by apply elem_of_nil in Hin.
  - cbn [JsMap.set]. rewrite !fmap_cons. cbn [fst].
    destruct (decide (k = k0)) as [-> | Hne].
    + rewrite decide_True; [done | left].
    + rewrite fmap_cons, IH. cbn [fst]. destruct (decide (k ∈ m.*1)).
      * rewrite decide_True; [done | by right].
      * rewrite decide_False; [done |]. rewrite elem_of_cons. tauto.
Qed.

Lemma NoDup_keys_set k v m : NoDup m.*1 → NoDup (JsMap.set k v m).*1.
Proof.
  intros Hm. rewrite keys_set. destruct (decide (k ∈ m.*1)); [done |].
  apply NoDup_app. split_and!; [done | | apply NoDup_singleton].
  intros y Hy ->%list_elem_of_singleton. done.
Qed.

Lemma set_nonempty k v m : JsMap.set k v m ≠ [].
Proof. destruct m as [| [k0 v0] m]; simpl; [done |]. by case_decide. Qed.
End js_map.

(** ** Timeouts *)

Section timers.
Implicit Types (tm : option nat) (c : Clock) (b : bool).

Lemma timed_init : timed None initClock false.
Proof. done. Qed.

Lemma timed_schedule tm c b :
  timed tm c b →
  timed (schedule tm c).1 (schedule tm c).2 true.
Proof.
  intros [Hs Hb]. destruct tm as [t |]; simpl; [done |].
  split; [| done]. simpl in *. by rewrite Hs.
Qed.

(** Only the timeout held in [timer] can fire, and nothing is left
    outstanding once it has. *)
Lemma timed_fire tm c b t :
  timed tm c b → t ∈ scheduled c →
  tm = Some t ∧ scheduled (clearTimeout t c) = [].
Proof.
  intros [Hs _] Ht. rewrite Hs in Ht. destruct tm as [t' |]; simpl in Ht.
  - apply list_elem_of_singleton in Ht as ->. split; [done |].
    unfold clearTimeout. cbn [scheduled]. rewrite Hs.
    change (option_list (Some t')) with [t'].
    rewrite filter_cons_False by (intros Hne; by apply Hne). done.
  - by apply elem_of_nil in Ht.
Qed.

Lemma clear_timer_empty tm c :
  scheduled c = [] → scheduled (clear_timer tm c) = [].
Proof. intros Hc. destruct tm; simpl; [| done]. by rewrite Hc. Qed.

Lemma timed_at_most_one tm c b : timed tm c b → (length (scheduled c) ≤ 1)%nat.
Proof. intros [-> _]. destruct tm; simpl; lia. Qed.
End timers.

(** ** [enqueue] in closed form *)

Lemma LatestPayloadQueue_enqueue_eq {TPayload TResult}
    (w : LatestPayloadQueue.World TPayload TResult) (pl : TPayload) :
  LatestPayloadQueue.enqueue w pl =
  (next_promise (LatestPayloadQueue.promises w),
   LatestPayloadQueue.mkWorld
     (Some (LatestPayloadQueue.mkPending pl
              (from_option LatestPayloadQueue.resolvers [] (LatestPayloadQueue.pending w)
               ++ [next_promise (LatestPayloadQueue.promises w)])))
     (schedule (LatestPayloadQueue.timer w) (LatestPayloadQueue.clock w)).1
     (schedule (LatestPayloadQueue.timer w) (LatestPayloadQueue.clock w)).2
     (mkPromises (S (next_promise (LatestPayloadQueue.promises w)))
                 (settled (LatestPayloadQueue.promises w)))
     (LatestPayloadQueue.calls w) (LatestPayloadQueue.inflight w)).
Proof.
  unfold LatestPayloadQueue.enqueue. cbn [newPromise].
  destruct (schedule _ _). by destruct (LatestPayloadQueue.pending w).
Qed.

Lemma selection_enqueue_eq (s : Batched.Server) (sel : list Z) :
  Batched.selection_enqueue s sel =
  (next_promise (Batched.promises s),
   Batched.mkServer (Batched.store s)
     (mkPromises (S (next_promise (Batched.promises s))) (settled (Batched.promises s)))
     (Batched.queryBatcher s)
     (Batched.mkSelectionBatcher
        (schedule (Batched.sb_timer (Batched.selectionBatcher s))
                                  (Batched.sb_clock (Batched.selectionBatcher s))).1
        (Some sel)
        (Batched.sb_resolvers (Batched.selectionBatcher s)
         ++ [next_promise (Batched.promises s)])
        (schedule (Batched.sb_timer (Batched.selectionBatcher s))
                                  (Batched.sb_clock (Batched.selectionBatcher s))).2)
     (Batched.addBatcher s)).
Proof.
  unfold Batched.selection_enqueue. cbn [newPromise].
  by destruct (Batched.sb_timer _).
Qed.

Lemma add_enqueue_eq (s : Batched.Server) (ids : list JsValue) :
  Batched.add_enqueue s ids =
  (next_promise (Batched.promises s),
   Batched.mkServer (Batched.store s)
     (mkPromises (S (next_promise (Batched.promises s))) (settled (Batched.promises s)))
     (Batched.queryBatcher s) (Batched.selectionBatcher s)
     (Batched.mkAddBatcher
        (schedule (Batched.ab_timer (Batched.addBatcher s))
                                  (Batched.ab_clock (Batched.addBatcher s))).1
        (Batched.ab_pendingRequests (Batched.addBatcher s)
         ++ [Batched.mkPendingAdd ids (JsSet.of_list ids) (next_promise (Batched.promises s))])
        (schedule (Batched.ab_timer (Batched.addBatcher s))
                                  (Batched.ab_clock (Batched.addBatcher s))).2)).
Proof.
  unfold Batched.add_enqueue. cbn [newPromise].
  by destruct (Batched.ab_timer _).
Qed.

Lemma AddQueue_enqueue_eq (w : AddQueue.World) (id : Z) :
  0 < id →
  AddQueue.enqueue w (Int id) =
  (next_promise (AddQueue.promises w),
   AddQueue.mkWorld
     (JsMap.set id (default [] (JsMap.get id (AddQueue.pending w))
                    ++ [next_promise (AddQueue.promises w)])
                (AddQueue.pending w))
     (schedule (AddQueue.timer w) (AddQueue.clock w)).1
     (schedule (AddQueue.timer w) (AddQueue.clock w)).2
     (mkPromises (S (next_promise (AddQueue.promises w))) (settled (AddQueue.promises w)))
     (AddQueue.calls w) (AddQueue.inflight w)).
Proof.
  intros Hid. unfold AddQueue.enqueue. cbn [newPromise].
  rewrite (proj2 (Z.leb_gt id 0)) by done.
  destruct (schedule _ _). by destruct (JsMap.get _ _).
Qed.

Section timer_invariants.

Lemma BatchQueryQueue_timed {Request Result} (key : Request → string)
    (w : BatchQueryQueue.World Request Result) :
  BatchQueryQueue.reachable key w →
  timed (BatchQueryQueue.timer w) (BatchQueryQueue.clock w)
        (nonempty (BatchQueryQueue.pending w)).
Proof.
  induction 1 as [| w w' _ IH Hstep]; [apply timed_init |].
  destruct Hstep as [w req | w t Ht | w i outcome Hi].
  - unfold BatchQueryQueue.enqueue. simpl.
    destruct (bool_decide (key req = EmptyString)); [done |].
    pose proof (timed_schedule _ _ _ IH) as Hsch.
    destruct (schedule _ _) as [tm' c']. simpl in *.
    destruct Hsch as [Hs Hb]. split; [done |]. rewrite Hb.
    destruct (JsMap.get _ _);
      match goal with |- _ = nonempty ?l =>
        pose proof (set_nonempty (key req) (V:=BatchQueryQueue.Entry Request)) as Hne;
        destruct l eqn:El; [exfalso; eapply Hne, El | done] end.
  - destruct (timed_fire _ _ _ _ IH Ht) as [_ Hc].
    unfold BatchQueryQueue.fire, BatchQueryQueue.flush. simpl.
    destruct (BatchQueryQueue.pending w); simpl;
      (split; [by rewrite clear_timer_empty | done]).
  - unfold BatchQueryQueue.complete. destruct Hi as [es ->]. done.
Qed.

Lemma AddQueue_timed (w : AddQueue.World) :
  AddQueue.reachable w →
  timed (AddQueue.timer w) (AddQueue.clock w) (nonempty (AddQueue.pending w)).
Proof.
  induction 1 as [| w w' _ IH Hstep]; [apply timed_init |].
  destruct Hstep as [w id | w t Ht | w i outcome Hi].
  - unfold AddQueue.enqueue. simpl.
    destruct id as [id |]; [| done].
    destruct (id <=? 0); [done |].
    pose proof (timed_schedule _ _ _ IH) as Hsch.
    destruct (schedule _ _) as [tm' c']. simpl in *.
    destruct Hsch as [Hs Hb]. split; [done |]. rewrite Hb.
    destruct (JsMap.get _ _);
      match goal with |- _ = nonempty ?l =>
        pose proof (set_nonempty id (V:=list nat)) as Hne;
        destruct l eqn:El; [exfalso; eapply Hne, El | done] end.
  - destruct (timed_fire _ _ _ _ IH Ht) as [_ Hc].
    unfold AddQueue.fire, AddQueue.flush. simpl.
    destruct (AddQueue.pending w); simpl;
      (split; [by rewrite clear_timer_empty | done]).
  - unfold AddQueue.complete. destruct Hi as [es ->]. done.
Qed.

Lemma LatestPayloadQueue_timed {TPayload TResult}
    (w : LatestPayloadQueue.World TPayload TResult) :
  LatestPayloadQueue.reachable w →
  timed (LatestPayloadQueue.timer w) (LatestPayloadQueue.clock w)
        (is_some (LatestPayloadQueue.pending w)).
Proof.
  induction 1 as [| w w' _ IH Hstep]; [apply timed_init |].
  destruct Hstep as [w pl | w t Ht | w i outcome Hi].
  - unfold LatestPayloadQueue.enqueue. simpl.
    pose proof (timed_schedule _ _ _ IH) as Hsch.
    destruct (schedule _ _) as [tm' c']. done.
  - destruct (timed_fire _ _ _ _ IH Ht) as [_ Hc].
    unfold LatestPayloadQueue.fire, LatestPayloadQueue.flush. simpl.
    destruct (LatestPayloadQueue.pending w); simpl;
      (split; [by rewrite clear_timer_empty | done]).
  - unfold LatestPayloadQueue.complete. destruct Hi as [es ->]. done.
Qed.

Lemma nonempty_snoc {A} (l : list A) x : nonempty (l ++ [x]) = true.
Proof. by destruct l. Qed.

Lemma timed_setTimeout c b : timed None c b → timed (Some (setTimeout c).1) (setTimeout c).2 true.
Proof. intros [Hs _]. split; [| done]. simpl in *. by rewrite Hs. Qed.

Lemma Batched_timed (s : Batched.Server) : Batched.reachable s → server_timed s.
Proof.
  induction 1 as [| s s' _ IH Hstep].
  { repeat split. }
  destruct IH as (Hq & [Hs Hsr] & Ha).
  destruct Hstep as [s ids | s body | s queries | s t Ht | s t Ht | s t Ht].
  - split_and!; try done.
    unfold Batched.post_items_batch, Batched.add_enqueue. simpl.
    destruct (Batched.ab_timer (Batched.addBatcher s)) eqn:Et; simpl.
    + destruct Ha as [Ha1 Ha2]. split; [done |]. by rewrite nonempty_snoc.
    + rewrite nonempty_snoc. by eapply timed_setTimeout.
  - unfold Batched.post_selection, Batched.selection_enqueue. simpl.
    split_and!; try done;
      destruct (Batched.sb_timer (Batched.selectionBatcher s)) eqn:Et; simpl;
      try (by rewrite nonempty_snoc).
    + by destruct Hs.
    + by eapply timed_setTimeout.
  - split_and!; try done.
    unfold Batched.post_query, Batched.query_enqueue. simpl.
    destruct (Batched.qb_timer (Batched.queryBatcher s)) eqn:Et; simpl.
    + destruct Hq as [Hq1 Hq2]. split; [done |]. by rewrite nonempty_snoc.
    + rewrite nonempty_snoc. by eapply timed_setTimeout.
  - destruct (timed_fire _ _ _ _ Hq Ht) as [_ Hc].
    unfold Batched.fire_query, Batched.query_flush. simpl.
    destruct (Batched.qb_pending (Batched.queryBatcher s)) eqn:Ep; simpl.
    { split_and!; done. }
    destruct (foldl run_query _ _) as [results st']. simpl.
    split_and!; done.
  - destruct (timed_fire _ _ _ _ Hs Ht) as [_ Hc].
    unfold Batched.fire_selection, Batched.selection_flush. simpl.
    destruct (Batched.sb_latest (Batched.selectionBatcher s)); simpl;
      split_and!; done.
  - destruct (timed_fire _ _ _ _ Ha Ht) as [_ Hc].
    unfold Batched.fire_add, Batched.add_flush. simpl.
    destruct (Batched.ab_pendingRequests (Batched.addBatcher s)) eqn:Ep; simpl.
    { split_and!; done. }
    destruct (add_batch _ _) as [[added rejectedGlobal] st']. simpl.
    split_and!; done.
Qed.

End timer_invariants.

(** ** Lists *)

Lemma elem_of_concat {A} (x : A) (ls : list (list A)) :
  x ∈ concat ls ↔ ∃ l, l ∈ ls ∧ x ∈ l.
Proof.
  induction ls as [| l0 ls IH]; simpl.
  - split; [intros H; by apply elem_of_nil in H | intros (l & H & _); by apply elem_of_nil in H].
  - rewrite elem_of_app, IH. split.
    + intros [H | (l & H1 & H2)]; [exists l0; split; [left | done] |].
      exists l. split; [by right | done].
    + intros (l & [-> | H1]%elem_of_cons & H2); [by left |]. right. eauto.
Qed.

Lemma perm_snoc_front {A} (x : A) (l r : list A) : x :: l ++ r ≡ₚ (l ++ [x]) ++ r.
Proof. rewrite <- app_assoc. apply Permutation_middle. Qed.

Lemma filter_none {A} (P : A → Prop) `{∀ x, Decision (P x)} (l : list A) :
  Forall (λ x, ¬ P x) l → filter P l = [].
Proof.
  induction 1 as [| x l Hx _ IH]; [done |]. by rewrite filter_cons_False.
Qed.

Lemma concat_snoc {A} (ls : list (list A)) (l : list A) :
  concat (ls ++ [l]) = concat ls ++ l.
Proof. by rewrite concat_app; simpl; rewrite app_nil_r. Qed.

(** ** Promises *)

Section promises.
Context {V : Type}.
Implicit Types (P : Promises V) (o : Outcome V) (p w : nat) (ws live : list nat).

Lemma settle_next w o P : next_promise (settle w o P) = next_promise P.
Proof. unfold settle. by destruct (settled P !! w). Qed.

Lemma settle_lookup w o P p :
  settled (settle w o P) !! p =
  match settled P !! p with
  | Some x => Some x
  | None => if decide (p = w) then Some o else None
  end.
Proof.
  unfold settle. destruct (settled P !! w) eqn:Ew; simpl.
  - destruct (settled P !! p) eqn:Ep; [done |].
    destruct (decide (p = w)) as [-> | _]; [congruence | done].
  - destruct (decide (p = w)) as [-> | Hne].
    + by rewrite lookup_insert_eq, Ew.
    + rewrite lookup_insert_ne by done. by destruct (settled P !! p).
Qed.

Lemma settle_all_next ws o P : next_promise (settle_all ws o P) = next_promise P.
Proof.
  unfold settle_all. revert P. induction ws as [| w ws IH]; intros P; simpl; [done |].
  by rewrite IH, settle_next.
Qed.

(** A promise already settled keeps its outcome; one of [ws] that is not
    gets [o]; any other stays unsettled. *)
Lemma settle_all_lookup ws o P p :
  settled (settle_all ws o P) !! p =
  match settled P !! p with
  | Some x => Some x
  | None => if decide (p ∈ ws) then Some o else None
  end.
Proof.
  unfold settle_all. revert P. induction ws as [| w ws IH]; intros P; cbn [foldl].
  - destruct (settled P !! p); [done |].
    rewrite decide_False; [done | apply not_elem_of_nil].
  - rewrite IH, settle_lookup. destruct (settled P !! p); [done |].
    destruct (decide (p = w)) as [-> | Hne].
    + rewrite decide_True; [done | left].
    + destruct (decide (p ∈ ws)).
      * rewrite decide_True; [done | by right].
      * rewrite decide_False; [done |]. rewrite elem_of_cons. tauto.
Qed.

Lemma settle_each_next groups P :
  next_promise (settle_each groups P) = next_promise P.
Proof.
  unfold settle_each. revert P.
  induction groups as [| g groups IH]; intros P; simpl; [done |].
  by rewrite IH, settle_all_next.
Qed.

Lemma settle_each_other groups P p :
  p ∉ concat groups.*1 → settled (settle_each groups P) !! p = settled P !! p.
Proof.
  unfold settle_each. revert P.
  induction groups as [| [ws o] groups IH]; intros P Hp; simpl; [done |].
  rewrite fmap_cons in Hp. simpl in Hp. rewrite elem_of_app in Hp.
  rewrite IH by tauto. rewrite settle_all_lookup.
  destruct (settled P !! p); [done |]. rewrite decide_False; tauto.
Qed.

Lemma settle_each_settled groups P p x :
  settled P !! p = Some x → settled (settle_each groups P) !! p = Some x.
Proof.
  unfold settle_each. revert P.
  induction groups as [| [ws o] groups IH]; intros P Hp; simpl; [done |].
  apply IH. by rewrite settle_all_lookup, Hp.
Qed.

(** With distinct promises, each unsettled one gets the outcome of its
    group. *)
Lemma settle_each_lookup groups P p ws o :
  (ws, o) ∈ groups → p ∈ ws → NoDup (concat groups.*1) →
  settled P !! p = None →
  settled (settle_each groups P) !! p = Some o.
Proof.
  revert P. induction groups as [| [ws' o'] groups IH]; intros P Hg Hp Hnd Hun.
  { by apply elem_of_nil in Hg. }
  rewrite fmap_cons in Hnd. simpl in Hnd.
  apply NoDup_app in Hnd as (Hnd1 & Hdisj & Hnd2).
  apply elem_of_cons in Hg as [[= <- <-] | Hg].
  - change (settle_each ((ws, o) :: groups) P)
      with (settle_each groups (settle_all ws o P)).
    apply settle_each_settled. by rewrite settle_all_lookup, Hun, decide_True.
  - change (settle_each ((ws', o') :: groups) P)
      with (settle_each groups (settle_all ws' o' P)).
    apply IH; [done .. |].
    rewrite settle_all_lookup, Hun. rewrite decide_False; [done |].
    intros Hin. apply (Hdisj _ Hin). apply elem_of_concat.
    exists ws. split; [| done]. apply list_elem_of_fmap. by exists (ws, o).
Qed.

Lemma foldl_settle_each {E} (g : E → list nat) (h : E → Outcome V) (es : list E) P :
  foldl (λ P e, settle_all (g e) (h e) P) P es
  = settle_each (map (λ e, (g e, h e)) es) P.
Proof.
  unfold settle_each. revert P. induction es as [| e es IH]; intros P; simpl; [done |].
  by rewrite IH.
Qed.

Lemma foldl_settle_one {E} (g : E → nat) (h : E → Outcome V) (es : list E) P :
  foldl (λ P e, settle (g e) (h e) P) P es
  = settle_each (map (λ e, ([g e], h e)) es) P.
Proof.
  unfold settle_each. revert P. induction es as [| e es IH]; intros P; simpl; [done |].
  by rewrite IH.
Qed.

Lemma settle_each_same groups o P :
  (∀ g, g ∈ groups → g.2 = o) →
  settle_each groups P = settle_all (concat groups.*1) o P.
Proof.
  unfold settle_each, settle_all. revert P.
  induction groups as [| [ws o'] groups IH]; intros P Ho; simpl; [done |].
  rewrite foldl_app. pose proof (Ho (ws, o') ltac:(left)) as Heq.
  simpl in Heq. subst o'.
  apply IH. intros g Hg. apply Ho. by right.
Qed.

(** *** The ledger *)

Lemma ledger_init : ledger [] (@initPromises V).
Proof.
  split_and!; [apply NoDup_nil_2 | intros p Hp; by apply elem_of_nil in Hp |].
  intros p [x Hx]. unfold initPromises in Hx. cbn [settled] in Hx.
  by rewrite lookup_empty in Hx.
Qed.

Lemma ledger_perm live live' P : live ≡ₚ live' → ledger live P → ledger live' P.
Proof.
  intros Hp (Hnd & Hlive & Hs). split_and!; [by rewrite <- Hp | | done].
  intros p Hin. apply Hlive. by rewrite Hp.
Qed.

(** A fresh promise joins the promises owed. *)
Lemma ledger_new live P :
  ledger live P → ledger (next_promise P :: live) (newPromise P).2.
Proof.
  intros (Hnd & Hlive & Hs). simpl. split_and!.
  - apply NoDup_cons. split; [| done]. intros Hin. apply Hlive in Hin as [? _]. lia.
  - intros p [-> | Hin]%elem_of_cons; simpl.
    + split; [lia |]. destruct (settled P !! next_promise P) eqn:E; [| done].
      assert (next_promise P < next_promise P)%nat by (apply Hs; eauto). lia.
    + apply Hlive in Hin as [? ?]. split; [lia | done].
  - intros p Hp. simpl in *. apply Hs in Hp. lia.
Qed.

(** Settling promises takes them off the ledger. *)
Lemma ledger_settle_each groups rest P :
  ledger (concat groups.*1 ++ rest) P → ledger rest (settle_each groups P).
Proof.
  intros (Hnd & Hlive & Hs).
  apply NoDup_app in Hnd as (Hnd1 & Hdisj & Hnd2).
  split_and!; [done | |].
  - intros p Hin. rewrite settle_each_next.
    destruct (Hlive p) as [Hlt Hun]; [apply elem_of_app; by right |].
    split; [done |]. rewrite settle_each_other; [done |].
    intros Hc. by apply (Hdisj _ Hc).
  - intros p [x Hx]. rewrite settle_each_next.
    destruct (decide (p ∈ concat groups.*1)) as [Hin | Hnin].
    + apply Hlive. apply elem_of_app. by left.
    + rewrite settle_each_other in Hx by done. apply Hs. eauto.
Qed.

Lemma ledger_settle_new live o P :
  ledger live P → ledger live (settle (next_promise P) o (newPromise P).2).
Proof.
  intros HL. apply ledger_new in HL.
  apply (ledger_settle_each [([next_promise P], o)] live) in HL. exact HL.
Qed.

Lemma ledger_unsettled live P p : ledger live P → p ∈ live → settled P !! p = None.
Proof. intros (_ & Hlive & _) Hin. by apply Hlive. Qed.
End promises.

(** ** Waiters held in a JS map *)

Section map_waiters.
Context {K V : Type} `{EqDecision K} (g : V → list nat).
Implicit Types (k : K) (v : V) (m : list (K * V)).

Lemma held_set_new k v m :
  JsMap.get k m = None → held g (JsMap.set k v m) = held g m ++ g v.
Proof.
  unfold held. induction m as [| [k0 v0] m IH]; cbn [JsMap.get JsMap.set].
  - intros _. simpl. by rewrite app_nil_r.
  - destruct (decide (k = k0)); [done |]. intros Hg. simpl.
    by rewrite IH, app_assoc.
Qed.

Lemma held_set_existing k v v0 m p :
  JsMap.get k m = Some v0 → g v = g v0 ++ [p] →
  held g (JsMap.set k v m) ≡ₚ p :: held g m.
Proof.
  unfold held. intros Hget Hv.
  induction m as [| [k0 v1] m IH]; cbn [JsMap.get JsMap.set] in *; [done |].
  destruct (decide (k = k0)) as [-> | Hne].
  - injection Hget as ->. simpl. rewrite Hv.
    rewrite <- app_assoc. simpl.
    by rewrite <- Permutation_middle.
  - simpl. rewrite IH by done. by rewrite Permutation_middle.
Qed.

Lemma groups_fst {E} (f : E → list nat) (h : E → Outcome V) (es : list E) :
  (map (λ e, (f e, h e)) es).*1 = map f es.
Proof. induction es as [| e es IH]; simpl; [done |]. by rewrite <- IH. Qed.
End map_waiters.

(** Removing a flush in flight: its waiters leave the promises owed. *)
Lemma live_delete {E} (f : E → list nat) (inflight : list E) i es (pend : list nat) :
  inflight !! i = Some es →
  pend ++ concat (map f inflight) ≡ₚ f es ++ (pend ++ concat (map f (delete i inflight))).
Proof.
  intros Hi. rewrite (delete_Permutation _ _ _ Hi) at 1. simpl.
  rewrite !app_assoc. by rewrite (Permutation_app_comm pend (f es)).
Qed.

Lemma live_capture {E} (f : E → list nat) (inflight : list E) (es : E) :
  concat (map f (inflight ++ [es])) ≡ₚ f es ++ concat (map f inflight).
Proof.
  rewrite map_app. change (map f [es]) with [f es].
  rewrite concat_snoc. apply Permutation_app_comm.
Qed.

(** ** The ledger of each client queue *)

Section ledgers.

Lemma BatchQueryQueue_resume {Request Result}
    (entries : list (string * BatchQueryQueue.Entry Request))
    (outcome : JsError + gmap string Result) (P : Promises Result) :
  BatchQueryQueue.resume entries outcome P
  = settle_each (map (λ e, (BatchQueryQueue.resolvers e.2,
                            BatchQueryQueue_outcome outcome e.1)) entries) P.
Proof.
  rewrite <- foldl_settle_each. unfold BatchQueryQueue.resume.
  destruct outcome as [error | responseMap]; [done |].
  revert P. induction entries as [| e es IH]; intros P; simpl; [done |].
  rewrite <- IH. by destruct (responseMap !! e.1).
Qed.

Lemma AddQueue_resume (entries : list (Z * list nat))
    (outcome : JsError + AddQueue.AddResponse) (P : Promises AddQueue.AddQueueResult) :
  AddQueue.resume entries outcome P
  = settle_each (map (λ e, (e.2, AddQueue_outcome outcome e.1)) entries) P.
Proof.
  rewrite <- foldl_settle_each. unfold AddQueue.resume.
  by destruct outcome as [error | response].
Qed.

Lemma LatestPayloadQueue_resume {TPayload TResult}
    (current : LatestPayloadQueue.Pending TPayload)
    (outcome : JsError + TResult) (P : Promises TResult) :
  LatestPayloadQueue.resume current outcome P
  = settle_each [(LatestPayloadQueue.resolvers current,
                  LatestPayloadQueue_outcome outcome)] P.
Proof. by destruct outcome. Qed.

Lemma BatchQueryQueue_ledger {Request Result} (key : Request → string)
    (w : BatchQueryQueue.World Request Result) :
  BatchQueryQueue.reachable key w →
  ledger (BatchQueryQueue_live w) (BatchQueryQueue.promises w).
Proof.
  induction 1 as [| w w' _ IH Hstep]; [apply ledger_init |].
  destruct Hstep as [w req | w t Ht | w i outcome Hi]; unfold BatchQueryQueue_live in *.
  - unfold BatchQueryQueue.enqueue. cbn [newPromise].
    destruct (bool_decide (key req = EmptyString)); cbn.
    { by apply ledger_settle_new. }
    destruct (schedule _ _) as [tm' c']. cbn.
    eapply ledger_perm; [| apply ledger_new, IH].
    unfold BatchQueryQueue.waiters.
    destruct (JsMap.get _ _) as [existing |] eqn:Eg.
    + pose proof (held_set_existing BatchQueryQueue.resolvers (key req)
        (BatchQueryQueue.mkEntry req
           (BatchQueryQueue.resolvers existing ++ [next_promise (BatchQueryQueue.promises w)]))
        _ _ _ Eg eq_refl) as Hp.
      unfold held in Hp. by rewrite Hp.
    + pose proof (held_set_new BatchQueryQueue.resolvers (key req)
        (BatchQueryQueue.mkEntry req [next_promise (BatchQueryQueue.promises w)])
        _ Eg) as Hp.
      unfold held in Hp. rewrite Hp. cbn.
      apply perm_snoc_front.
  - unfold BatchQueryQueue.fire, BatchQueryQueue.flush. cbn.
    destruct (BatchQueryQueue.pending w) as [| e es] eqn:Ep; cbn; [done |].
    eapply ledger_perm; [| exact IH]. by rewrite live_capture.
  - destruct Hi as [es Hi]. unfold BatchQueryQueue.complete. rewrite Hi. cbn.
    rewrite BatchQueryQueue_resume.
    apply ledger_settle_each. rewrite groups_fst.
    eapply ledger_perm; [| exact IH].
    apply (live_delete BatchQueryQueue.waiters _ _ _ _ Hi).
Qed.

Lemma AddQueue_ledger (w : AddQueue.World) :
  AddQueue.reachable w → ledger (AddQueue_live w) (AddQueue.promises w).
Proof.
  induction 1 as [| w w' _ IH Hstep]; [apply ledger_init |].
  destruct Hstep as [w id | w t Ht | w i outcome Hi]; unfold AddQueue_live in *.
  - unfold AddQueue.enqueue. cbn [newPromise].
    destruct id as [id |]; cbn; [| by apply ledger_settle_new].
    destruct (id <=? 0); cbn; [by apply ledger_settle_new |].
    destruct (schedule _ _) as [tm' c']. cbn.
    eapply ledger_perm; [| apply ledger_new, IH].
    unfold AddQueue.waiters.
    destruct (JsMap.get _ _) as [existing |] eqn:Eg.
    + pose proof (held_set_existing (λ ws : list nat, ws) id
        (existing ++ [next_promise (AddQueue.promises w)]) _ _ _ Eg eq_refl) as Hp.
      unfold held in Hp. cbn in Hp. by rewrite Hp.
    + pose proof (held_set_new (λ ws : list nat, ws) id
        [next_promise (AddQueue.promises w)] _ Eg) as Hp.
      unfold held in Hp. cbn in Hp. rewrite Hp.
      apply perm_snoc_front.
  - unfold AddQueue.fire, AddQueue.flush. cbn.
    destruct (AddQueue.pending w) as [| e es] eqn:Ep; cbn; [done |].
    eapply ledger_perm; [| exact IH]. by rewrite live_capture.
  - destruct Hi as [es Hi]. unfold AddQueue.complete. rewrite Hi. cbn.
    rewrite AddQueue_resume.
    apply ledger_settle_each. rewrite groups_fst.
    eapply ledger_perm; [| exact IH].
    apply (live_delete AddQueue.waiters _ _ _ _ Hi).
Qed.

Lemma LatestPayloadQueue_ledger {TPayload TResult}
    (w : LatestPayloadQueue.World TPayload TResult) :
  LatestPayloadQueue.reachable w →
  ledger (LatestPayloadQueue_live w) (LatestPayloadQueue.promises w).
Proof.
  induction 1 as [| w w' _ IH Hstep]; [apply ledger_init |].
  destruct Hstep as [w pl | w t Ht | w i outcome Hi]; unfold LatestPayloadQueue_live in *.
  - unfold LatestPayloadQueue.enqueue. cbn [newPromise].
    destruct (schedule _ _) as [tm' c']. cbn.
    eapply ledger_perm; [| apply ledger_new, IH].
    destruct (LatestPayloadQueue.pending w) as [cur |]; cbn; [| done].
    apply perm_snoc_front.
  - unfold LatestPayloadQueue.fire, LatestPayloadQueue.flush. cbn.
    destruct (LatestPayloadQueue.pending w) as [cur |] eqn:Ep; cbn; [| done].
    eapply ledger_perm; [| exact IH]. cbn. by rewrite live_capture.
  - destruct Hi as [cur Hi]. unfold LatestPayloadQueue.complete. rewrite Hi. cbn.
    rewrite LatestPayloadQueue_resume.
    apply ledger_settle_each. cbn. rewrite app_nil_r.
    eapply ledger_perm; [| exact IH].
    apply (live_delete LatestPayloadQueue.resolvers _ _ _ _ Hi).
Qed.

End ledgers.

(** ** The timer of a queue *)

Lemma timed_view tm c b :
  timed tm c b →
  (length (scheduled c) ≤ 1)%nat
  ∧ scheduled c = option_list tm
  ∧ (scheduled c ≠ [] ↔ b = true).
Proof.
  intros Ht. split; [by eapply timed_at_most_one |].
  destruct Ht as [Hs <-]. split; [done |]. rewrite Hs.
  destruct tm; simpl; split; done.
Qed.

(** A step that finds the queue non-empty and leaves it non-empty keeps the
    timer it found: the timeout is not set again. *)
Lemma BatchQueryQueue_keeps_timer {Request Result} (key : Request → string)
    (w w' : BatchQueryQueue.World Request Result) :
  BatchQueryQueue.reachable key w → BatchQueryQueue.step key w w' →
  nonempty (BatchQueryQueue.pending w) = true →
  nonempty (BatchQueryQueue.pending w') = true →
  BatchQueryQueue.timer w' = BatchQueryQueue.timer w
  ∧ BatchQueryQueue.clock w' = BatchQueryQueue.clock w.
Proof.
  intros Hw Hstep Hne Hne'.
  destruct (BatchQueryQueue_timed key w Hw) as [_ Htm]. rewrite Hne in Htm.
  destruct Hstep as [w req | w t Ht | w i outcome Hi].
  - unfold BatchQueryQueue.enqueue. cbn [newPromise].
    destruct (bool_decide _); [done |].
    by destruct (BatchQueryQueue.timer w).
  - unfold BatchQueryQueue.fire, BatchQueryQueue.flush in Hne'. cbn in Hne'.
    by destruct (BatchQueryQueue.pending w).
  - unfold BatchQueryQueue.complete. by destruct (_ !! _).
Qed.

Lemma AddQueue_keeps_timer (w w' : AddQueue.World) :
  AddQueue.reachable w → AddQueue.step w w' →
  nonempty (AddQueue.pending w) = true →
  nonempty (AddQueue.pending w') = true →
  AddQueue.timer w' = AddQueue.timer w ∧ AddQueue.clock w' = AddQueue.clock w.
Proof.
  intros Hw Hstep Hne Hne'.
  destruct (AddQueue_timed w Hw) as [_ Htm]. rewrite Hne in Htm.
  destruct Hstep as [w id | w t Ht | w i outcome Hi].
  - unfold AddQueue.enqueue. cbn [newPromise].
    destruct id as [id |]; [| done]. destruct (id <=? 0); [done |].
    by destruct (AddQueue.timer w).
  - unfold AddQueue.fire, AddQueue.flush in Hne'. cbn in Hne'.
    by destruct (AddQueue.pending w).
  - unfold AddQueue.complete. by destruct (_ !! _).
Qed.

Lemma LatestPayloadQueue_keeps_timer {TPayload TResult}
    (w w' : LatestPayloadQueue.World TPayload TResult) :
  LatestPayloadQueue.reachable w → LatestPayloadQueue.step w w' →
  is_some (LatestPayloadQueue.pending w) = true →
  is_some (LatestPayloadQueue.pending w') = true →
  LatestPayloadQueue.timer w' = LatestPayloadQueue.timer w
  ∧ LatestPayloadQueue.clock w' = LatestPayloadQueue.clock w.
Proof.
  intros Hw Hstep Hne Hne'.
  destruct (LatestPayloadQueue_timed w Hw) as [_ Htm]. rewrite Hne in Htm.
  destruct Hstep as [w pl | w t Ht | w i outcome Hi].
  - unfold LatestPayloadQueue.enqueue. cbn [newPromise].
    by destruct (LatestPayloadQueue.timer w).
  - unfold LatestPayloadQueue.fire, LatestPayloadQueue.flush in Hne'. cbn in Hne'.
    by destruct (LatestPayloadQueue.pending w).
  - unfold LatestPayloadQueue.complete. by destruct (_ !! _).
Qed.

Lemma Batched_keeps_timer (s s' : Batched.Server) :
  Batched.reachable s → Batched.step s s' →
  (tv_pending (queryBatcher_view s) = true →
   tv_pending (queryBatcher_view s') = true →
   tv_timer (queryBatcher_view s') = tv_timer (queryBatcher_view s)
   ∧ tv_scheduled (queryBatcher_view s') = tv_scheduled (queryBatcher_view s))
  ∧ (tv_pending (selectionBatcher_view s) = true →
     tv_pending (selectionBatcher_view s') = true →
     tv_timer (selectionBatcher_view s') = tv_timer (selectionBatcher_view s)
     ∧ tv_scheduled (selectionBatcher_view s') = tv_scheduled (selectionBatcher_view s))
  ∧ (tv_pending (addBatcher_view s) = true →
     tv_pending (addBatcher_view s') = true →
     tv_timer (addBatcher_view s') = tv_timer (addBatcher_view s)
     ∧ tv_scheduled (addBatcher_view s') = tv_scheduled (addBatcher_view s)).
Proof.
  intros Hs Hstep.
  destruct (Batched_timed s Hs) as ([_ Hq] & [[_ Hsel] Hres] & [_ Ha]).
  unfold queryBatcher_view, selectionBatcher_view, addBatcher_view.
  cbn [tv_pending tv_timer tv_scheduled].
  destruct Hstep as [s ids | s body | s queries | s t Ht | s t Ht | s t Ht].
  - unfold Batched.post_items_batch. rewrite add_enqueue_eq. cbn.
    split_and!; try done. intros Hne _. rewrite Hne in Ha.
    by destruct (Batched.ab_timer _).
  - unfold Batched.post_selection. rewrite selection_enqueue_eq. cbn.
    split_and!; try done. rewrite <- Hres, orb_diag. intros Hne _. rewrite Hne in Hsel.
    by destruct (Batched.sb_timer _).
  - unfold Batched.post_query, Batched.query_enqueue. cbn [newPromise].
    split_and!; try (by destruct (Batched.qb_timer _)).
    intros Hne _. rewrite Hne in Hq. by destruct (Batched.qb_timer _).
  - unfold Batched.fire_query, Batched.query_flush. cbn.
    destruct (Batched.qb_pending _); [by split_and! |].
    destruct (foldl run_query _ _). by split_and!.
  - unfold Batched.fire_selection, Batched.selection_flush. cbn.
    destruct (Batched.sb_latest _); by split_and!.
  - unfold Batched.fire_add, Batched.add_flush. cbn.
    destruct (Batched.ab_pendingRequests _); [by split_and! |].
    destruct (add_batch _ _) as [[? ?] ?]. by split_and!.
Qed.

(** C6: in every reachable state of every queue instance at most one
    timeout is outstanding, it is the one held in the queue's [timer], and a
    timeout is outstanding if and only if the pending state is non-empty
    (first conjunct).  Along every step: the timer is set when the step
    makes an empty queue non-empty, it is kept as it is while the queue
    stays non-empty, and it is gone when the step empties the queue (second
    conjunct). *)
Theorem timer_iff_pending :
  (∀ v : TimerView,
     queue_view v →
     (length (tv_scheduled v) ≤ 1)%nat
     ∧ tv_scheduled v = option_list (tv_timer v)
     ∧ (tv_scheduled v ≠ [] ↔ tv_pending v = true))
  ∧ (∀ v v' : TimerView,
       queue_move v v' →
       (tv_pending v = false → tv_pending v' = true →
        tv_scheduled v = [] ∧ ∃ t, tv_timer v' = Some t ∧ tv_scheduled v' = [t])
       ∧ (tv_pending v = true → tv_pending v' = true →
          tv_timer v' = tv_timer v ∧ tv_scheduled v' = tv_scheduled v)
       ∧ (tv_pending v = true → tv_pending v' = false →
          tv_timer v' = None ∧ tv_scheduled v' = [])).
Proof.
  assert (Hview : ∀ v, queue_view v →
            timed (tv_timer v) (mkClock (tv_scheduled v) 0) (tv_pending v)).
  { intros v Hv.
    destruct Hv as [Rq Rs key w Hw | w Hw | Pl Rs w Hw | s Hs | s Hs | s Hs];
      cbn [tv_scheduled tv_timer tv_pending BatchQueryQueue_view AddQueue_view
           LatestPayloadQueue_view queryBatcher_view selectionBatcher_view
           addBatcher_view].
    - by destruct (BatchQueryQueue_timed key w Hw).
    - by destruct (AddQueue_timed w Hw).
    - by destruct (LatestPayloadQueue_timed w Hw).
    - by destruct (Batched_timed s Hs) as ([? ?] & _ & _).
    - destruct (Batched_timed s Hs) as (_ & [[? ?] Heq] & _).
      rewrite <- Heq, orb_diag. by split.
    - by destruct (Batched_timed s Hs) as (_ & _ & [? ?]). }
  split.
  - intros v Hv. apply (timed_view _ _ _ (Hview v Hv)).
  - intros v v' Hmove.
    assert (Hv : queue_view v ∧ queue_view v').
    { destruct Hmove as [Rq Rs key w w' Hw Hst | w w' Hw Hst | Pl Rs w w' Hw Hst
                        | s s' Hw Hst | s s' Hw Hst | s s' Hw Hst].
      - split; apply (view_BatchQueryQueue key); [done |].
        by eapply BatchQueryQueue.reachable_step.
      - split; apply view_AddQueue; [done |]. by eapply AddQueue.reachable_step.
      - split; apply view_LatestPayloadQueue; [done |].
        by eapply LatestPayloadQueue.reachable_step.
      - split; apply view_queryBatcher; [done |]. by eapply Batched.reachable_step.
      - split; apply view_selectionBatcher; [done |]. by eapply Batched.reachable_step.
      - split; apply view_addBatcher; [done |]. by eapply Batched.reachable_step. }
    destruct Hv as [[Hs Hb]%Hview [Hs' Hb']%Hview]. cbn [scheduled] in Hs, Hs'.
    split_and!.
    + intros Hp Hp'. rewrite Hp in Hb. rewrite Hp' in Hb'.
      destruct (tv_timer v); [done |]. destruct (tv_timer v') as [t |]; [| done].
      split; [done |]. by exists t.
    + intros Hp Hp'.
      destruct Hmove as [Rq Rs key w w' Hw Hst | w w' Hw Hst | Pl Rs w w' Hw Hst
                        | s s' Hw Hst | s s' Hw Hst | s s' Hw Hst].
      * destruct (BatchQueryQueue_keeps_timer key w w' Hw Hst Hp Hp') as [Ht Hc].
        cbn. by rewrite Ht, Hc.
      * destruct (AddQueue_keeps_timer w w' Hw Hst Hp Hp') as [Ht Hc].
        cbn. by rewrite Ht, Hc.
      * destruct (LatestPayloadQueue_keeps_timer w w' Hw Hst Hp Hp') as [Ht Hc].
        cbn. by rewrite Ht, Hc.
      * by apply (Batched_keeps_timer s s' Hw Hst).
      * by apply (Batched_keeps_timer s s' Hw Hst).
      * by apply (Batched_keeps_timer s s' Hw Hst).
    + intros Hp Hp'. rewrite Hp' in Hb'.
      destruct (tv_timer v'); [done |]. by split.
Qed.

Lemma timer_iff_pending_witness :
  let w := (LatestPayloadQueue.enqueue (@LatestPayloadQueue.init (list Z) unit) [3; 1]).2 in
  (length (scheduled (LatestPayloadQueue.clock w)) ≤ 1)%nat
  ∧ scheduled (LatestPayloadQueue.clock w) = option_list (LatestPayloadQueue.timer w)
  ∧ (scheduled (LatestPayloadQueue.clock w) ≠ []
     ↔ is_some (LatestPayloadQueue.pending w) = true).
Proof.
  exact (proj1 timer_iff_pending _
           (view_LatestPayloadQueue _
              (LatestPayloadQueue.reachable_step _ _
                 LatestPayloadQueue.reachable_init
                 (LatestPayloadQueue.step_enqueue _ [3; 1])))).
Defined.

(** ** Failure of a dispatcher *)

Lemma cycle_failed_intro {V} error (groups : list (list nat * Outcome V))
    (rest : list nat) (P : Promises V) :
  (∀ g, g ∈ groups → g.2 = Rejected error) →
  ledger (concat groups.*1 ++ rest) P →
  cycle_failed error (concat groups.*1) rest P (settle_each groups P).
Proof.
  intros Hg HL. pose proof (ledger_settle_each _ _ _ HL) as HL'.
  destruct HL as (Hnd & Hlive & Hs).
  apply NoDup_app in Hnd as (Hnd1 & Hdisj & Hnd2).
  split_and!.
  - intros p Hp. rewrite (settle_each_same _ _ _ Hg), settle_all_lookup.
    destruct (Hlive p) as [_ ->]; [apply elem_of_app; by left |].
    by rewrite decide_True.
  - intros p Hp. by apply settle_each_other.
  - intros p Hp. split; [intros Hc; by apply (Hdisj _ Hc) |].
    by eapply ledger_unsettled.
Qed.

Lemma rejected_groups {V E} (f : E → list nat) (h : E → Outcome V) error (es : list E) :
  (∀ e, h e = Rejected error) →
  ∀ g, g ∈ map (λ e, (f e, h e)) es → g.2 = Rejected error.
Proof.
  intros Hh g Hg. apply list_elem_of_fmap in Hg as (e & -> & _). apply Hh.
Qed.

(** C5: when the dispatcher call of a flush fails, in any of the three queue
    classes, every waiter the flush captured is rejected with that error
    (so none of them is resolved), every other promise is left as it was,
    and the waiters of every other cycle stay unsettled; the pending state
    is not touched. *)
Theorem dispatcher_failure_is_cycle_wide :
  (∀ Request Result (key : Request → string)
     (w : BatchQueryQueue.World Request Result) i entries error,
     BatchQueryQueue.reachable key w →
     BatchQueryQueue.inflight w !! i = Some entries →
     let w' := BatchQueryQueue.complete i (inl error) w in
     cycle_failed error (BatchQueryQueue.waiters entries) (BatchQueryQueue_live w')
                  (BatchQueryQueue.promises w) (BatchQueryQueue.promises w')
     ∧ BatchQueryQueue.pending w' = BatchQueryQueue.pending w
     ∧ BatchQueryQueue.inflight w' = delete i (BatchQueryQueue.inflight w))
  ∧ (∀ (w : AddQueue.World) i entries error,
       AddQueue.reachable w →
       AddQueue.inflight w !! i = Some entries →
       let w' := AddQueue.complete i (inl error) w in
       cycle_failed error (AddQueue.waiters entries) (AddQueue_live w')
                    (AddQueue.promises w) (AddQueue.promises w')
       ∧ AddQueue.pending w' = AddQueue.pending w
       ∧ AddQueue.inflight w' = delete i (AddQueue.inflight w))
  ∧ (∀ TPayload TResult (w : LatestPayloadQueue.World TPayload TResult) i current error,
       LatestPayloadQueue.reachable w →
       LatestPayloadQueue.inflight w !! i = Some current →
       let w' := LatestPayloadQueue.complete i (inl error) w in
       cycle_failed error (LatestPayloadQueue.resolvers current)
                    (LatestPayloadQueue_live w')
                    (LatestPayloadQueue.promises w) (LatestPayloadQueue.promises w')
       ∧ LatestPayloadQueue.pending w' = LatestPayloadQueue.pending w
       ∧ LatestPayloadQueue.inflight w' = delete i (LatestPayloadQueue.inflight w)).
Proof.
  split_and!.
  - intros Rq Rs key w i entries error Hw Hi. cbn zeta.
    unfold BatchQueryQueue.complete. rewrite Hi, BatchQueryQueue_resume.
    cbn [BatchQueryQueue.promises BatchQueryQueue.pending BatchQueryQueue.inflight].
    split; [| done].
    pose proof (BatchQueryQueue_ledger key w Hw) as HL.
    eapply ledger_perm in HL; [| apply (live_delete BatchQueryQueue.waiters _ _ _ _ Hi)].
    unfold BatchQueryQueue_live. cbn [BatchQueryQueue.promises BatchQueryQueue.pending BatchQueryQueue.inflight].
    set (groups := map _ entries).
    replace (BatchQueryQueue.waiters entries) with (concat groups.*1)
      by (unfold groups; by rewrite groups_fst).
    apply cycle_failed_intro.
    + by apply rejected_groups.
    + unfold groups. by rewrite groups_fst.
  - intros w i entries error Hw Hi. cbn zeta.
    unfold AddQueue.complete. rewrite Hi, AddQueue_resume.
    cbn [AddQueue.promises AddQueue.pending AddQueue.inflight].
    split; [| done].
    pose proof (AddQueue_ledger w Hw) as HL.
    eapply ledger_perm in HL; [| apply (live_delete AddQueue.waiters _ _ _ _ Hi)].
    unfold AddQueue_live. cbn [AddQueue.promises AddQueue.pending AddQueue.inflight].
    set (groups := map _ entries).
    replace (AddQueue.waiters entries) with (concat groups.*1)
      by (unfold groups; by rewrite groups_fst).
    apply cycle_failed_intro.
    + by apply rejected_groups.
    + unfold groups. by rewrite groups_fst.
  - intros Pl Rs w i current error Hw Hi. cbn zeta.
    unfold LatestPayloadQueue.complete. rewrite Hi, LatestPayloadQueue_resume.
    cbn [LatestPayloadQueue.promises LatestPayloadQueue.pending LatestPayloadQueue.inflight].
    split; [| done].
    pose proof (LatestPayloadQueue_ledger w Hw) as HL.
    eapply ledger_perm in HL; [| apply (live_delete LatestPayloadQueue.resolvers _ _ _ _ Hi)].
    unfold LatestPayloadQueue_live. cbn [LatestPayloadQueue.promises LatestPayloadQueue.pending LatestPayloadQueue.inflight].
    set (groups := [(LatestPayloadQueue.resolvers current, _)]).
    replace (LatestPayloadQueue.resolvers current) with (concat groups.*1)
      by (unfold groups; cbn; by rewrite app_nil_r).
    apply cycle_failed_intro.
    + intros g ->%list_elem_of_singleton. done.
    + unfold groups. cbn. by rewrite app_nil_r.
Qed.

(** Two queries with different keys are captured by one flush, and the
    dispatcher call fails. *)
Lemma dispatcher_failure_witness :
  let qa := mkQuery "a" Available None None None in
  let qb := mkQuery "b" Selected None None None in
  let w0 := @BatchQueryQueue.init Query QueryResult in
  let w1 := (BatchQueryQueue.enqueue q_key w0 qa).2 in
  let w2 := (BatchQueryQueue.enqueue q_key w1 qb).2 in
  let w3 := BatchQueryQueue.fire 0 w2 in
  let w' := BatchQueryQueue.complete 0 (inl "offline") w3 in
  cycle_failed "offline" [0; 1]%nat (BatchQueryQueue_live w')
               (BatchQueryQueue.promises w3) (BatchQueryQueue.promises w').
Proof.
  intros qa qb w0 w1 w2 w3 w'.
  destruct dispatcher_failure_is_cycle_wide as (Hbatch & _ & _).
  refine (proj1 (Hbatch Query QueryResult q_key w3 0%nat
                   [("a", BatchQueryQueue.mkEntry qa [0%nat]);
                    ("b", BatchQueryQueue.mkEntry qb [1%nat])]
                   "offline" _ _)).
  - refine (BatchQueryQueue.reachable_step q_key w2 w3 _
              (BatchQueryQueue.step_fire q_key w2 0%nat _)).
    + refine (BatchQueryQueue.reachable_step q_key w1 w2 _
                (BatchQueryQueue.step_enqueue q_key w1 qb)).
      exact (BatchQueryQueue.reachable_step q_key w0 w1
               (BatchQueryQueue.reachable_init q_key)
               (BatchQueryQueue.step_enqueue q_key w0 qa)).
    + vm_compute. left.
  - reflexivity.
Defined.

(** ** BatchQueryQueue: a burst of calls, then the flush *)

Section keyed_latest.
Context {Request Result : Type} (key : Request → string).
Implicit Types (w : BatchQueryQueue.World Request Result) (reqs : list Request).
Implicit Types (k : string) (m : list (string * BatchQueryQueue.Entry Request)).
Implicit Types (e : BatchQueryQueue.Entry Request).

Lemma enqueue_all_snoc w reqs r :
  BatchQueryQueue.enqueue_all key w (reqs ++ [r])
  = ((BatchQueryQueue.enqueue_all key w reqs).1
       ++ [(BatchQueryQueue.enqueue key (BatchQueryQueue.enqueue_all key w reqs).2 r).1],
     (BatchQueryQueue.enqueue key (BatchQueryQueue.enqueue_all key w reqs).2 r).2).
Proof.
  unfold BatchQueryQueue.enqueue_all. rewrite foldl_snoc.
  by destruct (BatchQueryQueue.enqueue key _ r).
Qed.

Lemma enqueue_all_reachable w reqs :
  BatchQueryQueue.reachable key w →
  BatchQueryQueue.reachable key (BatchQueryQueue.enqueue_all key w reqs).2.
Proof.
  intros Hw. induction reqs as [| r reqs IH] using rev_ind; [done |].
  rewrite enqueue_all_snoc. cbn [snd].
  eapply BatchQueryQueue.reachable_step; [exact IH | constructor].
Qed.

Lemma enqueue_promise w r :
  (BatchQueryQueue.enqueue key w r).1 = next_promise (BatchQueryQueue.promises w).
Proof.
  unfold BatchQueryQueue.enqueue. cbn [newPromise].
  destruct (bool_decide _); [done |]. by destruct (schedule _ _).
Qed.

(** What [enqueue] does to the pending map, the calls and the flushes in
    flight. *)
Lemma enqueue_pending w r :
  BatchQueryQueue.pending (BatchQueryQueue.enqueue key w r).2 =
  if bool_decide (key r = EmptyString) then BatchQueryQueue.pending w
  else JsMap.set (key r)
         (BatchQueryQueue.mkEntry r
            (from_option BatchQueryQueue.resolvers []
               (JsMap.get (key r) (BatchQueryQueue.pending w))
             ++ [next_promise (BatchQueryQueue.promises w)]))
         (BatchQueryQueue.pending w).
Proof.
  unfold BatchQueryQueue.enqueue. cbn [newPromise].
  destruct (bool_decide _); [done |].
  destruct (schedule _ _). cbn.
  by destruct (JsMap.get _ _).
Qed.

Lemma enqueue_frame w r :
  BatchQueryQueue.calls (BatchQueryQueue.enqueue key w r).2 = BatchQueryQueue.calls w
  ∧ BatchQueryQueue.inflight (BatchQueryQueue.enqueue key w r).2
    = BatchQueryQueue.inflight w.
Proof.
  unfold BatchQueryQueue.enqueue. cbn [newPromise].
  destruct (bool_decide _); [done |]. by destruct (schedule _ _).
Qed.

Lemma keyed_set k e m :
  BatchQueryQueue.keyed key m → key (BatchQueryQueue.request e) = k →
  BatchQueryQueue.keyed key (JsMap.set k e m).
Proof.
  intros [Hnd Hk] He. split; [by apply NoDup_keys_set |].
  intros k' e' Hin.
  pose proof (elem_get_Some _ _ _ (NoDup_keys_set k e m Hnd) Hin) as Hg.
  rewrite get_set in Hg. destruct (decide (k' = k)) as [-> | Hne].
  - by injection Hg as <-.
  - by apply Hk, get_Some_elem.
Qed.

(** The requests handed to the dispatcher hold exactly one request per
    pending key. *)
Lemma keyed_requests k e m :
  BatchQueryQueue.keyed key m → JsMap.get k m = Some e →
  filter (λ r, key r = k) (map (λ x, BatchQueryQueue.request x.2) m)
  = [BatchQueryQueue.request e].
Proof.
  intros [Hnd Hk] Hg. induction m as [| [k0 e0] m IH]; [done |].
  rewrite fmap_cons in Hnd. apply NoDup_cons in Hnd as [Hk0 Hnd].
  cbn [JsMap.get] in Hg. cbn [map snd fst].
  assert (Hm : ∀ k' e', (k', e') ∈ m → key (BatchQueryQueue.request e') = k').
  { intros k' e' Hin. apply Hk. by right. }
  assert (He0 : key (BatchQueryQueue.request e0) = k0) by (apply Hk; left).
  destruct (decide (k = k0)) as [-> | Hne].
  - injection Hg as ->. rewrite filter_cons_True by done. f_equal.
    apply filter_none, Forall_forall. intros r Hr.
    apply list_elem_of_fmap in Hr as ([k' e'] & -> & Hin). cbn.
    rewrite (Hm _ _ Hin). intros ->. apply Hk0.
    apply list_elem_of_fmap. by exists (k0, e').
  - rewrite filter_cons_False by congruence. by apply IH.
Qed.

(** The state of the queue after a burst that started with nothing
    pending. *)
Lemma enqueue_all_spec w reqs :
  BatchQueryQueue.pending w = [] →
  let ps := (BatchQueryQueue.enqueue_all key w reqs).1 in
  let w1 := (BatchQueryQueue.enqueue_all key w reqs).2 in
  BatchQueryQueue.keyed key (BatchQueryQueue.pending w1)
  ∧ BatchQueryQueue.calls w1 = BatchQueryQueue.calls w
  ∧ BatchQueryQueue.inflight w1 = BatchQueryQueue.inflight w
  ∧ length ps = length reqs
  ∧ (∀ k, k ≠ EmptyString →
       BatchQueryQueue.request <$> JsMap.get k (BatchQueryQueue.pending w1)
       = last (filter (λ r, key r = k) reqs))
  ∧ (∀ j r p, reqs !! j = Some r → ps !! j = Some p → key r ≠ EmptyString →
       ∃ e, JsMap.get (key r) (BatchQueryQueue.pending w1) = Some e
            ∧ p ∈ BatchQueryQueue.resolvers e).
Proof.
  intros Hempty. cbn zeta.
  induction reqs as [| r reqs IH] using rev_ind.
  { cbn. rewrite Hempty. split_and!; try done.
    split; [apply NoDup_nil_2 | intros k e Hin; by apply elem_of_nil in Hin]. }
  rewrite enqueue_all_snoc. cbn [fst snd].
  destruct IH as (Hkeyed & Hcalls & Hinfl & Hlen & Hreq & Hres).
  set (w1 := (BatchQueryQueue.enqueue_all key w reqs).2) in *.
  set (ps := (BatchQueryQueue.enqueue_all key w reqs).1) in *.
  destruct (enqueue_frame w1 r) as [-> ->].
  rewrite enqueue_pending, enqueue_promise.
  split_and!; [| done | done | rewrite !length_app; simpl; lia | |].
  - case_bool_decide; [done |]. by apply keyed_set.
  - intros k Hk. rewrite filter_app.
    case_bool_decide as Hr.
    + rewrite filter_cons_False, filter_nil, app_nil_r by congruence. by apply Hreq.
    + rewrite get_set. destruct (decide (k = key r)) as [-> | Hne].
      * rewrite filter_cons_True, filter_nil by done. by rewrite last_snoc.
      * rewrite filter_cons_False, filter_nil, app_nil_r by congruence. by apply Hreq.
  - intros j r' p Hj Hp Hr'.
    destruct (decide (j < length reqs)%nat) as [Hlt | Hge].
    + rewrite lookup_app_l in Hj by done. rewrite lookup_app_l in Hp by lia.
      destruct (Hres j r' p Hj Hp Hr') as (e & He & Hin).
      case_bool_decide as Hr; [eauto |].
      rewrite get_set. destruct (decide (key r' = key r)) as [Heq | Hne]; [| eauto].
      eexists. split; [done |]. cbn. rewrite <- Heq, He. cbn.
      apply elem_of_app. by left.
    + assert (j = length reqs) as ->.
      { apply lookup_lt_Some in Hj. rewrite length_app in Hj. simpl in Hj. lia. }
      rewrite list_lookup_middle in Hj by done. injection Hj as <-.
      rewrite list_lookup_middle in Hp by done. injection Hp as <-.
      rewrite bool_decide_false by done. rewrite get_set, decide_True by done.
      eexists. split; [done |]. cbn. apply elem_of_app. right. left.
Qed.

End keyed_latest.

(** ** What the completion of a dispatcher call gives each waiter *)

Lemma ledger_captured {V} (cycle rest live : list nat) (P : Promises V) p :
  ledger live P → live ≡ₚ cycle ++ rest → p ∈ cycle →
  NoDup cycle ∧ settled P !! p = None.
Proof.
  intros HL Hperm Hp. apply (ledger_perm _ _ _ Hperm) in HL.
  destruct HL as (Hnd & Hlive & _). apply NoDup_app in Hnd as (Hnd & _ & _).
  split; [done |]. apply Hlive, elem_of_app. by left.
Qed.

Lemma BatchQueryQueue_complete_lookup {Request Result} (key : Request → string)
    (w : BatchQueryQueue.World Request Result) i entries outcome k e p :
  BatchQueryQueue.reachable key w →
  BatchQueryQueue.inflight w !! i = Some entries →
  (k, e) ∈ entries → p ∈ BatchQueryQueue.resolvers e →
  settled (BatchQueryQueue.promises (BatchQueryQueue.complete i outcome w)) !! p
  = Some (BatchQueryQueue_outcome outcome k).
Proof.
  intros Hw Hi He Hp. unfold BatchQueryQueue.complete.
  rewrite Hi, BatchQueryQueue_resume. cbn [BatchQueryQueue.promises].
  assert (Hin : p ∈ BatchQueryQueue.waiters entries).
  { apply elem_of_concat. exists (BatchQueryQueue.resolvers e). split; [| done].
    apply list_elem_of_fmap. by exists (k, e). }
  destruct (ledger_captured _ _ _ _ p (BatchQueryQueue_ledger key w Hw)
              (live_delete BatchQueryQueue.waiters _ _ _ _ Hi) Hin) as [Hnd Hun].
  eapply settle_each_lookup; [| exact Hp | by rewrite groups_fst | done].
  apply list_elem_of_fmap. by exists (k, e).
Qed.

Lemma LatestPayloadQueue_complete_lookup {TPayload TResult}
    (w : LatestPayloadQueue.World TPayload TResult) i current outcome p :
  LatestPayloadQueue.reachable w →
  LatestPayloadQueue.inflight w !! i = Some current →
  p ∈ LatestPayloadQueue.resolvers current →
  settled (LatestPayloadQueue.promises (LatestPayloadQueue.complete i outcome w)) !! p
  = Some (LatestPayloadQueue_outcome outcome).
Proof.
  intros Hw Hi Hp. unfold LatestPayloadQueue.complete.
  rewrite Hi, LatestPayloadQueue_resume. cbn [LatestPayloadQueue.promises].
  destruct (ledger_captured _ _ _ _ p (LatestPayloadQueue_ledger w Hw)
              (live_delete LatestPayloadQueue.resolvers _ _ _ _ Hi) Hp) as [Hnd Hun].
  eapply settle_each_lookup; [left | exact Hp | cbn; by rewrite app_nil_r | done].
Qed.

Lemma AddQueue_complete_lookup (w : AddQueue.World) i entries outcome id ws p :
  AddQueue.reachable w →
  AddQueue.inflight w !! i = Some entries →
  (id, ws) ∈ entries → p ∈ ws →
  settled (AddQueue.promises (AddQueue.complete i outcome w)) !! p
  = Some (AddQueue_outcome outcome id).
Proof.
  intros Hw Hi He Hp. unfold AddQueue.complete.
  rewrite Hi, AddQueue_resume. cbn [AddQueue.promises].
  assert (Hin : p ∈ AddQueue.waiters entries).
  { apply elem_of_concat. exists ws. split; [| done].
    apply list_elem_of_fmap. by exists (id, ws). }
  destruct (ledger_captured _ _ _ _ p (AddQueue_ledger w Hw)
              (live_delete AddQueue.waiters _ _ _ _ Hi) Hin) as [Hnd Hun].
  eapply settle_each_lookup; [| exact Hp | by rewrite groups_fst | done].
  apply list_elem_of_fmap. by exists (id, ws).
Qed.

(** C1: after any burst of [enqueue] calls into an empty BatchQueryQueue in
    which at least one call carries the non-empty key [k], the flush calls
    the dispatcher once, the requests it passes hold exactly one request
    with key [k], the one enqueued last, and when the dispatcher's mapping
    gives [k] a result, the promise of every call that carried [k] is
    resolved with that same result. *)
Theorem keyed_latest_burst {Request Result} (key : Request → string)
    (w : BatchQueryQueue.World Request Result) (reqs : list Request)
    (k : string) (rlast : Request) (t : nat) :
  BatchQueryQueue.reachable key w →
  BatchQueryQueue.pending w = [] →
  k ≠ EmptyString →
  last (filter (λ r, key r = k) reqs) = Some rlast →
  let ps := (BatchQueryQueue.enqueue_all key w reqs).1 in
  let w1 := (BatchQueryQueue.enqueue_all key w reqs).2 in
  t ∈ scheduled (BatchQueryQueue.clock w1) →
  let w2 := BatchQueryQueue.fire t w1 in
  ∃ requests entries,
    BatchQueryQueue.calls w2 = BatchQueryQueue.calls w ++ [requests]
    ∧ BatchQueryQueue.inflight w2 = BatchQueryQueue.inflight w ++ [entries]
    ∧ BatchQueryQueue.pending w2 = []
    ∧ filter (λ r, key r = k) requests = [rlast]
    ∧ ∀ (w' : BatchQueryQueue.World Request Result) (i : nat)
        (responseMap : gmap string Result) (result : Result),
        BatchQueryQueue.reachable key w' →
        BatchQueryQueue.inflight w' !! i = Some entries →
        responseMap !! k = Some result →
        ∀ j r p, reqs !! j = Some r → key r = k → ps !! j = Some p →
          settled (BatchQueryQueue.promises
                     (BatchQueryQueue.complete i (inr responseMap) w')) !! p
          = Some (Resolved result).
Proof.
  intros Hw Hempty Hk Hlast. cbn zeta. intros Ht.
  destruct (enqueue_all_spec key w reqs Hempty)
    as (Hkeyed & Hcalls & Hinfl & Hlen & Hreq & Hres).
  set (w1 := (BatchQueryQueue.enqueue_all key w reqs).2) in *.
  set (ps := (BatchQueryQueue.enqueue_all key w reqs).1) in *.
  specialize (Hreq k Hk). rewrite Hlast in Hreq.
  destruct (JsMap.get k (BatchQueryQueue.pending w1)) as [e |] eqn:Eg; [| done].
  injection Hreq as Hreq.
  exists (map (λ x, BatchQueryQueue.request x.2) (BatchQueryQueue.pending w1)),
         (BatchQueryQueue.pending w1).
  unfold BatchQueryQueue.fire, BatchQueryQueue.flush. cbn.
  destruct (BatchQueryQueue.pending w1) as [| e0 es] eqn:Ep; [done |].
  cbn. rewrite Hcalls, Hinfl. split_and!; [done | done | done | |].
  - rewrite <- Hreq. by apply (keyed_requests key k e (e0 :: es)).
  - intros w' i responseMap result Hw' Hi Hm j r p Hj Hr Hp.
    destruct (Hres j r p Hj Hp) as (e' & He' & Hin); [by rewrite Hr |].
    rewrite Hr, Eg in He'. injection He' as <-.
    rewrite (BatchQueryQueue_complete_lookup key w' i (e0 :: es) _ k e p);
      [| done | done | by apply get_Some_elem | done].
    cbn. by rewrite Hm.
Qed.

(** The scenario of the specification: key "page:0" three times, with the
    filters "1", "12" and "123". *)
Lemma keyed_latest_burst_witness :
  let q := λ f, mkQuery "page:0" Available (Some f) None None in
  let reqs := [q "1"; q "12"; q "123"] in
  let w := @BatchQueryQueue.init Query QueryResult in
  ∃ requests entries,
    BatchQueryQueue.calls
      (BatchQueryQueue.fire 0 (BatchQueryQueue.enqueue_all q_key w reqs).2)
    = BatchQueryQueue.calls w ++ [requests]
    ∧ BatchQueryQueue.inflight
        (BatchQueryQueue.fire 0 (BatchQueryQueue.enqueue_all q_key w reqs).2)
      = BatchQueryQueue.inflight w ++ [entries]
    ∧ BatchQueryQueue.pending
        (BatchQueryQueue.fire 0 (BatchQueryQueue.enqueue_all q_key w reqs).2) = []
    ∧ filter (λ r, q_key r = "page:0") requests = [q "123"]
    ∧ ∀ (w' : BatchQueryQueue.World Query QueryResult) (i : nat)
        (responseMap : gmap string QueryResult) (result : QueryResult),
        BatchQueryQueue.reachable q_key w' →
        BatchQueryQueue.inflight w' !! i = Some entries →
        responseMap !! "page:0" = Some result →
        ∀ j r p, reqs !! j = Some r → q_key r = "page:0" →
          (BatchQueryQueue.enqueue_all q_key w reqs).1 !! j = Some p →
          settled (BatchQueryQueue.promises
                     (BatchQueryQueue.complete i (inr responseMap) w')) !! p
          = Some (Resolved result).
Proof.
  intros q reqs w.
  apply (keyed_latest_burst q_key w reqs "page:0" (q "123") 0%nat).
  - apply BatchQueryQueue.reachable_init.
  - reflexivity.
  - discriminate.
  - reflexivity.
  - vm_compute. left.
Defined.

(** ** The ledger of the batching server *)

Lemma singles_concat {V E} (g : E → nat) (h : E → Outcome V) (es : list E) :
  concat (map (λ e, ([g e], h e)) es).*1 = map g es.
Proof. induction es as [| e es IH]; cbn; [done |]. by rewrite <- IH. Qed.

Lemma perm_snoc_mid {A} (x : A) (l1 l2 l3 : list A) :
  x :: l1 ++ l2 ++ l3 ≡ₚ l1 ++ (l2 ++ [x]) ++ l3.
Proof.
  rewrite <- (app_assoc l2). change ([x] ++ l3) with (x :: l3).
  by rewrite <- !Permutation_middle.
Qed.

Lemma perm_snoc_back {A} (x : A) (l1 l2 l3 : list A) :
  x :: l1 ++ l2 ++ l3 ≡ₚ l1 ++ l2 ++ (l3 ++ [x]).
Proof.
  rewrite !app_assoc. rewrite <- Permutation_cons_append.
  by rewrite <- !app_assoc.
Qed.

Lemma Batched_ledger (s : Batched.Server) :
  Batched.reachable s → ledger (Batched_live s) (Batched.promises s).
Proof.
  induction 1 as [| s s' _ IH Hstep]; [apply ledger_init |].
  unfold Batched_live in *.
  destruct Hstep as [s ids | s body | s queries | s t Ht | s t Ht | s t Ht].
  - unfold Batched.post_items_batch, Batched.add_enqueue. cbn [newPromise].
    eapply ledger_perm; [| apply ledger_new, IH].
    destruct (Batched.ab_timer _); cbn; rewrite map_app; apply perm_snoc_back.
  - unfold Batched.post_selection, Batched.selection_enqueue. cbn [newPromise].
    eapply ledger_perm; [| apply ledger_new, IH].
    destruct (Batched.sb_timer _); cbn; apply perm_snoc_mid.
  - unfold Batched.post_query, Batched.query_enqueue. cbn [newPromise].
    eapply ledger_perm; [| apply ledger_new, IH].
    destruct (Batched.qb_timer _); cbn; rewrite map_app; apply perm_snoc_front.
  - unfold Batched.fire_query, Batched.query_flush. cbn.
    destruct (Batched.qb_pending (Batched.queryBatcher s)) as [| item pend] eqn:Ep;
      [done |].
    destruct (foldl run_query _ _) as [results st']. cbn.
    rewrite (foldl_settle_one Batched.pq_resolve
               (λ it, Resolved (RespQuery (Batched.response_for results it)))
               pend).
    change (settle_each ?g (settle ?w ?o ?P)) with (settle_each (([w], o) :: g) P).
    apply ledger_settle_each. cbn [fmap list_fmap fst concat app].
    by rewrite singles_concat.
  - unfold Batched.fire_selection, Batched.selection_flush. cbn.
    destruct (Batched.sb_latest _); cbn;
      change (settle_all ?ws ?o ?P) with (settle_each [(ws, o)] P);
      apply ledger_settle_each; cbn; rewrite app_nil_r;
      (eapply ledger_perm; [| exact IH]);
      by rewrite (Permutation_app_swap_app (map _ _)).
  - unfold Batched.fire_add, Batched.add_flush. cbn.
    destruct (Batched.ab_pendingRequests (Batched.addBatcher s)) as [| req pend] eqn:Ep;
      [done |].
    destruct (add_batch _ _) as [[added rejectedGlobal] st']. cbn.
    rewrite (foldl_settle_one Batched.pa_resolve
               (λ rq, Resolved (RespAdd (Batched.addedForRequest added rq)
                                        (Batched.rejectedForRequest rejectedGlobal rq)))
               pend).
    change (settle_each ?g (settle ?w ?o ?P)) with (settle_each (([w], o) :: g) P).
    apply ledger_settle_each. cbn [fmap list_fmap fst concat app].
    rewrite singles_concat. rewrite app_nil_r.
    eapply ledger_perm; [| exact IH]. cbn.
    rewrite app_assoc. apply Permutation_app_comm.
Qed.

(** ** Last write wins *)

Lemma Batched_unsettled_next (s : Batched.Server) :
  Batched.reachable s →
  settled (Batched.promises s) !! next_promise (Batched.promises s) = None.
Proof.
  intros Hs. destruct (Batched_ledger s Hs) as (_ & _ & Hlt).
  destruct (settled _ !! _) eqn:E; [| done].
  assert (next_promise (Batched.promises s) < next_promise (Batched.promises s))%nat
    by (apply Hlt; eauto).
  lia.
Qed.

(** C2: two payloads [P1] then [P2] enqueued into an empty queue are flushed
    as one dispatch of [P2] alone, and both callers get the result of that
    dispatch.  First conjunct: [LatestPayloadQueue] in the client; second:
    the selection batcher of the server, whose dispatch is the assignment of
    the stored selection. *)
Theorem latest_payload_wins :
  (∀ TPayload TResult (w : LatestPayloadQueue.World TPayload TResult)
     (P1 P2 : TPayload) (t : nat),
     LatestPayloadQueue.reachable w →
     LatestPayloadQueue.pending w = None →
     let e1 := LatestPayloadQueue.enqueue w P1 in
     let e2 := LatestPayloadQueue.enqueue e1.2 P2 in
     t ∈ scheduled (LatestPayloadQueue.clock e2.2) →
     let w3 := LatestPayloadQueue.fire t e2.2 in
     let cycle := LatestPayloadQueue.mkPending P2 [e1.1; e2.1] in
     e1.1 ≠ e2.1
     ∧ LatestPayloadQueue.calls w3 = LatestPayloadQueue.calls w ++ [P2]
     ∧ LatestPayloadQueue.inflight w3 = LatestPayloadQueue.inflight w ++ [cycle]
     ∧ LatestPayloadQueue.pending w3 = None
     ∧ ∀ (w' : LatestPayloadQueue.World TPayload TResult) (i : nat) (result : TResult),
         LatestPayloadQueue.reachable w' →
         LatestPayloadQueue.inflight w' !! i = Some cycle →
         let w4 := LatestPayloadQueue.complete i (inr result) w' in
         settled (LatestPayloadQueue.promises w4) !! e1.1 = Some (Resolved result)
         ∧ settled (LatestPayloadQueue.promises w4) !! e2.1 = Some (Resolved result))
  ∧ (∀ (s : Batched.Server) (P1 P2 : list Z) (t : nat),
       Batched.reachable s →
       Batched.sb_latest (Batched.selectionBatcher s) = None →
       let e1 := Batched.selection_enqueue s P1 in
       let e2 := Batched.selection_enqueue e1.2 P2 in
       t ∈ scheduled (Batched.sb_clock (Batched.selectionBatcher e2.2)) →
       let s3 := Batched.fire_selection t e2.2 in
       e1.1 ≠ e2.1
       ∧ selectedIds (Batched.store s3) = P2
       ∧ Batched.sb_latest (Batched.selectionBatcher s3) = None
       ∧ settled (Batched.promises s3) !! e1.1 = Some (Resolved (RespSelection P2))
       ∧ settled (Batched.promises s3) !! e2.1 = Some (Resolved (RespSelection P2))).
Proof.
  split.
  - intros Pl Rs w P1 P2 t Hw Hpend. cbn zeta.
    rewrite !LatestPayloadQueue_enqueue_eq. cbn [fst snd].
    rewrite ?LatestPayloadQueue_enqueue_eq. rewrite Hpend.
    cbn [fst snd LatestPayloadQueue.pending LatestPayloadQueue.promises
         LatestPayloadQueue.calls LatestPayloadQueue.inflight next_promise
         from_option LatestPayloadQueue.resolvers app].
    intros Ht. unfold LatestPayloadQueue.fire, LatestPayloadQueue.flush.
    cbn [LatestPayloadQueue.pending LatestPayloadQueue.promises
         LatestPayloadQueue.calls LatestPayloadQueue.inflight
         LatestPayloadQueue.payload].
    split_and!; [lia | done | done | done |].
    intros w' i result Hw' Hi. cbn zeta.
    split;
      rewrite (LatestPayloadQueue_complete_lookup w' i _ _ _ Hw' Hi); try done;
      cbn; set_solver.
  - intros s P1 P2 t Hs Hlatest. cbn zeta.
    pose proof (Batched_unsettled_next s Hs) as Hfresh.
    destruct (Batched_ledger s Hs) as (_ & _ & Hlt).
    destruct (Batched_timed s Hs) as (_ & [_ Hres] & _).
    rewrite Hlatest in Hres.
    destruct (Batched.sb_resolvers (Batched.selectionBatcher s)) as [| r rs] eqn:Er;
      [| done].
    rewrite !selection_enqueue_eq. cbn [fst snd].
    rewrite ?selection_enqueue_eq. rewrite Er.
    cbn [fst snd Batched.selectionBatcher Batched.promises Batched.store
         Batched.sb_resolvers next_promise settled app].
    intros Ht. unfold Batched.fire_selection, Batched.selection_flush.
    cbn [Batched.selectionBatcher Batched.sb_latest Batched.sb_resolvers
         Batched.store Batched.promises selectedIds ensureSelectedLookup].
    split_and!; [lia | done | done | |];
      rewrite settle_all_lookup; cbn [settled].
    + rewrite Hfresh. rewrite decide_True; [done | set_solver].
    + destruct (settled (Batched.promises s) !! S (next_promise (Batched.promises s)))
        eqn:E.
      { assert (S (next_promise (Batched.promises s)) < next_promise (Batched.promises s))%nat
          by (apply Hlt; eauto). lia. }
      rewrite decide_True; [done | set_solver].
Qed.

Lemma latest_payload_wins_witness :
  (let w := @LatestPayloadQueue.init (list Z) unit in
   let e1 := LatestPayloadQueue.enqueue w [3; 1; 2] in
   let e2 := LatestPayloadQueue.enqueue e1.2 [2; 3] in
   LatestPayloadQueue.calls (LatestPayloadQueue.fire 0 e2.2) = [[2; 3]])
  ∧ (let e1 := Batched.selection_enqueue Batched.initServer [3; 1; 2] in
     let e2 := Batched.selection_enqueue e1.2 [2; 3] in
     selectedIds (Batched.store (Batched.fire_selection 0 e2.2)) = [2; 3]).
Proof.
  destruct latest_payload_wins as [Hclient Hserver]. split.
  - refine (proj1 (proj2 (Hclient (list Z) unit LatestPayloadQueue.init [3; 1; 2] [2; 3]
                            0%nat LatestPayloadQueue.reachable_init eq_refl _))).
    vm_compute. left.
  - refine (proj1 (proj2 (Hserver Batched.initServer [3; 1; 2] [2; 3] 0%nat
                            Batched.reachable_init eq_refl _))).
    vm_compute. left.
Defined.

(** ** The keys and ids a flush captures *)

Section dispatcher_input.

Lemma keys_set_elem {K V} `{EqDecision K} (k k' : K) (v : V) (m : list (K * V)) :
  k' ∈ (JsMap.set k v m).*1 → k' = k ∨ k' ∈ m.*1.
Proof.
  rewrite keys_set. destruct (decide (k ∈ m.*1)); [by right |].
  intros [? | ->%list_elem_of_singleton]%elem_of_app; [by right | by left].
Qed.

Lemma elem_of_delete {A} (i : nat) (l : list A) (x : A) :
  x ∈ delete i l → x ∈ l.
Proof.
  revert i. induction l as [| y l IH]; intros [| i]; try done.
  - change (delete 0%nat (y :: l)) with l. by right.
  - change (delete (S i) (y :: l)) with (y :: delete i l).
    intros [-> | Hin]%elem_of_cons; [left | right; by eapply IH].
Qed.

Lemma keyed_request_keys {Request} (key : Request → string)
    (m : list (string * BatchQueryQueue.Entry Request)) :
  BatchQueryQueue.keyed key m →
  map key (map (λ e, BatchQueryQueue.request e.2) m) = m.*1.
Proof.
  intros [_ Hk]. induction m as [| [k e] m IH]; [done |].
  cbn [map fmap list_fmap fst snd]. f_equal.
  - apply Hk. left.
  - apply IH. intros k' e' Hin. apply Hk. by right.
Qed.

Lemma BatchQueryQueue_wellkeyed {Request Result} (key : Request → string)
    (w : BatchQueryQueue.World Request Result) :
  BatchQueryQueue.reachable key w →
  BatchQueryQueue.keyed key (BatchQueryQueue.pending w)
  ∧ (∀ k, k ∈ (BatchQueryQueue.pending w).*1 → k ≠ EmptyString)
  ∧ (∀ requests, requests ∈ BatchQueryQueue.calls w →
       requests ≠ [] ∧ NoDup (map key requests)
       ∧ ∀ r, r ∈ requests → key r ≠ EmptyString)
  ∧ (∀ entries, entries ∈ BatchQueryQueue.inflight w →
       BatchQueryQueue.keyed key entries
       ∧ ∀ k, k ∈ entries.*1 → k ≠ EmptyString).
Proof.
  induction 1 as [| w w' _ (Hkeyed & Hne & Hcalls & Hfl) Hstep].
  { split_and!.
    - split; [apply NoDup_nil_2 | intros k e Hin; by apply elem_of_nil in Hin].
    - intros k Hin. by apply elem_of_nil in Hin.
    - intros requests Hin. by apply elem_of_nil in Hin.
    - intros entries Hin. by apply elem_of_nil in Hin. }
  destruct Hstep as [w req | w t Ht | w i outcome Hi].
  - destruct (enqueue_frame key w req) as [-> ->]. rewrite enqueue_pending.
    case_bool_decide as Hk; [done |].
    split_and!; [by apply keyed_set | | done | done].
    intros k [-> | Hin]%keys_set_elem; [done | by apply Hne].
  - unfold BatchQueryQueue.fire, BatchQueryQueue.flush.
    cbn [BatchQueryQueue.pending BatchQueryQueue.calls BatchQueryQueue.inflight].
    assert (Hnil : BatchQueryQueue.keyed key []
                   ∧ ∀ k, k ∈ ([] : list (string * BatchQueryQueue.Entry Request)).*1
                          → k ≠ EmptyString).
    { split; [split; [apply NoDup_nil_2 |] |].
      - intros k e Hin. by apply elem_of_nil in Hin.
      - intros k Hin. by apply elem_of_nil in Hin. }
    destruct Hnil as [Hn1 Hn2].
    destruct (BatchQueryQueue.pending w) as [| e es] eqn:Ep;
      cbn [BatchQueryQueue.pending BatchQueryQueue.calls BatchQueryQueue.inflight];
      [done |].
    split_and!; [done | done | |].
    + intros requests [Hin | ->%list_elem_of_singleton]%elem_of_app;
        [by apply Hcalls |].
      split_and!; [done | |].
      * rewrite (keyed_request_keys key _ Hkeyed). by destruct Hkeyed.
      * intros r ([k x] & -> & Hin)%list_elem_of_fmap. cbn [snd].
        destruct Hkeyed as [_ Hk]. rewrite (Hk _ _ Hin). apply Hne.
        apply list_elem_of_fmap. by exists (k, x).
    + intros entries [Hin | ->%list_elem_of_singleton]%elem_of_app;
        [by apply Hfl | done].
  - destruct Hi as [es Hi]. unfold BatchQueryQueue.complete. rewrite Hi.
    cbn [BatchQueryQueue.pending BatchQueryQueue.calls BatchQueryQueue.inflight].
    split_and!; [done | done | done |].
    intros entries Hin. by apply Hfl, (elem_of_delete i).
Qed.

Lemma AddQueue_wellkeyed (w : AddQueue.World) :
  AddQueue.reachable w →
  NoDup (AddQueue.pending w).*1
  ∧ (∀ id, id ∈ (AddQueue.pending w).*1 → 0 < id)
  ∧ (∀ ids, ids ∈ AddQueue.calls w →
       ids ≠ [] ∧ NoDup ids ∧ ∀ id, id ∈ ids → 0 < id)
  ∧ (∀ entries, entries ∈ AddQueue.inflight w →
       NoDup entries.*1 ∧ ∀ id, id ∈ entries.*1 → 0 < id).
Proof.
  induction 1 as [| w w' _ (Hnd & Hpos & Hcalls & Hfl) Hstep].
  { split_and!; [apply NoDup_nil_2 | | |]; intros x Hin; by apply elem_of_nil in Hin. }
  destruct Hstep as [w id | w t Ht | w i outcome Hi].
  - destruct id as [id |]; [| done].
    destruct (Z.leb_spec id 0) as [Hle | Hgt].
    { unfold AddQueue.enqueue. cbn [newPromise].
      by rewrite (proj2 (Z.leb_le id 0)) by done. }
    rewrite AddQueue_enqueue_eq by done.
    cbn [snd AddQueue.pending AddQueue.calls AddQueue.inflight].
    split_and!; [by apply NoDup_keys_set | | done | done].
    intros id' [-> | Hin]%keys_set_elem; [done | by apply Hpos].
  - unfold AddQueue.fire, AddQueue.flush.
    cbn [AddQueue.pending AddQueue.calls AddQueue.inflight].
    destruct (AddQueue.pending w) as [| e es] eqn:Ep;
      cbn [AddQueue.pending AddQueue.calls AddQueue.inflight].
    { split_and!; [apply NoDup_nil_2 | | done | done].
      intros x Hin. by apply elem_of_nil in Hin. }
    split_and!; [apply NoDup_nil_2 | intros x Hin; by apply elem_of_nil in Hin | |].
    + intros ids [Hin | ->%list_elem_of_singleton]%elem_of_app; [by apply Hcalls |].
      done.
    + intros entries [Hin | ->%list_elem_of_singleton]%elem_of_app;
        [by apply Hfl | done].
  - destruct Hi as [es Hi]. unfold AddQueue.complete. rewrite Hi.
    cbn [AddQueue.pending AddQueue.calls AddQueue.inflight].
    split_and!; [done | done | done |].
    intros entries Hin. by apply Hfl, (elem_of_delete i).
Qed.

End dispatcher_input.

Lemma filter_eq_absent (l : list Z) (x : Z) :
  x ∉ l → filter (λ y, y = x) l = [].
Proof.
  induction l as [| y l IH]; [done |].
  intros [Hne Hin]%not_elem_of_cons.
  rewrite filter_cons_False by (by intros ->). by apply IH.
Qed.

Lemma NoDup_filter_eq_length (l : list Z) (x : Z) :
  NoDup l → x ∈ l → length (filter (λ y, y = x) l) = 1%nat.
Proof.
  induction 1 as [| y l Hy Hnd IH]; [by intros ?%elem_of_nil |].
  intros [-> | Hin]%elem_of_cons.
  - rewrite filter_cons_True by done. cbn [length].
    by rewrite filter_eq_absent.
  - rewrite filter_cons_False by (by intros ->). by apply IH.
Qed.

(** ** One pending entry per call, or per id *)

(** In the client's [AddQueue] two calls with the same id share one pending
    entry, which holds both promises, and the dispatcher is given the id
    once: there is not one entry per call. *)
Lemma AddQueue_merges_same_id :
  let w0 := AddQueue.init in
  let w1 := (AddQueue.enqueue w0 (Int 1000005)).2 in
  let w2 := (AddQueue.enqueue w1 (Int 1000005)).2 in
  AddQueue.pending w2 = [(1000005, [0; 1]%nat)]
  ∧ length (AddQueue.pending w2) ≠ 2%nat
  ∧ AddQueue.calls (AddQueue.fire 0 w2) = [[1000005]].
Proof. split_and!; [reflexivity | discriminate | reflexivity]. Qed.

(** C8, amended: the server's add batcher keeps one pending entry per call,
    each with its own promise, also for identical id lists, and its flush
    sees the ids of every call, in order (first conjunct).  The client's
    [AddQueue] keeps one entry per distinct id: a repeated id adds its
    promise to the entry of that id and no entry of its own (second
    conjunct), and the flush after the two calls hands the dispatcher one
    list, the ids of the pending entries, in which the id occurs once and
    no id occurs twice (third conjunct). *)
Theorem one_entry_per_call_or_id :
  (∀ (s : Batched.Server) (ids1 ids2 : list JsValue),
     let e1 := Batched.add_enqueue s ids1 in
     let e2 := Batched.add_enqueue e1.2 ids2 in
     Batched.ab_pendingRequests (Batched.addBatcher e2.2)
     = Batched.ab_pendingRequests (Batched.addBatcher s)
       ++ [Batched.mkPendingAdd ids1 (JsSet.of_list ids1) e1.1;
           Batched.mkPendingAdd ids2 (JsSet.of_list ids2) e2.1]
     ∧ e1.1 ≠ e2.1
     ∧ Batched.requested_of (Batched.ab_pendingRequests (Batched.addBatcher e2.2))
       = Batched.requested_of (Batched.ab_pendingRequests (Batched.addBatcher s))
         ++ ids1 ++ ids2)
  ∧ (∀ (w : AddQueue.World) (id : Z),
       0 < id →
       let e1 := AddQueue.enqueue w (Int id) in
       let e2 := AddQueue.enqueue e1.2 (Int id) in
       e1.1 ≠ e2.1
       ∧ JsMap.get id (AddQueue.pending e2.2)
         = Some (default [] (JsMap.get id (AddQueue.pending w)) ++ [e1.1; e2.1])
       ∧ (AddQueue.pending e2.2).*1 = (AddQueue.pending e1.2).*1)
  ∧ (∀ (w : AddQueue.World) (id : Z) (t : nat),
       AddQueue.reachable w →
       0 < id →
       let e1 := AddQueue.enqueue w (Int id) in
       let e2 := AddQueue.enqueue e1.2 (Int id) in
       let ids := (AddQueue.pending e2.2).*1 in
       AddQueue.calls (AddQueue.fire t e2.2) = AddQueue.calls w ++ [ids]
       ∧ NoDup ids
       ∧ length (filter (λ x, x = id) ids) = 1%nat).
Proof.
  split_and!.
  - intros s ids1 ids2. cbn zeta. rewrite !add_enqueue_eq. cbn [fst snd].
    rewrite ?add_enqueue_eq.
    cbn [fst snd Batched.addBatcher Batched.ab_pendingRequests Batched.promises
         next_promise].
    split_and!; [by rewrite <- app_assoc | lia |].
    unfold Batched.requested_of. rewrite <- app_assoc, map_app, concat_app. cbn.
    by rewrite app_nil_r.
  - intros w id Hid. cbn zeta. rewrite !(AddQueue_enqueue_eq _ id Hid). cbn [fst snd].
    rewrite ?(AddQueue_enqueue_eq _ id Hid).
    cbn [fst snd AddQueue.pending AddQueue.promises next_promise].
    split_and!; [lia | |].
    + rewrite !get_set, !decide_True by done. cbn. by rewrite <- app_assoc.
    + rewrite (keys_set id _ (JsMap.set id _ _)). rewrite decide_True; [done |].
      rewrite keys_set. destruct (decide (id ∈ (AddQueue.pending w).*1)); [done |].
      apply elem_of_app. right. left.
  - intros w id t Hw Hid. cbn zeta.
    pose proof (AddQueue.reachable_step _ _ Hw (AddQueue.step_enqueue w (Int id)))
      as Hw1.
    pose proof (AddQueue.reachable_step _ _ Hw1
                  (AddQueue.step_enqueue (AddQueue.enqueue w (Int id)).2 (Int id)))
      as Hw2.
    destruct (AddQueue_wellkeyed _ Hw2) as (Hnd & _).
    revert Hnd. rewrite !(AddQueue_enqueue_eq _ id Hid). cbn [fst snd].
    rewrite ?(AddQueue_enqueue_eq _ id Hid).
    cbn [fst snd AddQueue.pending AddQueue.promises AddQueue.calls next_promise].
    intros Hnd.
    assert (Hin : id ∈ (JsMap.set id
                          (default [] (JsMap.get id
                             (JsMap.set id
                                (default [] (JsMap.get id (AddQueue.pending w))
                                 ++ [next_promise (AddQueue.promises w)])
                                (AddQueue.pending w)))
                           ++ [S (next_promise (AddQueue.promises w))])
                          (JsMap.set id
                             (default [] (JsMap.get id (AddQueue.pending w))
                              ++ [next_promise (AddQueue.promises w)])
                             (AddQueue.pending w))).*1).
    { rewrite keys_set. case_decide as Hk; [done |]. apply elem_of_app. right. left. }
    split_and!; [| done | by apply NoDup_filter_eq_length].
    unfold AddQueue.fire, AddQueue.flush.
    cbn [AddQueue.pending AddQueue.calls].
    match goal with
    | |- context [match ?m with [] => _ | _ :: _ => _ end] =>
        destruct m as [| e es] eqn:Em
    end; [by apply elem_of_nil in Hin | done].
Qed.

Lemma one_entry_per_call_or_id_witness :
  let e1 := AddQueue.enqueue AddQueue.init (Int 1000005) in
  let e2 := AddQueue.enqueue e1.2 (Int 1000005) in
  let ids := (AddQueue.pending e2.2).*1 in
  (e1.1 ≠ e2.1
   ∧ JsMap.get 1000005 (AddQueue.pending e2.2)
     = Some (default [] (JsMap.get 1000005 (AddQueue.pending AddQueue.init))
             ++ [e1.1; e2.1])
   ∧ (AddQueue.pending e2.2).*1 = (AddQueue.pending e1.2).*1)
  ∧ (AddQueue.calls (AddQueue.fire 0 e2.2) = AddQueue.calls AddQueue.init ++ [ids]
     ∧ NoDup ids
     ∧ length (filter (λ x, x = 1000005) ids) = 1%nat).
Proof.
  split.
  - exact (proj1 (proj2 one_entry_per_call_or_id) AddQueue.init 1000005 ltac:(lia)).
  - exact (proj2 (proj2 one_entry_per_call_or_id) AddQueue.init 1000005 0%nat
             AddQueue.reachable_init ltac:(lia)).
Defined.

(** ** Classification of candidate ids *)

Section classification.
Implicit Types (st : Store) (raw : JsValue) (requested : list JsValue).

(** One turn of the loop does what the verdict says. *)
Lemma classify_step_verdict st toAdd rejected raw :
  classify_step st (toAdd, rejected) raw =
  match spec_verdict (addedIds st) raw with
  | Accepted id => (JsSet.add id toAdd, rejected)
  | RejectedAs reason => (toAdd, rejected ++ [rejection_of raw reason])
  end.
Proof.
  unfold classify_step, spec_verdict.
  destruct (Number raw) as [id |] eqn:En; [| done].
  destruct (Z.leb_spec id 0).
  { rewrite decide_True by lia. done. }
  rewrite decide_False by lia.
  destruct (Z.leb_spec 1 id); [| lia].
  destruct (Z.leb_spec id BASE_MAX_ID); cbn [andb].
  { rewrite decide_True by lia. unfold rejection_of. by rewrite En. }
  rewrite decide_False by lia.
  destruct (JsSet.has id (addedIds st)) eqn:Eh.
  - apply has_true in Eh. rewrite decide_True by done.
    unfold rejection_of. by rewrite En.
  - apply has_false in Eh. by rewrite decide_False.
Qed.

Lemma classify_fold st requested toAdd rejected :
  foldl (classify_step st) (toAdd, rejected) requested =
  (foldl (λ s id, JsSet.add id s) toAdd (spec_accepted (addedIds st) requested),
   rejected ++ spec_rejected (addedIds st) requested).
Proof.
  revert toAdd rejected.
  induction requested as [| raw requested IH]; intros toAdd rejected.
  { cbn. by rewrite app_nil_r. }
  cbn [foldl]. rewrite classify_step_verdict.
  unfold spec_accepted, spec_rejected. cbn [omap list_omap].
  destruct (spec_verdict (addedIds st) raw) as [id | reason].
  - rewrite IH. done.
  - rewrite IH. cbn. by rewrite <- app_assoc.
Qed.

Lemma spec_accepted_fresh st requested id :
  id ∈ spec_accepted (addedIds st) requested →
  BASE_MAX_ID < id ∧ id ∉ addedIds st.
Proof.
  unfold spec_accepted. rewrite list_elem_of_omap. intros (raw & _ & Hv).
  unfold spec_verdict in Hv. destruct (Number raw) as [z |]; [| done].
  repeat case_decide; try done. injection Hv as ->. split; [lia | done].
Qed.


Lemma sort_asc_elem (l : list Z) id : id ∈ sort_asc l ↔ id ∈ l.
Proof. unfold sort_asc. by rewrite merge_sort_Permutation. Qed.

Lemma sort_asc_NoDup (l : list Z) : NoDup l → NoDup (sort_asc l).
Proof. unfold sort_asc. by rewrite merge_sort_Permutation. Qed.

Lemma sort_asc_sorted (l : list Z) : StronglySorted Z.le (sort_asc l).
Proof.
  apply StronglySorted_merge_sort; [apply _ |].
  intros x y. lia.
Qed.

Lemma sorted_NoDup_strict (l : list Z) :
  StronglySorted Z.le l → NoDup l → StronglySorted Z.lt l.
Proof.
  induction 1 as [| x l Hs IH Hx]; intros Hnd; [constructor |].
  apply NoDup_cons in Hnd as [Hnx Hnd]. constructor; [auto |].
  rewrite Forall_forall in Hx |- *. intros y Hy.
  specialize (Hx y Hy). assert (x ≠ y) by (intros ->; done). lia.
Qed.

Lemma sort_asc_strict (l : list Z) : NoDup l → StronglySorted Z.lt (sort_asc l).
Proof.
  intros Hnd. apply sorted_NoDup_strict; [apply sort_asc_sorted |].
  by apply sort_asc_NoDup.
Qed.

(** [add_batch] in closed form. *)
Lemma add_batch_eq st requested :
  add_batch st requested =
  let added := sort_asc (JsSet.of_list (spec_accepted (addedIds st) requested)) in
  ((added, spec_rejected (addedIds st) requested), commit_added st added).
Proof. unfold add_batch. by rewrite classify_fold. Qed.

Lemma added_elem st requested id :
  id ∈ (add_batch st requested).1.1 ↔ id ∈ spec_accepted (addedIds st) requested.
Proof. rewrite add_batch_eq. cbn. by rewrite sort_asc_elem, elem_of_of_list. Qed.

Lemma commit_added_ids st requested :
  addedIds (add_batch st requested).2
  = addedIds st ++ (add_batch st requested).1.1.
Proof.
  rewrite add_batch_eq. cbn zeta. cbn [fst snd]. unfold commit_added.
  cbn [addedIds]. apply add_all_fresh.
  - apply sort_asc_NoDup, NoDup_of_list.
  - intros id Hid. rewrite sort_asc_elem, elem_of_of_list in Hid.
    by apply spec_accepted_fresh in Hid as [_ ?].
Qed.

Lemma add_flush_store (s : Batched.Server) :
  Batched.ab_pendingRequests (Batched.addBatcher s) ≠ [] →
  Batched.store (Batched.add_flush s)
  = (add_batch (Batched.store s)
       (Batched.requested_of (Batched.ab_pendingRequests (Batched.addBatcher s)))).2.
Proof.
  intros Hne. unfold Batched.add_flush.
  destruct (Batched.ab_pendingRequests (Batched.addBatcher s)) as [| r rs]; [done |].
  by destruct (add_batch _ _) as [[added rejectedGlobal] st'].
Qed.

End classification.


(** A batch with one candidate for each rule and a repeated accepted id,
    on a store whose overflow set holds 1000009. *)
Example classification_sample :
  add_batch (mkStore [1000009] None [] [])
            [VNum (Int 1000007); VOther "abc" (NonInt 0); VNum (Int 5);
             VNum (Int 1000009); VNum (Int 1000005); VNum (Int 1000007);
             VNum (Int (-3))]
  = (([1000005; 1000007],
      [mkRejection (VOther "abc" (NonInt 0)) REASON_FORMAT;
       mkRejection (VNum (Int 5)) REASON_BASE;
       mkRejection (VNum (Int 1000009)) REASON_ADDED;
       mkRejection (VNum (Int (-3))) REASON_FORMAT]),
     mkStore [1000009; 1000005; 1000007] None [] []).
Proof. vm_compute. reflexivity. Qed.

(** ** The store stays well-formed *)

Section store_invariants.
Implicit Types (st : Store) (l : list Z) (id : Z).

Lemma store_ok_init : store_ok initStore.
Proof.
  unfold store_ok, selection_ok. cbn. split_and!; try done; try apply NoDup_nil_2.
  - intros id Hid. by apply elem_of_nil in Hid.
  - intros id Hid. by apply elem_of_nil in Hid.
Qed.

Lemma selection_ok_mono st st' l :
  (∀ id, id ∈ addedIds st → id ∈ addedIds st') →
  selection_ok st l → selection_ok st' l.
Proof.
  intros Hsub [Hnd Hin]. split; [done |]. intros id Hid.
  destruct (Hin id Hid) as [Hpos [Hb | Ha]]; (split; [done |]).
  - by left.
  - right. by apply Hsub.
Qed.

Lemma add_batch_frame st requested :
  selectedIds (add_batch st requested).2 = selectedIds st
  ∧ selectedLookup (add_batch st requested).2 = selectedLookup st.
Proof. by rewrite add_batch_eq. Qed.

Lemma add_batch_ok st requested :
  store_ok st → store_ok (add_batch st requested).2.
Proof.
  intros (Hnd & Hbase & Hcache & Hlook & Hsel).
  pose proof (commit_added_ids st requested) as Hids.
  destruct (add_batch_frame st requested) as [Hs Hl].
  unfold store_ok. rewrite Hs, Hl, Hids. split_and!.
  - apply NoDup_app. split_and!; [done | |].
    + intros id Hin Hadd. apply added_elem, spec_accepted_fresh in Hadd as [_ ?]. done.
    + rewrite add_batch_eq. cbn. apply sort_asc_NoDup, NoDup_of_list.
  - intros id [Hin | Hin]%elem_of_app; [by apply Hbase |].
    by apply added_elem, spec_accepted_fresh in Hin as [? _].
  - intros cache. rewrite add_batch_eq. cbn zeta. cbn [fst snd].
    unfold commit_added. cbn [addedIdCache].
    case_bool_decide as Hlen; [done |].
    intros Hc. rewrite (Hcache _ Hc).
    destruct (sort_asc (JsSet.of_list _)); [| cbn in Hlen; lia].
    by rewrite app_nil_r.
  - done.
  - eapply selection_ok_mono; [| exact Hsel].
    intros id Hin. rewrite Hids. apply elem_of_app. by left.
Qed.

Lemma add_batch_grows st requested id :
  id ∈ addedIds st → id ∈ addedIds (add_batch st requested).2.
Proof. intros Hin. rewrite commit_added_ids. apply elem_of_app. by left. Qed.

(** *** sanitizeIds *)

Lemma hasId_positive st id :
  0 < id → hasId st (VNum (Int id)) = true ↔ in_id_space st id.
Proof.
  intros Hpos. unfold hasId, in_id_space. cbn.
  destruct (Z.leb_spec id 0); [lia |].
  destruct (Z.leb_spec 1 id); [| lia].
  destruct (Z.leb_spec id BASE_MAX_ID); cbn [andb].
  - split; [intros _; left; lia | done].
  - rewrite has_true. split; [by right | intros [? | ?]; [lia | done]].
Qed.

Lemma sanitize_fold st (raws : list JsValue) (seen acc : list Z) :
  (∀ x, x ∈ seen ↔ x ∈ acc) →
  foldl (sanitize_step st) (acc, acc) raws
  = (acc ++ first_occurrences seen (survivors st raws),
     acc ++ first_occurrences seen (survivors st raws)).
Proof.
  revert seen acc. induction raws as [| raw raws IH]; intros seen acc Hseen.
  { cbn. by rewrite app_nil_r. }
  cbn [foldl]. unfold survivors. cbn [omap list_omap].
  unfold sanitize_step at 2.
  destruct (Number raw) as [id |]; [| by apply IH].
  destruct (Z.leb_spec id 0) as [Hle | Hpos].
  { rewrite decide_False by lia. by apply IH. }
  destruct (hasId st (VNum (Int id))) eqn:Eh; cbn [negb].
  - apply hasId_positive in Eh; [| done].
    rewrite decide_True by done. cbn [first_occurrences].
    destruct (JsSet.has id acc) eqn:Es.
    + apply has_true in Es. rewrite decide_True by (by apply Hseen). by apply IH.
    + apply has_false in Es. rewrite decide_False by (by rewrite Hseen).
      unfold JsSet.add. rewrite (proj2 (has_false id acc)) by done.
      rewrite (IH (id :: seen) (acc ++ [id])).
      * by rewrite <- !app_assoc.
      * intros x. rewrite elem_of_cons, elem_of_app, list_elem_of_singleton, Hseen.
        tauto.
  - rewrite decide_False; [by apply IH |].
    intros [_ Hin]. apply hasId_positive in Hin; [congruence | done].
Qed.

Lemma sanitizeIds_eq st (body : option (list JsValue)) :
  sanitizeIds st body = first_occurrences [] (survivors st (default [] body)).
Proof.
  destruct body as [raws |]; [| done]. cbn.
  by rewrite (sanitize_fold st raws [] []).
Qed.

Lemma first_occurrences_elem seen l x :
  x ∈ first_occurrences seen l ↔ x ∈ l ∧ x ∉ seen.
Proof.
  revert seen. induction l as [| y l IH]; intros seen; cbn [first_occurrences].
  - rewrite !elem_of_nil. tauto.
  - destruct (decide (y ∈ seen)) as [Hy | Hy].
    + rewrite IH, elem_of_cons. split; [tauto |].
      intros [[-> | ?] ?]; [done | tauto].
    + rewrite elem_of_cons, IH, !elem_of_cons. split.
      * intros [-> | [? ?]]; [tauto |]. tauto.
      * intros [[-> | ?] ?]; [tauto |].
        destruct (decide (x = y)); [tauto | right; tauto].
Qed.

Lemma first_occurrences_NoDup seen l : NoDup (first_occurrences seen l).
Proof.
  revert seen. induction l as [| y l IH]; intros seen; cbn [first_occurrences].
  - apply NoDup_nil_2.
  - destruct (decide (y ∈ seen)); [apply IH |].
    apply NoDup_cons. split; [| apply IH].
    rewrite first_occurrences_elem, elem_of_cons. tauto.
Qed.

Lemma survivors_elem st (raws : list JsValue) id :
  id ∈ survivors st raws → 0 < id ∧ in_id_space st id.
Proof.
  unfold survivors. rewrite list_elem_of_omap. intros (raw & _ & Hr).
  destruct (Number raw) as [z |]; [| done].
  case_decide; [| done]. by injection Hr as ->.
Qed.

Lemma sanitizeIds_ok st body : selection_ok st (sanitizeIds st body).
Proof.
  rewrite sanitizeIds_eq. split; [apply first_occurrences_NoDup |].
  intros id [Hin _]%first_occurrences_elem. by eapply survivors_elem.
Qed.

Lemma set_selection_ok st l :
  store_ok st → selection_ok st l →
  store_ok (ensureSelectedLookup
              (mkStore (addedIds st) (addedIdCache st) l (selectedLookup st))).
Proof.
  intros (Hnd & Hbase & Hcache & _ & _) Hl.
  unfold store_ok, ensureSelectedLookup. cbn.
  split_and!; try done. intros id. apply elem_of_of_list.
Qed.

(** *** Queries *)

Lemma getSortedAdded_spec st :
  store_ok st →
  (getSortedAdded st).1 = sort_asc (addedIds st)
  ∧ store_ok (getSortedAdded st).2
  ∧ addedIds (getSortedAdded st).2 = addedIds st
  ∧ selectedIds (getSortedAdded st).2 = selectedIds st
  ∧ selectedLookup (getSortedAdded st).2 = selectedLookup st.
Proof.
  intros Hok. pose proof Hok as (Hnd & Hbase & Hcache & Hlook & Hsel).
  unfold getSortedAdded. destruct (addedIdCache st) as [cache |] eqn:Ec; cbn.
  - split_and!; try done. by apply Hcache.
  - split_and!; try done. unfold store_ok. cbn. split_and!; try done.
    by intros cache [= <-].
Qed.

Lemma buildAvailableResult_store st filter offset limit :
  (buildAvailableResult st filter offset limit).2 = (getSortedAdded st).2.
Proof. unfold buildAvailableResult. by destruct (getSortedAdded st). Qed.

Lemma run_query_ok (results : gmap string QueryResult) st (query : Query) :
  store_ok st →
  store_ok (run_query (results, st) query).2
  ∧ addedIds (run_query (results, st) query).2 = addedIds st
  ∧ selectedIds (run_query (results, st) query).2 = selectedIds st.
Proof.
  intros Hok. unfold run_query. destruct (q_type query); try done.
  pose proof (buildAvailableResult_store st (q_filter query) (q_offset query)
                (q_limit query)) as Hst.
  destruct (buildAvailableResult _ _ _ _) as [r st']. cbn in *. subst st'.
  destruct (getSortedAdded_spec st Hok) as (_ & ? & ? & ? & _). done.
Qed.

Lemma run_queries_ok (f : gmap string QueryResult * Store → Query
                          → gmap string QueryResult * Store)
    (queries : list Query) (results : gmap string QueryResult) st :
  (∀ acc q, f acc q = acc ∨ f acc q = run_query acc q) →
  store_ok st →
  store_ok (foldl f (results, st) queries).2
  ∧ addedIds (foldl f (results, st) queries).2 = addedIds st
  ∧ selectedIds (foldl f (results, st) queries).2 = selectedIds st.
Proof.
  intros Hf. revert results st.
  induction queries as [| q queries IH]; intros results st Hok; [done |].
  cbn [foldl]. destruct (Hf (results, st) q) as [-> | ->]; [by apply IH |].
  destruct (run_query_ok results st q Hok) as (Hok' & Ha & Hs).
  destruct (run_query (results, st) q) as [results' st']. cbn in *.
  destruct (IH results' st' Hok') as (? & ? & ?).
  split_and!; [done | congruence | congruence].
Qed.

End store_invariants.

Section reachable_stores.

Lemma Direct_handle_ok (st : Store) (r : Direct.Request) :
  store_ok st → store_ok (Direct.handle st r).2.
Proof.
  intros Hok. destruct r as [ids | body | queries]; cbn [Direct.handle].
  - unfold Direct.post_items_batch.
    pose proof (add_batch_ok st (default [] ids) Hok) as H.
    by destruct (add_batch _ _) as [[? ?] ?].
  - unfold Direct.post_selection. cbn.
    apply set_selection_ok; [done | apply sanitizeIds_ok].
  - unfold Direct.post_query.
    match goal with |- context [foldl ?f (∅, st) queries] =>
      pose proof (run_queries_ok f queries ∅ st) as H end.
    destruct H as (H & _ & _); [| done |].
    { intros acc q. case_bool_decide; [by left | by right]. }
    by destruct (foldl _ _ _).
Qed.

Lemma Direct_run_ok (st : Store) (rs : list Direct.Request) :
  store_ok st → store_ok (Direct.run st rs).
Proof.
  unfold Direct.run. revert st.
  induction rs as [| r rs IH]; intros st Hok; [done |].
  cbn [foldl]. by apply IH, Direct_handle_ok.
Qed.

Lemma Batched_ok (s : Batched.Server) : Batched.reachable s → server_ok s.
Proof.
  induction 1 as [| s s' _ [Hok Hlatest] Hstep].
  { split; [apply store_ok_init | done]. }
  destruct Hstep as [s ids | s body | s queries | s t Ht | s t Ht | s t Ht].
  - unfold Batched.post_items_batch. rewrite add_enqueue_eq. by split.
  - unfold Batched.post_selection. rewrite selection_enqueue_eq.
    split; [done |]. cbn. intros latest [= <-]. apply sanitizeIds_ok.
  - unfold Batched.post_query, Batched.query_enqueue. cbn [newPromise].
    by destruct (Batched.qb_timer _).
  - unfold Batched.fire_query, Batched.query_flush. cbn.
    destruct (Batched.qb_pending (Batched.queryBatcher s)) as [| item pend];
      [by split |].
    match goal with |- context [foldl run_query (∅, ?st) ?qs] =>
      pose proof (run_queries_ok run_query qs ∅ st) as H end.
    destruct H as (H & Ha & _); [by right | done |].
    destruct (foldl run_query _ _) as [results st']. cbn in *.
    split; [done |]. intros latest Hl.
    cbn [Batched.store Batched.selectionBatcher] in Hl |- *.
    eapply selection_ok_mono; [| by apply Hlatest]. intros id. by rewrite Ha.
  - unfold Batched.fire_selection, Batched.selection_flush. cbn.
    destruct (Batched.sb_latest (Batched.selectionBatcher s)) as [latest |] eqn:El;
      cbn; [| by split].
    split; [| done]. apply set_selection_ok; [done | by apply Hlatest].
  - unfold Batched.fire_add, Batched.add_flush. cbn.
    destruct (Batched.ab_pendingRequests (Batched.addBatcher s)) as [| req pend];
      [by split |].
    match goal with |- context [add_batch ?st ?rq] =>
      pose proof (add_batch_ok st rq Hok) as H;
      pose proof (add_batch_grows st rq) as Hg end.
    destruct (add_batch _ _) as [[added rejectedGlobal] st']. cbn in *.
    split; [done |]. intros latest Hl.
    cbn [Batched.store Batched.selectionBatcher] in Hl |- *.
    eapply selection_ok_mono; [exact Hg | by apply Hlatest].
Qed.

Lemma store_reachable_ok (st : Store) : store_reachable st → store_ok st.
Proof.
  intros [rs | s Hs].
  - apply Direct_run_ok, store_ok_init.
  - by apply Batched_ok.
Qed.

End reachable_stores.



(** ** Replacing the selection *)


Example sanitizeIds_sample :
  sanitizeIds (mkStore [1000009] None [] [])
              (Some [VNum (Int 3); VOther "7" (Int 7); VNum (Int 3); VNum (Int (-1));
                     VNum (NonInt 0); VNum (Int 1000001); VNum (Int 1000009);
                     VOther "x" (NonInt 1); VNum (Int 2); VNum (Int 7)])
  = [3; 7; 1000009; 2].
Proof. vm_compute. reflexivity. Qed.



(** ** The available page *)

Section available.
Implicit Types (st : Store) (l done : list Z) (id : Z).

Lemma for_ids_foldl {A} (n : Z) (body : A → Z → A) (a : A) :
  0 ≤ n → for_ids n body a = foldl body a (seqZ 1 n).
Proof.
  intros Hn. unfold for_ids. rewrite iter_nat_of_Z by done.
  rewrite <- (Z2Nat.id n) at 2 by done.
  rewrite Zabs2Nat.abs_nat_nonneg by done.
  generalize (Z.to_nat n) as k. intros k.
  assert (H : nat_rect (λ _, (Z * A)%type) (1, a)
                (λ _ s, (s.1 + 1, body s.2 s.1)) k
              = (1 + Z.of_nat k, foldl body a (seqZ 1 (Z.of_nat k)))).
  { induction k as [| k IH]; [done |].
    cbn [nat_rect]. rewrite IH. cbn [fst snd].
    rewrite seqZ_S, foldl_snoc. f_equal. lia. }
  by rewrite H.
Qed.

Lemma push_page_spec (O L : Z) done id :
  push_page O L (take (Z.to_nat L) (drop (Z.to_nat O) done), length done) id
  = (take (Z.to_nat L) (drop (Z.to_nat O) (done ++ [id])), length (done ++ [id])).
Proof.
  unfold push_page. rewrite length_app. cbn [length].
  f_equal; [| lia].
  set (o := Z.to_nat O). set (k := Z.to_nat L).
  destruct (Z.leb_spec O (Z.of_nat (length done))) as [Hle | Hgt]; cbn [andb].
  - assert (o ≤ length done)%nat by lia.
    rewrite drop_app_le by done.
    set (A := drop o done).
    destruct (Z.ltb_spec (Z.of_nat (length (take k A))) L) as [Hlt | Hge].
    + rewrite length_take in Hlt.
      assert (length A < k)%nat by lia.
      rewrite (take_ge A) by lia. rewrite take_ge; [done |].
      rewrite length_app. cbn. lia.
    + rewrite length_take in Hge.
      assert (k ≤ length A)%nat by lia.
      by rewrite take_app_le.
  - assert (length done < o)%nat by lia.
    rewrite !drop_ge; [done | rewrite length_app; cbn; lia | lia].
Qed.

Lemma consider_fold (lookup : list Z) (nf : string) (O L : Z) l done :
  foldl (consider lookup nf O L)
        (take (Z.to_nat L) (drop (Z.to_nat O) done), length done) l
  = let all := done ++ filter (λ id, (id ∉ lookup) ∧ matchesFilter nf id = true) l in
    (take (Z.to_nat L) (drop (Z.to_nat O) all), length all).
Proof.
  cbn zeta. revert done. induction l as [| id l IH]; intros done.
  { cbn. by rewrite app_nil_r. }
  cbn [foldl]. unfold consider at 2.
  destruct (JsSet.has id lookup) eqn:Eh.
  { apply has_true in Eh. rewrite filter_cons_False by (intros [? _]; done). apply IH. }
  apply has_false in Eh.
  destruct (matchesFilter nf id) eqn:Em; cbn [negb].
  - rewrite filter_cons_True by (split; [exact Eh | exact Em]).
    rewrite push_page_spec, IH.
    by rewrite <- app_assoc.
  - rewrite filter_cons_False by (intros [_ ?]; congruence). apply IH.
Qed.

Lemma consider_fold_all (lookup : list Z) (nf : string) (O L : Z) l :
  foldl (consider lookup nf O L) ([], 0%nat) l
  = let all := filter (λ id, (id ∉ lookup) ∧ matchesFilter nf id = true) l in
    (take (Z.to_nat L) (drop (Z.to_nat O) all), length all).
Proof.
  pose proof (consider_fold lookup nf O L l []) as H.
  rewrite drop_nil, take_nil in H. exact H.
Qed.

(** The available ids in the order the scan meets them. *)
Lemma buildAvailableResult_eq st flt offset limit :
  store_ok st →
  let matching :=
    filter (λ id, (id ∉ selectedIds st)
                  ∧ matchesFilter (getNormalizedFilter flt) id = true)
           (seqZ 1 BASE_MAX_ID ++ sort_asc (addedIds st)) in
  (buildAvailableResult st flt offset limit).1
  = mkResult (take (Z.to_nat (clampLimit limit))
                   (drop (Z.to_nat (clampOffset offset)) matching))
             (length matching).
Proof.
  intros Hok. cbn zeta. unfold buildAvailableResult.
  destruct (getSortedAdded_spec st Hok) as (Hsorted & _).
  destruct (getSortedAdded st) as [sortedAdded st']. cbn [fst] in Hsorted. subst.
  cbn [fst].
  rewrite for_ids_foldl by done. rewrite <- foldl_app.
  rewrite consider_fold_all. cbn zeta. cbn [fst snd].
  destruct Hok as (_ & _ & _ & Hlook & _).
  f_equal; repeat f_equal;
    apply list_filter_iff; intros id; by rewrite Hlook.
Qed.

End available.

(** C10: in every reachable store, whatever the filter, offset and limit,
    the available-items query lists only ids that are not selected; its
    total is the number of ids of the identifier space (base range and
    overflow set) that are unselected and match the filter, and its items
    are the page of those ids that the offset and the limit cut out. *)
Theorem available_excludes_selected (st : Store) (flt : option string)
    (offset limit : JsArg) :
  store_reachable st →
  let r := (buildAvailableResult st flt offset limit).1 in
  let matching :=
    filter (λ id, (id ∉ selectedIds st)
                  ∧ matchesFilter (getNormalizedFilter flt) id = true)
           (seqZ 1 BASE_MAX_ID ++ sort_asc (addedIds st)) in
  (∀ id, id ∈ items r → id ∉ selectedIds st)
  ∧ NoDup matching
  ∧ (∀ id, id ∈ matching ↔
           in_id_space st id ∧ (id ∉ selectedIds st)
           ∧ matchesFilter (getNormalizedFilter flt) id = true)
  ∧ total r = length matching
  ∧ items r = take (Z.to_nat (clampLimit limit))
                   (drop (Z.to_nat (clampOffset offset)) matching).
Proof.
  intros Hst. cbn zeta. pose proof (store_reachable_ok st Hst) as Hok.
  rewrite (buildAvailableResult_eq st flt offset limit Hok). cbn [items total].
  destruct Hok as (Hnd & Hbase & _).
  split_and!; [| | | done | done].
  - intros id Hin. apply subseteq_take, subseteq_drop in Hin.
    by apply list_elem_of_filter in Hin as [[? _] _].
  - apply NoDup_filter, NoDup_app. split_and!.
    + apply NoDup_seqZ.
    + intros id Hb Ha. apply elem_of_seqZ in Hb. apply sort_asc_elem, Hbase in Ha. lia.
    + by apply sort_asc_NoDup.
  - intros id. rewrite list_elem_of_filter, elem_of_app, elem_of_seqZ, sort_asc_elem.
    unfold in_id_space. split.
    + intros [[? ?] [? | ?]]; (split_and!; [| done | done]); [left; lia | by right].
    + intros ([? | ?] & ? & ?); (split; [done |]); [left; lia | by right].
Qed.

Lemma available_excludes_selected_witness :
  let st := Direct.run initStore
              [Direct.PostItemsBatch (Some [VNum (Int 1000005)]);
               Direct.PostSelection (Some [VNum (Int 12); VNum (Int 1000005)])] in
  let flt := Some " 12 " in
  let r := (buildAvailableResult st flt None (Some (5 # 2))).1 in
  let matching :=
    filter (λ id, (id ∉ selectedIds st)
                  ∧ matchesFilter (getNormalizedFilter flt) id = true)
           (seqZ 1 BASE_MAX_ID ++ sort_asc (addedIds st)) in
  (∀ id, id ∈ items r → id ∉ selectedIds st)
  ∧ NoDup matching
  ∧ (∀ id, id ∈ matching ↔
           in_id_space st id ∧ (id ∉ selectedIds st)
           ∧ matchesFilter (getNormalizedFilter flt) id = true)
  ∧ total r = length matching
  ∧ items r = take (Z.to_nat (clampLimit (Some (5 # 2))))
                   (drop (Z.to_nat (clampOffset None)) matching).
Proof.
  intros st flt.
  exact (available_excludes_selected st flt None (Some (5 # 2)) (store_direct _)).
Defined.

(** ** What each caller of the add batcher is told *)

Lemma fire_add_resolves (s : Batched.Server) (t : nat) (req : Batched.PendingAdd) :
  Batched.reachable s →
  req ∈ Batched.ab_pendingRequests (Batched.addBatcher s) →
  let batch := add_batch (Batched.store s)
                 (Batched.requested_of (Batched.ab_pendingRequests (Batched.addBatcher s))) in
  settled (Batched.promises (Batched.fire_add t s)) !! Batched.pa_resolve req
  = Some (Resolved (RespAdd (Batched.addedForRequest batch.1.1 req)
                            (Batched.rejectedForRequest batch.1.2 req))).
Proof.
  intros Hs Hreq. cbn zeta.
  pose proof (Batched_ledger s Hs) as HL. unfold Batched_live in HL.
  unfold Batched.fire_add, Batched.add_flush.
  cbn [Batched.addBatcher Batched.ab_pendingRequests Batched.store Batched.promises].
  destruct (Batched.ab_pendingRequests (Batched.addBatcher s)) as [| r0 pend] eqn:Ep.
  { by apply elem_of_nil in Hreq. }
  rewrite <- Ep in *.
  destruct (add_batch _ _) as [[added rejectedGlobal] st']. cbn [fst snd Batched.promises].
  rewrite Ep at 1.
  change (foldl ?f (Batched.promises s) (r0 :: pend))
    with (foldl f (f (Batched.promises s) r0) pend). cbn beta.
  rewrite (foldl_settle_one Batched.pa_resolve
             (λ rq, Resolved (RespAdd (Batched.addedForRequest added rq)
                                      (Batched.rejectedForRequest rejectedGlobal rq)))
             pend).
  change (settle_each ?g (settle ?w ?o ?P)) with (settle_each (([w], o) :: g) P).
  set (h := λ rq, Resolved (RespAdd (Batched.addedForRequest added rq)
                                    (Batched.rejectedForRequest rejectedGlobal rq))).
  change (([Batched.pa_resolve r0], _) :: map _ pend)
    with (map (λ e, ([Batched.pa_resolve e], h e)) (r0 :: pend)).
  rewrite <- Ep.
  assert (Hperm : map Batched.pq_resolve (Batched.qb_pending (Batched.queryBatcher s))
                  ++ Batched.sb_resolvers (Batched.selectionBatcher s)
                  ++ map Batched.pa_resolve (Batched.ab_pendingRequests (Batched.addBatcher s))
                  ≡ₚ map Batched.pa_resolve (Batched.ab_pendingRequests (Batched.addBatcher s))
                     ++ (map Batched.pq_resolve (Batched.qb_pending (Batched.queryBatcher s))
                         ++ Batched.sb_resolvers (Batched.selectionBatcher s))).
  { rewrite app_assoc. apply Permutation_app_comm. }
  assert (Hin : Batched.pa_resolve req
                ∈ map Batched.pa_resolve (Batched.ab_pendingRequests (Batched.addBatcher s))).
  { apply list_elem_of_fmap. by exists req. }
  destruct (ledger_captured _ _ _ _ _ HL Hperm Hin) as [Hnd Hun].
  apply (settle_each_lookup _ _ _ [Batched.pa_resolve req] (h req)).
  - apply list_elem_of_fmap. by exists req.
  - left.
  - by rewrite singles_concat.
  - done.
Qed.

Lemma has_idSet (v : JsValue) (ids : list JsValue) :
  JsSet.has v (JsSet.of_list ids) = true ↔ v ∈ ids.
Proof. by rewrite has_true, elem_of_of_list. Qed.

(** Every pending request carries the set of its own ids. *)
Lemma Batched_idSet (s : Batched.Server) (req : Batched.PendingAdd) :
  Batched.reachable s →
  req ∈ Batched.ab_pendingRequests (Batched.addBatcher s) →
  Batched.pa_idSet req = JsSet.of_list (Batched.pa_ids req).
Proof.
  induction 1 as [| s s' _ IH Hstep]; [by intros ?%elem_of_nil |].
  destruct Hstep as [s ids | s body | s queries | s t Ht | s t Ht | s t Ht].
  - unfold Batched.post_items_batch. rewrite add_enqueue_eq. cbn.
    intros [Hin | ->%list_elem_of_singleton]%elem_of_app; [by apply IH | done].
  - unfold Batched.post_selection. rewrite selection_enqueue_eq. exact IH.
  - unfold Batched.post_query, Batched.query_enqueue. cbn [newPromise].
    by destruct (Batched.qb_timer _).
  - unfold Batched.fire_query, Batched.query_flush. cbn.
    destruct (Batched.qb_pending _); [exact IH |].
    by destruct (foldl run_query _ _).
  - unfold Batched.fire_selection, Batched.selection_flush. cbn.
    by destruct (Batched.sb_latest _).
  - unfold Batched.fire_add, Batched.add_flush. cbn.
    destruct (Batched.ab_pendingRequests _); [by intros ?%elem_of_nil |].
    destruct (add_batch _ _) as [[? ?] ?]. by intros ?%elem_of_nil.
Qed.

(** Ids 5 and 7 lie in the base range: two callers submitting 5, 7 and 5
    into an untouched server are both told that nothing was accepted, each
    with the base-set rejections of its ids, and the overflow set stays
    empty. *)
Lemma base_ids_are_not_accepted :
  let s1 := (Batched.post_items_batch Batched.initServer
               (Some [VNum (Int 5); VNum (Int 7)])).2 in
  let s2 := (Batched.post_items_batch s1 (Some [VNum (Int 5)])).2 in
  let s3 := Batched.fire_add 0 s2 in
  let base := λ id, mkRejection (VNum (Int id)) REASON_BASE in
  1 ≤ 5 ≤ BASE_MAX_ID ∧ 1 ≤ 7 ≤ BASE_MAX_ID
  ∧ settled (Batched.promises s3) !! 0%nat
    = Some (Resolved (RespAdd [] [base 5; base 7; base 5]))
  ∧ settled (Batched.promises s3) !! 1%nat
    = Some (Resolved (RespAdd [] [base 5; base 5]))
  ∧ addedIds (Batched.store s3) = [].
Proof. vm_compute. split_and!; try reflexivity; discriminate. Qed.

Lemma rejection_of_number (n : JsNum) (reason : string) :
  rejection_of (VNum n) reason = mkRejection (VNum n) reason.
Proof. unfold rejection_of. by case_decide. Qed.

(** The outcome of a candidate is in the batch result. *)
Lemma candidate_outcome (st : Store) (requested : list JsValue) (n : JsNum) :
  VNum n ∈ requested →
  (∃ id, n = Int id ∧ id ∈ (add_batch st requested).1.1)
  ∨ (∃ reason, mkRejection (VNum n) reason ∈ (add_batch st requested).1.2).
Proof.
  intros Hin.
  destruct (spec_verdict (addedIds st) (VNum n)) as [id | reason] eqn:Ev.
  - left. exists id. split.
    + unfold spec_verdict in Ev. cbn in Ev. destruct n as [z |]; [| done].
      repeat case_decide; try done. by injection Ev as ->.
    + apply added_elem. unfold spec_accepted. apply list_elem_of_omap.
      exists (VNum n). by rewrite Ev.
  - right. exists reason. rewrite add_batch_eq. cbn [fst snd].
    unfold spec_rejected. apply list_elem_of_omap.
    exists (VNum n). by rewrite Ev, rejection_of_number.
Qed.

(** Ids submitted as numbers.  At a flush of the add batcher each caller is
    resolved with the accepted ids of the batch that occur, as numbers, in
    its own list (each once) and with the rejection records of the batch
    whose id, as a number, occurs in its own list; every number the caller
    submitted has its outcome there; the accepted ids are appended to the
    overflow set once.  In particular two callers submitting 1000005,
    1000007 and 1000005, ids outside the base range and not added before,
    are told [1000005, 1000007] and [1000005], and the overflow set becomes
    [1000005, 1000007].  In the client's [AddQueue] every caller of an id is
    resolved with the payload of that id, whose success flag says whether
    the dispatcher reported the id as added. *)
Theorem per_caller_slices :
  (∀ (s : Batched.Server) (t : nat) (req : Batched.PendingAdd),
     Batched.reachable s →
     t ∈ scheduled (Batched.ab_clock (Batched.addBatcher s)) →
     req ∈ Batched.ab_pendingRequests (Batched.addBatcher s) →
     let batch := add_batch (Batched.store s)
                    (Batched.requested_of
                       (Batched.ab_pendingRequests (Batched.addBatcher s))) in
     let s' := Batched.fire_add t s in
     ∃ accepted rejected,
       settled (Batched.promises s') !! Batched.pa_resolve req
       = Some (Resolved (RespAdd accepted rejected))
       ∧ (∀ id, id ∈ accepted ↔ id ∈ batch.1.1 ∧ VNum (Int id) ∈ Batched.pa_ids req)
       ∧ NoDup accepted
       ∧ (∀ r, r ∈ rejected ↔
               r ∈ batch.1.2 ∧ VNum (Number (rej_id r)) ∈ Batched.pa_ids req)
       ∧ (∀ n, VNum n ∈ Batched.pa_ids req →
               (∃ id, n = Int id ∧ id ∈ accepted)
               ∨ (∃ reason, mkRejection (VNum n) reason ∈ rejected))
       ∧ addedIds (Batched.store s') = addedIds (Batched.store s) ++ batch.1.1)
  ∧ (let s1 := (Batched.post_items_batch Batched.initServer
                  (Some [VNum (Int 1000005); VNum (Int 1000007)])).2 in
     let s2 := (Batched.post_items_batch s1 (Some [VNum (Int 1000005)])).2 in
     let s3 := Batched.fire_add 0 s2 in
     settled (Batched.promises s3) !! 0%nat
     = Some (Resolved (RespAdd [1000005; 1000007] []))
     ∧ settled (Batched.promises s3) !! 1%nat = Some (Resolved (RespAdd [1000005] []))
     ∧ addedIds (Batched.store s3) = [1000005; 1000007])
  ∧ (∀ (w : AddQueue.World) (i : nat) entries response (id : Z) ws (p : nat),
       AddQueue.reachable w →
       AddQueue.inflight w !! i = Some entries →
       (id, ws) ∈ entries → p ∈ ws →
       let payload := AddQueue.payload_for response id in
       settled (AddQueue.promises (AddQueue.complete i (inr response) w)) !! p
       = Some (Resolved payload)
       ∧ AddQueue.aq_id payload = id
       ∧ (AddQueue.aq_success payload = true ↔ Int id ∈ AddQueue.added response)).
Proof.
  split_and!; [| vm_compute; split_and!; reflexivity |]; cycle 1.
  { intros w i entries response id ws p Hw Hi He Hp. cbn zeta.
    rewrite (AddQueue_complete_lookup w i entries (inr response) id ws p Hw Hi He Hp).
    split_and!; [done | |].
    - unfold AddQueue.payload_for. by destruct (JsSet.has _ _).
    - unfold AddQueue.payload_for.
      destruct (JsSet.has _ _) eqn:Eh; cbn.
      + apply has_true in Eh. rewrite elem_of_of_list in Eh. by split.
      + apply has_false in Eh. rewrite elem_of_of_list in Eh. by split. }
  intros s t req Hs Ht Hreq. cbn zeta.
  pose proof (fire_add_resolves s t req Hs Hreq) as Hres. cbn zeta in Hres.
  pose proof (Batched_idSet s req Hs Hreq) as Hset.
  set (requested := Batched.requested_of _) in *.
  assert (Hsub : ∀ raw, raw ∈ Batched.pa_ids req → raw ∈ requested).
  { intros raw Hraw. apply elem_of_concat. exists (Batched.pa_ids req).
    split; [| done]. apply list_elem_of_fmap. by exists req. }
  eexists _, _. split; [exact Hres |].
  unfold Batched.addedForRequest, Batched.rejectedForRequest. rewrite Hset.
  split_and!.
  - intros id. by rewrite list_elem_of_filter, has_idSet, (comm and).
  - apply NoDup_filter. rewrite add_batch_eq. cbn [fst snd].
    apply sort_asc_NoDup, NoDup_of_list.
  - intros r. by rewrite list_elem_of_filter, has_idSet, (comm and).
  - intros n Hn.
    destruct (candidate_outcome (Batched.store s) requested n (Hsub _ Hn))
      as [(id & -> & Hid) | (reason & Hr)].
    + left. exists id. split; [done |].
      apply list_elem_of_filter. by rewrite has_idSet.
    + right. exists reason. apply list_elem_of_filter. by rewrite has_idSet.
  - unfold Batched.fire_add.
    rewrite add_flush_store.
    + cbn [Batched.store Batched.addBatcher Batched.ab_pendingRequests].
      apply commit_added_ids.
    + cbn [Batched.addBatcher Batched.ab_pendingRequests].
      intros Hnil. rewrite Hnil in Hreq. by apply elem_of_nil in Hreq.
Qed.

Lemma per_caller_slices_witness :
  let s1 := (Batched.post_items_batch Batched.initServer
               (Some [VNum (Int 1000005); VNum (Int 5)])).2 in
  let s2 := (Batched.post_items_batch s1 (Some [VNum (Int 1000005)])).2 in
  let req := Batched.mkPendingAdd [VNum (Int 1000005)] [VNum (Int 1000005)] 1 in
  let batch := add_batch (Batched.store s2)
                 (Batched.requested_of
                    (Batched.ab_pendingRequests (Batched.addBatcher s2))) in
  ∃ accepted rejected,
    settled (Batched.promises (Batched.fire_add 0 s2)) !! Batched.pa_resolve req
    = Some (Resolved (RespAdd accepted rejected))
    ∧ (∀ id, id ∈ accepted ↔ id ∈ batch.1.1 ∧ VNum (Int id) ∈ Batched.pa_ids req)
    ∧ NoDup accepted
    ∧ (∀ r, r ∈ rejected ↔
            r ∈ batch.1.2 ∧ VNum (Number (rej_id r)) ∈ Batched.pa_ids req)
    ∧ (∀ n, VNum n ∈ Batched.pa_ids req →
            (∃ id, n = Int id ∧ id ∈ accepted)
            ∨ (∃ reason, mkRejection (VNum n) reason ∈ rejected))
    ∧ addedIds (Batched.store (Batched.fire_add 0 s2))
      = addedIds (Batched.store s2) ++ batch.1.1.
Proof.
  intros s1 s2 req batch.
  refine (proj1 per_caller_slices s2 0%nat req _ _ _).
  - refine (Batched.reachable_step s1 s2 _ (Batched.step_items_batch s1 _)).
    exact (Batched.reachable_step _ s1 Batched.reachable_init
             (Batched.step_items_batch _ _)).
  - vm_compute. left.
  - vm_compute. right. left.
Defined.

(** ** Ids submitted in another form than numbers *)

(** C3: a caller of the add batcher that submits its ids in another form
    than numbers (strings, as the body of a request may hold them) is told
    nothing about them.  The flush classifies the ids by their numeric
    value and accepts them into the overflow set or rejects them, but each
    caller's slices are filtered by [idSet.has] on numbers while [idSet]
    holds the raw values, so both slices are empty (first conjunct).  For
    the body [{ids: ["1000005", "7"]}] on an untouched server the overflow
    set becomes [1000005] and the caller is resolved with no accepted id
    and no rejection, where the server without batching answers the same
    body with 1000005 accepted and 7 rejected as an id of the base set
    (second conjunct). *)
Theorem string_ids_get_no_outcome :
  (∀ (s : Batched.Server) (t : nat) (req : Batched.PendingAdd),
     Batched.reachable s →
     req ∈ Batched.ab_pendingRequests (Batched.addBatcher s) →
     (∀ n, VNum n ∉ Batched.pa_ids req) →
     settled (Batched.promises (Batched.fire_add t s)) !! Batched.pa_resolve req
     = Some (Resolved (RespAdd [] [])))
  ∧ (let body := Some [VOther "1000005" (Int 1000005); VOther "7" (Int 7)] in
     let e := Batched.post_items_batch Batched.initServer body in
     let s' := Batched.fire_add 0 e.2 in
     settled (Batched.promises s') !! e.1 = Some (Resolved (RespAdd [] []))
     ∧ addedIds (Batched.store s') = [1000005]
     ∧ (Direct.post_items_batch initStore body).1
       = RespAdd [1000005] [mkRejection (VNum (Int 7)) REASON_BASE]
     ∧ addedIds (Direct.post_items_batch initStore body).2 = [1000005]).
Proof.
  split; [| vm_compute; split_and!; reflexivity].
  intros s t req Hs Hreq Hraw.
  rewrite (fire_add_resolves s t req Hs Hreq). cbn zeta.
  unfold Batched.addedForRequest, Batched.rejectedForRequest.
  rewrite (Batched_idSet s req Hs Hreq).
  rewrite !filter_none; [done | |]; apply Forall_forall.
  - intros r _. rewrite has_idSet. apply Hraw.
  - intros id _. rewrite has_idSet. apply Hraw.
Qed.

Lemma string_ids_get_no_outcome_witness :
  let body := Some [VOther "1000005" (Int 1000005); VOther "7" (Int 7)] in
  let e := Batched.post_items_batch Batched.initServer body in
  let req := Batched.mkPendingAdd (default [] body) (default [] body) e.1 in
  settled (Batched.promises (Batched.fire_add 0 e.2)) !! Batched.pa_resolve req
  = Some (Resolved (RespAdd [] [])).
Proof.
  intros body e req.
  refine (proj1 string_ids_get_no_outcome e.2 0%nat req _ _ _).
  - exact (Batched.reachable_step _ _ Batched.reachable_init
             (Batched.step_items_batch _ body)).
  - vm_compute. left.
  - intros n Hin. vm_compute in Hin.
    repeat (apply elem_of_cons in Hin as [Hin | Hin]; [discriminate Hin |]).
    by apply elem_of_nil in Hin.
Defined.

(** ** Re-submission of an accepted id, at the queue *)

(** C7: once an id is in the overflow set, any later candidate that stands
    for it is rejected as already added by the classification loop, is not
    accepted again, and the overflow set keeps the id exactly once; this
    holds in every store the unbatched or the batching server can reach
    (first conjunct).  A caller of the add batcher that submits the id again
    is resolved with that rejection and without the id among its accepted
    ids (second conjunct). *)
Theorem resubmission_rejected :
  (∀ (st : Store) (id : Z) (requested : list JsValue) (raw : JsValue),
     store_reachable st →
     id ∈ addedIds st →
     raw ∈ requested →
     Number raw = Int id →
     let added := (add_batch st requested).1.1 in
     let rejected := (add_batch st requested).1.2 in
     let st' := (add_batch st requested).2 in
     spec_verdict (addedIds st) raw = RejectedAs REASON_ADDED
     ∧ mkRejection (VNum (Int id)) REASON_ADDED ∈ rejected
     ∧ (id ∉ added)
     ∧ id ∈ addedIds st'
     ∧ NoDup (addedIds st'))
  ∧ (∀ (s : Batched.Server) (t : nat) (req : Batched.PendingAdd) (id : Z),
       Batched.reachable s →
       t ∈ scheduled (Batched.ab_clock (Batched.addBatcher s)) →
       req ∈ Batched.ab_pendingRequests (Batched.addBatcher s) →
       VNum (Int id) ∈ Batched.pa_ids req →
       id ∈ addedIds (Batched.store s) →
       ∃ accepted rejected,
         settled (Batched.promises (Batched.fire_add t s)) !! Batched.pa_resolve req
         = Some (Resolved (RespAdd accepted rejected))
         ∧ mkRejection (VNum (Int id)) REASON_ADDED ∈ rejected
         ∧ (id ∉ accepted)
         ∧ NoDup (addedIds (Batched.store (Batched.fire_add t s)))).
Proof.
  assert (Hclass : ∀ (st : Store) (id : Z) (requested : list JsValue) (raw : JsValue),
     store_ok st → id ∈ addedIds st → raw ∈ requested → Number raw = Int id →
     spec_verdict (addedIds st) raw = RejectedAs REASON_ADDED
     ∧ mkRejection (VNum (Int id)) REASON_ADDED ∈ (add_batch st requested).1.2
     ∧ (id ∉ (add_batch st requested).1.1)).
  { intros st id requested raw (Hnd & Hbase & _) Hid Hraw Hnum.
    assert (Hv : spec_verdict (addedIds st) raw = RejectedAs REASON_ADDED).
    { unfold spec_verdict. rewrite Hnum. specialize (Hbase id Hid).
      rewrite decide_False by (unfold BASE_MAX_ID in *; lia).
      rewrite decide_False by lia. by rewrite decide_True. }
    split_and!; [done | |].
    - rewrite add_batch_eq. cbn [fst snd]. unfold spec_rejected.
      apply list_elem_of_omap.
      exists raw. split; [done |]. rewrite Hv. unfold rejection_of.
      rewrite decide_False by done. by rewrite Hnum.
    - rewrite added_elem. intros [_ ?]%spec_accepted_fresh. done. }
  split.
  - intros st id requested raw Hst Hid Hraw Hnum. cbn zeta.
    pose proof (store_reachable_ok st Hst) as Hok.
    destruct (Hclass st id requested raw Hok Hid Hraw Hnum) as (? & ? & ?).
    split_and!; [done | done | done | by apply add_batch_grows |].
    by destruct (add_batch_ok st requested Hok) as (? & _).
  - intros s t req id Hs Ht Hreq Hraw Hid.
    pose proof (fire_add_resolves s t req Hs Hreq) as Hres. cbn zeta in Hres.
    pose proof (Batched_idSet s req Hs Hreq) as Hset.
    destruct (Batched_ok s Hs) as [Hok _].
    set (requested := Batched.requested_of _) in *.
    assert (Hin : VNum (Int id) ∈ requested).
    { apply elem_of_concat. exists (Batched.pa_ids req).
      split; [| done]. apply list_elem_of_fmap. by exists req. }
    destruct (Hclass (Batched.store s) id requested (VNum (Int id)) Hok Hid Hin eq_refl)
      as (_ & Hrej & Hacc).
    eexists _, _. split; [exact Hres |].
    unfold Batched.addedForRequest, Batched.rejectedForRequest. rewrite Hset.
    split_and!.
    + apply list_elem_of_filter. split; [| done]. by apply has_idSet.
    + intros [_ ?]%list_elem_of_filter. done.
    + assert (Hstep : Batched.reachable (Batched.fire_add t s))
        by (eapply Batched.reachable_step; [exact Hs | by constructor]).
      by destruct (Batched_ok _ Hstep) as [(? & _) _].
Qed.

Lemma resubmission_rejected_witness :
  let st := Direct.run initStore [Direct.PostItemsBatch (Some [VNum (Int 1000005)])] in
  let requested := [VNum (Int 1000007); VOther "1000005" (Int 1000005)] in
  spec_verdict (addedIds st) (VOther "1000005" (Int 1000005)) = RejectedAs REASON_ADDED
  ∧ mkRejection (VNum (Int 1000005)) REASON_ADDED ∈ (add_batch st requested).1.2
  ∧ (1000005 ∉ (add_batch st requested).1.1)
  ∧ 1000005 ∈ addedIds (add_batch st requested).2
  ∧ NoDup (addedIds (add_batch st requested).2).
Proof.
  intros st requested.
  apply (proj1 resubmission_rejected st 1000005 requested
           (VOther "1000005" (Int 1000005))).
  - exact (store_direct [Direct.PostItemsBatch (Some [VNum (Int 1000005)])]).
  - vm_compute. left.
  - right. left.
  - reflexivity.
Defined.

(* ===================================================================== *)
(** * Part III: further properties of the code *)

(** ** Pages of the two query builders *)

Section pages.
Implicit Types (st : Store) (flt : option string) (offset limit : JsArg).

Lemma clampOffset_nonneg offset : 0 ≤ clampOffset offset.
Proof.
  destruct offset as [q |]; cbn; [| done].
  destruct (Qle_bool 0 q) eqn:E; [| done].
  apply Qle_bool_iff in E. by apply (Qfloor_resp_le 0 q) in E.
Qed.

Lemma clampLimit_bounds limit : 0 ≤ clampLimit limit ≤ 200.
Proof.
  unfold clampLimit, PAGE_LIMIT. destruct limit as [q |]; [| lia].
  destruct (Qle_bool q 0) eqn:E; [lia |].
  assert (0 ≤ Qfloor q); [| lia].
  apply (Qfloor_resp_le 0 q), Qlt_le_weak, Qnot_le_lt.
  intros H. apply Qle_bool_iff in H. congruence.
Qed.

(** An offset or a limit that is a whole number. *)
Lemma clampOffset_Z (n : nat) : clampOffset (Some (inject_Z (Z.of_nat n))) = Z.of_nat n.
Proof.
  cbn [clampOffset]. rewrite Qfloor_Z.
  destruct (Qle_bool 0 (inject_Z (Z.of_nat n))) eqn:E; [done |].
  assert (Qle_bool 0 (inject_Z (Z.of_nat n)) = true); [| congruence].
  apply Qle_bool_iff. rewrite <- (Zle_Qle 0). lia.
Qed.

Lemma clampLimit_Z (k : Z) : 0 < k ≤ 200 → clampLimit (Some (inject_Z k)) = k.
Proof.
  intros Hk. cbn [clampLimit]. rewrite Qfloor_Z.
  destruct (Qle_bool (inject_Z k) 0) eqn:E; [| lia].
  apply Qle_bool_iff in E.
  change (inject_Z k <= inject_Z 0)%Q in E. rewrite <- Zle_Qle in E. lia.
Qed.

Lemma foldl_agree {A B} (f g : A → B → A) (l : list B) (a : A) :
  (∀ a b, f a b = g a b) → foldl f a l = foldl g a l.
Proof.
  intros Hfg. revert a. induction l as [| b l IH]; intros a; [done |].
  cbn [foldl]. by rewrite Hfg, IH.
Qed.

(** The selected ids that match, in the order of the selection. *)
Lemma buildSelectedResult_eq st flt offset limit :
  let matching :=
    filter (λ id, matchesFilter (getNormalizedFilter flt) id = true) (selectedIds st) in
  buildSelectedResult st flt offset limit
  = mkResult (take (Z.to_nat (clampLimit limit))
                   (drop (Z.to_nat (clampOffset offset)) matching))
             (length matching).
Proof.
  cbn zeta. unfold buildSelectedResult.
  rewrite (foldl_agree _ (consider [] (getNormalizedFilter flt)
                            (clampOffset offset) (clampLimit limit))) by done.
  rewrite consider_fold_all. cbn zeta. cbn [fst snd].
  f_equal; repeat f_equal; apply list_filter_iff; intros id;
    rewrite elem_of_nil; tauto.
Qed.

(** The available ids of any store, in the order the scan meets them. *)
Lemma buildAvailableResult_scan st flt offset limit :
  let matching :=
    filter (λ id, (id ∉ selectedLookup st)
                  ∧ matchesFilter (getNormalizedFilter flt) id = true)
           (seqZ 1 BASE_MAX_ID ++ (getSortedAdded st).1) in
  (buildAvailableResult st flt offset limit).1
  = mkResult (take (Z.to_nat (clampLimit limit))
                   (drop (Z.to_nat (clampOffset offset)) matching))
             (length matching).
Proof.
  cbn zeta. unfold buildAvailableResult.
  destruct (getSortedAdded st) as [sortedAdded st']. cbn [fst].
  rewrite for_ids_foldl by done. rewrite <- foldl_app.
  by rewrite consider_fold_all.
Qed.

End pages.

(** X1: whatever the store, the filter, the offset and the limit, a page of
    either builder holds at most [clampLimit limit] ids, which is at most
    200, and at most as many as [total] leaves beyond the offset: it is
    empty when the offset reaches [total]. *)
Theorem page_size_bounded (st : Store) (flt : option string) (offset limit : JsArg) :
  let a := (buildAvailableResult st flt offset limit).1 in
  let s := buildSelectedResult st flt offset limit in
  let cap := Z.to_nat (clampLimit limit) in
  let skip := Z.to_nat (clampOffset offset) in
  (cap ≤ 200)%nat
  ∧ (length (items a) ≤ cap)%nat ∧ (length (items a) ≤ total a - skip)%nat
  ∧ (length (items s) ≤ cap)%nat ∧ (length (items s) ≤ total s - skip)%nat.
Proof.
  cbn zeta. rewrite buildAvailableResult_scan, buildSelectedResult_eq.
  cbn [items total]. pose proof (clampLimit_bounds limit) as HL.
  rewrite !length_take, !length_drop. lia.
Qed.

(** X2: the selected-items query lists selected ids only, in the order of
    the selection; [total] is the number of selected ids that match the
    filter, and the items are the page of them that offset and limit cut out. *)
Theorem selected_page (st : Store) (flt : option string) (offset limit : JsArg) :
  let r := buildSelectedResult st flt offset limit in
  let matching :=
    filter (λ id, matchesFilter (getNormalizedFilter flt) id = true) (selectedIds st) in
  items r = take (Z.to_nat (clampLimit limit))
                 (drop (Z.to_nat (clampOffset offset)) matching)
  ∧ total r = length matching
  ∧ items r `sublist_of` selectedIds st
  ∧ (∀ id, id ∈ matching ↔
           id ∈ selectedIds st ∧ matchesFilter (getNormalizedFilter flt) id = true).
Proof.
  cbn zeta. rewrite buildSelectedResult_eq. cbn [items total].
  split_and!; [done | done | |].
  - etrans; [apply sublist_take |]. etrans; [apply sublist_drop |].
    apply sublist_filter.
  - intros id. rewrite list_elem_of_filter. tauto.
Qed.

(** ** The store between requests *)

Section store_frames.
Implicit Types (st : Store).

Lemma getSortedAdded_frame st :
  addedIds (getSortedAdded st).2 = addedIds st
  ∧ selectedIds (getSortedAdded st).2 = selectedIds st
  ∧ selectedLookup (getSortedAdded st).2 = selectedLookup st
  ∧ (addedIdCache (getSortedAdded st).2 = addedIdCache st
     ∨ addedIdCache (getSortedAdded st).2 = Some (sort_asc (addedIds st))).
Proof.
  unfold getSortedAdded.
  destruct (addedIdCache st) eqn:E; cbn; rewrite ?E; split_and!; try done;
    first [by left | by right].
Qed.

Lemma run_query_frame (results : gmap string QueryResult) st (query : Query) :
  addedIds (run_query (results, st) query).2 = addedIds st
  ∧ selectedIds (run_query (results, st) query).2 = selectedIds st
  ∧ selectedLookup (run_query (results, st) query).2 = selectedLookup st
  ∧ (addedIdCache (run_query (results, st) query).2 = addedIdCache st
     ∨ addedIdCache (run_query (results, st) query).2 = Some (sort_asc (addedIds st))).
Proof.
  unfold run_query. destruct (q_type query); cbn [snd]; try (split_and!; try done; by left).
  pose proof (buildAvailableResult_store st (q_filter query) (q_offset query)
                (q_limit query)) as Hst.
  destruct (buildAvailableResult _ _ _ _) as [r st']. cbn [snd] in *. subst st'.
  apply getSortedAdded_frame.
Qed.

Lemma run_queries_frame (f : gmap string QueryResult * Store → Query
                             → gmap string QueryResult * Store)
    (queries : list Query) (results : gmap string QueryResult) st :
  (∀ acc q, f acc q = acc ∨ f acc q = run_query acc q) →
  addedIds (foldl f (results, st) queries).2 = addedIds st
  ∧ selectedIds (foldl f (results, st) queries).2 = selectedIds st
  ∧ selectedLookup (foldl f (results, st) queries).2 = selectedLookup st
  ∧ (addedIdCache (foldl f (results, st) queries).2 = addedIdCache st
     ∨ addedIdCache (foldl f (results, st) queries).2 = Some (sort_asc (addedIds st))).
Proof.
  intros Hf. revert results st.
  induction queries as [| q queries IH]; intros results st; [cbn; split_and!; try done; by left |].
  cbn [foldl]. destruct (Hf (results, st) q) as [-> | ->]; [by apply IH |].
  destruct (run_query_frame results st q) as (Ha & Hs & Hl & Hc).
  destruct (run_query (results, st) q) as [results' st']. cbn [snd] in *.
  destruct (IH results' st') as (Ha' & Hs' & Hl' & Hc').
  rewrite Ha', Hs', Hl'. split_and!; [done | done | done |].
  destruct Hc' as [-> | ->]; [done |]. right. by rewrite Ha.
Qed.

Lemma query_flush_store (s : Batched.Server) :
  Batched.store (Batched.query_flush s)
  = (foldl run_query (∅, Batched.store s)
       (Batched.collect_queries (Batched.qb_pending (Batched.queryBatcher s))).*2).2.
Proof.
  unfold Batched.query_flush.
  destruct (Batched.qb_pending (Batched.queryBatcher s)) as [| item pend]; [done |].
  by destruct (foldl run_query _ _).
Qed.

Lemma Direct_post_query_eq st (queries : list Query) :
  Direct.post_query st queries
  = let acc := foldl (λ acc query,
                        if bool_decide (q_key query = EmptyString) then acc
                        else run_query acc query) (∅, st) queries in
    (RespQuery acc.1, acc.2).
Proof. unfold Direct.post_query. by destruct (foldl _ _ _). Qed.

Lemma Direct_handle_grows st (r : Direct.Request) :
  addedIds st `prefix_of` addedIds (Direct.handle st r).2.
Proof.
  destruct r as [ids | body | queries]; cbn [Direct.handle].
  - unfold Direct.post_items_batch.
    pose proof (commit_added_ids st (default [] ids)) as H.
    destruct (add_batch _ _) as [[added rejected] st']. cbn [fst snd] in *.
    rewrite H. by exists added.
  - done.
  - rewrite Direct_post_query_eq. cbn zeta. cbn [snd].
    match goal with |- context [foldl ?f (∅, st) queries] =>
      destruct (run_queries_frame f queries ∅ st) as (-> & _) end; [| done].
    intros acc q. case_bool_decide; [by left | by right].
Qed.

Lemma Batched_step_grows (s s' : Batched.Server) :
  Batched.step s s' →
  addedIds (Batched.store s) `prefix_of` addedIds (Batched.store s').
Proof.
  intros [s0 ids | s0 body | s0 queries | s0 t Ht | s0 t Ht | s0 t Ht].
  - unfold Batched.post_items_batch. by rewrite add_enqueue_eq.
  - unfold Batched.post_selection. by rewrite selection_enqueue_eq.
  - unfold Batched.post_query, Batched.query_enqueue. cbn [newPromise].
    by destruct (Batched.qb_timer _).
  - unfold Batched.fire_query. rewrite query_flush_store.
    cbn [Batched.store Batched.queryBatcher Batched.qb_pending].
    by destruct (run_queries_frame run_query
                   (Batched.collect_queries
                      (Batched.qb_pending (Batched.queryBatcher s0))).*2 ∅
                   (Batched.store s0)) as (-> & _); [by right |].
  - unfold Batched.fire_selection, Batched.selection_flush. cbn.
    by destruct (Batched.sb_latest _).
  - unfold Batched.fire_add, Batched.add_flush. cbn.
    destruct (Batched.ab_pendingRequests (Batched.addBatcher s0)) as [| req pend];
      [done |].
    match goal with |- context [add_batch ?st ?rq] =>
      pose proof (commit_added_ids st rq) as H end.
    destruct (add_batch _ _) as [[added rejectedGlobal] st']. cbn [fst snd] in *.
    cbn. rewrite H. by exists added.
Qed.

End store_frames.

(** X3: queries never change what the store holds: after [POST /api/query]
    of the unbatched server, and after a flush of the query batcher, the
    overflow set, the selection and its lookup set are what they were, and
    the cache of the sorted overflow set is either untouched or filled with
    the sorted overflow set; the flush leaves the two other batchers alone. *)
Theorem queries_read_only (st : Store) (queries : list Query)
    (s : Batched.Server) (t : nat) :
  let st' := (Direct.post_query st queries).2 in
  let s' := Batched.fire_query t s in
  (addedIds st' = addedIds st ∧ selectedIds st' = selectedIds st
   ∧ selectedLookup st' = selectedLookup st
   ∧ (addedIdCache st' = addedIdCache st
      ∨ addedIdCache st' = Some (sort_asc (addedIds st))))
  ∧ (addedIds (Batched.store s') = addedIds (Batched.store s)
     ∧ selectedIds (Batched.store s') = selectedIds (Batched.store s)
     ∧ selectedLookup (Batched.store s') = selectedLookup (Batched.store s)
     ∧ (addedIdCache (Batched.store s') = addedIdCache (Batched.store s)
        ∨ addedIdCache (Batched.store s')
          = Some (sort_asc (addedIds (Batched.store s))))
     ∧ Batched.selectionBatcher s' = Batched.selectionBatcher s
     ∧ Batched.addBatcher s' = Batched.addBatcher s).
Proof.
  cbn zeta. split.
  - rewrite Direct_post_query_eq. cbn zeta. cbn [snd].
    apply run_queries_frame.
    intros acc q. case_bool_decide; [by left | by right].
  - unfold Batched.fire_query. rewrite query_flush_store.
    cbn [Batched.store Batched.queryBatcher Batched.qb_pending].
    destruct (run_queries_frame run_query
                (Batched.collect_queries
                   (Batched.qb_pending (Batched.queryBatcher s))).*2 ∅
                (Batched.store s)) as (Ha & Hs & Hl & Hc); [by right |].
    split_and!; try done.
    + unfold Batched.query_flush. cbn.
      destruct (Batched.qb_pending _); [done |]. by destruct (foldl run_query _ _).
    + unfold Batched.query_flush. cbn.
      destruct (Batched.qb_pending _); [done |]. by destruct (foldl run_query _ _).
Qed.

(** X4: the overflow set only grows, and only at its end: whatever request
    the unbatched server handles, and whatever step the batching server
    takes, the ids added before are still there, in the same order. *)
Theorem overflow_only_grows (s s' : Batched.Server) (st : Store) (r : Direct.Request) :
  Batched.step s s' →
  addedIds (Batched.store s) `prefix_of` addedIds (Batched.store s')
  ∧ addedIds st `prefix_of` addedIds (Direct.handle st r).2
  ∧ (∀ id, in_id_space (Batched.store s) id → in_id_space (Batched.store s') id)
  ∧ (∀ id, in_id_space st id → in_id_space (Direct.handle st r).2 id).
Proof.
  intros Hstep.
  pose proof (Batched_step_grows s s' Hstep) as Hb.
  pose proof (Direct_handle_grows st r) as Hd.
  split_and!; [done | done | |]; unfold in_id_space; intros id [? | Hin];
    try (by left); right.
  - destruct Hb as [k ->]. apply elem_of_app. by left.
  - destruct Hd as [k ->]. apply elem_of_app. by left.
Qed.

Lemma overflow_only_grows_witness :
  let s := (Batched.post_items_batch Batched.initServer
              (Some [VNum (Int 1000002); VNum (Int 1000001)])).2 in
  let s' := Batched.fire_add 0 s in
  let st := Direct.run initStore [Direct.PostItemsBatch (Some [VNum (Int 1000009)])] in
  let r := Direct.PostItemsBatch (Some [VNum (Int 1000003); VNum (Int 1000009)]) in
  addedIds (Batched.store s) `prefix_of` addedIds (Batched.store s')
  ∧ addedIds st `prefix_of` addedIds (Direct.handle st r).2
  ∧ (∀ id, in_id_space (Batched.store s) id → in_id_space (Batched.store s') id)
  ∧ (∀ id, in_id_space st id → in_id_space (Direct.handle st r).2 id).
Proof.
  intros s s' st r. apply (overflow_only_grows s s' st r).
  apply Batched.step_fire_add. vm_compute. left.
Defined.

(** X5: the data derived from the store is never stale: in every store
    either server can reach, [getSortedAdded] returns the overflow set in
    strictly ascending order, whether it reads the cache or fills it, every
    id of it lies above the base range, and the lookup set of the selection
    holds exactly the ids of the selection. *)
Theorem derived_data_fresh (st : Store) :
  store_reachable st →
  (getSortedAdded st).1 = sort_asc (addedIds st)
  ∧ StronglySorted Z.lt (getSortedAdded st).1
  ∧ (∀ id, id ∈ (getSortedAdded st).1 ↔ id ∈ addedIds st)
  ∧ (∀ id, id ∈ (getSortedAdded st).1 → BASE_MAX_ID < id)
  ∧ (∀ id, JsSet.has id (selectedLookup st) = true ↔ id ∈ selectedIds st).
Proof.
  intros Hst. pose proof (store_reachable_ok st Hst) as Hok.
  destruct (getSortedAdded_spec st Hok) as (-> & _).
  destruct Hok as (Hnd & Hbase & _ & Hlook & _).
  split_and!; [done | by apply sort_asc_strict | apply sort_asc_elem | |].
  - intros id Hin. by apply Hbase, sort_asc_elem.
  - intros id. by rewrite has_true.
Qed.

Lemma derived_data_fresh_witness :
  let st := Direct.run initStore
              [Direct.PostItemsBatch (Some [VNum (Int 1000007); VNum (Int 1000003)]);
               Direct.PostQuery [mkQuery "a" Available None None None];
               Direct.PostItemsBatch (Some [VNum (Int 1000005)]);
               Direct.PostSelection (Some [VNum (Int 1000005); VNum (Int 4)])] in
  (getSortedAdded st).1 = sort_asc (addedIds st)
  ∧ StronglySorted Z.lt (getSortedAdded st).1
  ∧ (∀ id, id ∈ (getSortedAdded st).1 ↔ id ∈ addedIds st)
  ∧ (∀ id, id ∈ (getSortedAdded st).1 → BASE_MAX_ID < id)
  ∧ (∀ id, JsSet.has id (selectedLookup st) = true ↔ id ∈ selectedIds st).
Proof. intros st. exact (derived_data_fresh st (store_direct _)). Defined.

(** ** The client without queues against the unbatched server *)

Section direct_client.
Implicit Types (st : Store).

Lemma post_query_single st (q : Query) :
  q_key q ≠ EmptyString →
  Client.post_query st [q] = inr (run_query (∅, st) q).1.
Proof.
  intros Hk. unfold Client.post_query. rewrite Direct_post_query_eq.
  cbn [foldl fst]. by rewrite bool_decide_eq_false_2.
Qed.

Lemma runQuery_keyed st (q : Query) :
  q_key q ≠ EmptyString →
  Client.runQuery (Client.post_query st) q
  = match q_type q with
    | Available =>
        inr (buildAvailableResult st (q_filter q) (q_offset q) (q_limit q)).1
    | Selected => inr (buildSelectedResult st (q_filter q) (q_offset q) (q_limit q))
    | SelectionFull => inr (mkResult (selectedIds st) (length (selectedIds st)))
    | UnknownType => inl MSG_NO_RESULT
    end.
Proof.
  intros Hk. unfold Client.runQuery. rewrite post_query_single by done.
  unfold run_query. destruct (q_type q).
  - destruct (buildAvailableResult _ _ _ _) as [r st']. cbn [fst].
    by rewrite lookup_insert_eq.
  - cbn [fst]. by rewrite lookup_insert_eq.
  - cbn [fst]. by rewrite lookup_insert_eq.
  - done.
Qed.

End direct_client.

(** X6: [runQuery] of the client without queues, against the unbatched
    server, for a request whose key is not the name of a member of
    [Object.prototype]: a request with a key is answered with what the
    builder of its type computes on the store; the call fails with the
    missing-result message when the type is unknown to the server, and also
    when the key is empty, which the server skips. *)
Theorem runQuery_returns_builder_result (st : Store) (q : Query) :
  plain_key (q_key q) →
  Client.runQuery (Client.post_query st) q
  = if bool_decide (q_key q = EmptyString) then inl MSG_NO_RESULT
    else match q_type q with
         | Available =>
             inr (buildAvailableResult st (q_filter q) (q_offset q) (q_limit q)).1
         | Selected =>
             inr (buildSelectedResult st (q_filter q) (q_offset q) (q_limit q))
         | SelectionFull => inr (mkResult (selectedIds st) (length (selectedIds st)))
         | UnknownType => inl MSG_NO_RESULT
         end.
Proof.
  intros _.
  case_bool_decide as Hk; [| by apply runQuery_keyed].
  unfold Client.runQuery, Client.post_query. rewrite Direct_post_query_eq.
  cbn [foldl fst]. rewrite bool_decide_eq_true_2 by done. cbn [fst].
  by rewrite Hk.
Qed.

Lemma runQuery_returns_builder_result_witness :
  let st := Direct.run initStore [Direct.PostSelection (Some [VNum (Int 4)])] in
  let full := mkQuery "full" SelectionFull None None None in
  let bogus := mkQuery "page" UnknownType None None None in
  Client.runQuery (Client.post_query st) full
  = (if bool_decide (q_key full = EmptyString) then inl MSG_NO_RESULT
     else inr (mkResult (selectedIds st) (length (selectedIds st))))
  ∧ Client.runQuery (Client.post_query st) bogus
    = (if bool_decide (q_key bogus = EmptyString) then inl MSG_NO_RESULT
       else inl MSG_NO_RESULT).
Proof.
  intros st full bogus. split.
  - apply (runQuery_returns_builder_result st full).
    apply (bool_decide_unpack _). vm_compute. exact I.
  - apply (runQuery_returns_builder_result st bogus).
    apply (bool_decide_unpack _). vm_compute. exact I.
Defined.

(** ** The lists of the view *)

Section view_lists.

Lemma first_occurrences_fresh (seen l : list Z) :
  NoDup l → (∀ x, x ∈ l → x ∉ seen) → first_occurrences seen l = l.
Proof.
  revert seen. induction l as [| y l IH]; intros seen Hnd Hfresh; [done |].
  apply NoDup_cons in Hnd as [Hy Hnd]. cbn [first_occurrences].
  rewrite decide_False by (apply Hfresh; left).
  f_equal. apply IH; [done |]. intros x Hx. rewrite elem_of_cons.
  intros [-> | ?]; [done |]. apply (Hfresh x); [by right | done].
Qed.

Lemma merge_loop (seen seen' acc page : list Z) :
  (∀ x, x ∈ seen ↔ x ∈ seen') →
  (foldl (λ (acc : list Z * list Z) id,
            if JsSet.has id acc.1 then acc
            else (JsSet.add id acc.1, acc.2 ++ [id]))
         (seen, acc) page).2
  = acc ++ first_occurrences seen' page.
Proof.
  revert seen seen' acc. induction page as [| id page IH]; intros seen seen' acc Hs.
  { cbn. by rewrite app_nil_r. }
  cbn [foldl first_occurrences fst snd].
  destruct (JsSet.has id seen) eqn:Eh.
  - apply has_true in Eh. rewrite decide_True by (by apply Hs). by apply IH.
  - apply has_false in Eh. rewrite decide_False by (by rewrite <- Hs).
    rewrite (IH _ (id :: seen')).
    + by rewrite <- app_assoc.
    + intros x. rewrite elem_of_add, elem_of_cons, Hs. done.
Qed.

Lemma merge_page_eq (prev page : list Z) :
  App.merge_page true prev page = prev ++ first_occurrences prev page.
Proof.
  unfold App.merge_page. cbn [negb]. apply merge_loop.
  intros x. apply elem_of_of_list.
Qed.

(** Appending the page that starts where the list shown ends. *)
Lemma merge_next_page (all : list Z) (n k : nat) :
  NoDup all →
  App.merge_page true (take n all) (take k (drop n all)) = take (n + k) all.
Proof.
  intros Hnd. rewrite merge_page_eq, first_occurrences_fresh.
  - apply take_take_drop.
  - apply (sublist_NoDup _ all); [exact Hnd |].
    etrans; [apply sublist_take | apply sublist_drop].
  - intros x Hx Hp.
    rewrite <- (take_drop n all) in Hnd. apply NoDup_app in Hnd as (_ & Hdis & _).
    apply (Hdis x Hp). by apply subseteq_take in Hx.
Qed.

End view_lists.

(** X7: what [fetchAvailablePage] and [fetchSelectedPage] put in the list
    is never shorter than before, holds no id twice when the list held none
    twice, and holds exactly the ids of the list and of the page: with
    [append] the ids shown stay where they are and the ids of the page not
    shown yet follow, each once, in page order; without it the list becomes
    the page. *)
Theorem merge_page_appends_new_ids (prev page : list Z) :
  let merged := App.merge_page true prev page in
  App.merge_page false prev page = page
  ∧ merged = prev ++ first_occurrences prev page
  ∧ prev `prefix_of` merged
  ∧ (∀ id, id ∈ merged ↔ id ∈ prev ∨ id ∈ page)
  ∧ (NoDup prev ↔ NoDup merged).
Proof.
  cbn zeta. rewrite merge_page_eq. split_and!; [done | done | by eexists | |].
  - intros id. rewrite elem_of_app, first_occurrences_elem.
    destruct (decide (id ∈ prev)); tauto.
  - rewrite NoDup_app. split; [| tauto]. intros Hnd. split_and!; [done | |].
    + intros x Hx [_ ?]%first_occurrences_elem. done.
    + apply first_occurrences_NoDup.
Qed.

(** X8: scrolling on: in a store either server can reach, when the list
    shown holds the first [n] matching ids, the request the view sends for
    the next page ([offset] = [n], [limit] = 20, through [runQuery] of the
    client without queues and the unbatched server) succeeds, reports the
    number of all matching ids as [total], and merging its items into the
    list gives the first [n + 20] matching ids: no id is skipped or shown
    twice.  Stated for the selected list and for the available list. *)
Theorem load_more_next_page (st : Store) (filterValue : string) (n : nat) :
  store_reachable st →
  let sel :=
    filter (λ id, matchesFilter (trim filterValue) id = true) (selectedIds st) in
  let avail :=
    filter (λ id, (id ∉ selectedIds st) ∧ matchesFilter (trim filterValue) id = true)
           (seqZ 1 BASE_MAX_ID ++ sort_asc (addedIds st)) in
  (∃ r, Client.runQuery (Client.post_query st) (App.selected_query filterValue n) = inr r
        ∧ total r = length sel
        ∧ App.merge_page true (take n sel) (items r) = take (n + 20) sel)
  ∧ (∃ r, Client.runQuery (Client.post_query st) (App.available_query filterValue n)
          = inr r
          ∧ total r = length avail
          ∧ App.merge_page true (take n avail) (items r) = take (n + 20) avail).
Proof.
  intros Hst. cbn zeta. pose proof (store_reachable_ok st Hst) as Hok.
  split.
  - rewrite runQuery_keyed by done.
    cbn [q_type App.selected_query q_filter q_offset q_limit].
    eexists. split; [reflexivity |].
    rewrite buildSelectedResult_eq. cbn [items total getNormalizedFilter].
    split; [done |].
    rewrite clampOffset_Z, Nat2Z.id.
    rewrite clampLimit_Z by (unfold App.PAGE_SIZE; lia).
    apply (merge_next_page _ n 20).
    apply NoDup_filter. by destruct Hok as (_ & _ & _ & _ & [? _]).
  - rewrite runQuery_keyed by done.
    cbn [q_type App.available_query q_filter q_offset q_limit].
    eexists. split; [reflexivity |].
    rewrite (buildAvailableResult_eq st _ _ _ Hok). cbn [items total getNormalizedFilter].
    split; [done |].
    rewrite clampOffset_Z, Nat2Z.id.
    rewrite clampLimit_Z by (unfold App.PAGE_SIZE; lia).
    apply (merge_next_page _ n 20).
    destruct Hok as (Hnd & Hbase & _).
    apply NoDup_filter, NoDup_app. split_and!.
    + apply NoDup_seqZ.
    + intros id Hb Ha. apply elem_of_seqZ in Hb. apply sort_asc_elem, Hbase in Ha. lia.
    + by apply sort_asc_NoDup.
Qed.

Lemma load_more_next_page_witness :
  let st := Direct.run initStore
              [Direct.PostItemsBatch (Some [VNum (Int 1000012)]);
               Direct.PostSelection (Some [VNum (Int 120); VNum (Int 7); VNum (Int 12)])] in
  let sel := filter (λ id, matchesFilter (trim "12 ") id = true) (selectedIds st) in
  let avail :=
    filter (λ id, (id ∉ selectedIds st) ∧ matchesFilter (trim "12 ") id = true)
           (seqZ 1 BASE_MAX_ID ++ sort_asc (addedIds st)) in
  (∃ r, Client.runQuery (Client.post_query st) (App.selected_query "12 " 40) = inr r
        ∧ total r = length sel
        ∧ App.merge_page true (take 40 sel) (items r) = take (40 + 20) sel)
  ∧ (∃ r, Client.runQuery (Client.post_query st) (App.available_query "12 " 40) = inr r
          ∧ total r = length avail
          ∧ App.merge_page true (take 40 avail) (items r) = take (40 + 20) avail).
Proof. intros st. exact (load_more_next_page st "12 " 40 (store_direct _)). Defined.

(** ** Editing the selection in the view *)

Section view_selection.
Implicit Types (current next prev : list Z) (id d t : Z).

Lemma every_same_eq (a b : list Z) :
  length a = length b → App.every_same a b = true ↔ a = b.
Proof.
  revert b. induction a as [| x a IH]; intros [| y b] Hlen; try done.
  cbn [App.every_same]. injection Hlen as Hlen.
  rewrite andb_true_iff, bool_decide_eq_true, (IH b Hlen).
  split; [by intros [-> ->] | by intros [= -> ->]].
Qed.

Lemma isSameOrder_eq (a b : list Z) : App.isSameOrder a b = true ↔ a = b.
Proof.
  unfold App.isSameOrder. case_bool_decide as Hlen.
  - split; [done | intros ->; done].
  - apply every_same_eq. by destruct (decide (length a = length b)).
Qed.

Lemma indexOf_Some x (l : list Z) i :
  App.indexOf x l = Some i → l !! i = Some x ∧ x ∉ take i l.
Proof.
  revert i. induction l as [| y l IH]; intros i; cbn [App.indexOf]; [done |].
  destruct (decide (x = y)) as [-> | Hne].
  - intros [= <-]. split; [done | apply not_elem_of_nil].
  - destruct (App.indexOf x l) as [j |]; [| done]. cbn. intros [= <-].
    destruct (IH j eq_refl) as [Hj Hfresh]. split; [done |].
    cbn. rewrite elem_of_cons. tauto.
Qed.

Lemma indexOf_None x (l : list Z) : App.indexOf x l = None ↔ x ∉ l.
Proof.
  induction l as [| y l IH]; cbn [App.indexOf].
  - split; [intros _; apply not_elem_of_nil | done].
  - rewrite elem_of_cons. destruct (decide (x = y)) as [-> | Hne].
    + split; [done | tauto].
    + destruct (App.indexOf x l); cbn.
      * split; [done |]. intros H. assert (x ∉ l) as Hl by tauto.
        by apply IH in Hl.
      * split; [tauto | done].
Qed.

Lemma splice_out_delete i (l : list Z) : App.splice_out i l = delete i l.
Proof.
  unfold App.splice_out. revert i. induction l as [| y l IH]; intros [| i]; cbn;
    try done.
  f_equal. apply IH.
Qed.

Lemma splice_in_perm i x (l : list Z) : App.splice_in i x l ≡ₚ x :: l.
Proof.
  unfold App.splice_in. rewrite <- Permutation_middle. by rewrite take_drop.
Qed.

Lemma splice_in_lookup i x (l : list Z) :
  (i ≤ length l)%nat → App.splice_in i x l !! i = Some x.
Proof.
  intros Hi. unfold App.splice_in.
  rewrite lookup_app_r by (rewrite length_take; lia).
  rewrite length_take. by replace (i - i `min` length l)%nat with 0%nat by lia.
Qed.

Lemma filter_delete_other d i (l : list Z) :
  l !! i = Some d →
  filter (λ x, x ≠ d) (delete i l) = filter (λ x, x ≠ d) l.
Proof.
  revert i. induction l as [| y l IH]; intros [| i]; try done.
  - intros [= ->]. change (delete 0%nat (d :: l)) with l.
    by rewrite filter_cons_False by (intros ?; done).
  - intros Hi. change (delete (S i) (y :: l)) with (y :: delete i l).
    rewrite !filter_cons. by rewrite (IH i Hi).
Qed.

Lemma filter_splice_in_other d i (l : list Z) :
  filter (λ x, x ≠ d) (App.splice_in i d l) = filter (λ x, x ≠ d) l.
Proof.
  unfold App.splice_in. rewrite filter_app.
  rewrite filter_cons_False by (intros ?; done).
  by rewrite <- filter_app, take_drop.
Qed.

(** The order [handleDragOver] moves to, when it moves. *)
Lemma dragOver_Some current d t next :
  App.dragOver current (Some d) t = Some next →
  ∃ i j, current !! i = Some d ∧ current !! j = Some t ∧ i ≠ j
         ∧ next = App.splice_in j d (delete i current).
Proof.
  unfold App.dragOver. case_bool_decide as Hdt; [done |].
  destruct (App.indexOf d current) as [i |] eqn:Ei; [| done].
  destruct (App.indexOf t current) as [j |] eqn:Ej; [| done].
  case_bool_decide as Hij; [done |]. intros [= <-].
  apply indexOf_Some in Ei as [Hi _]. apply indexOf_Some in Ej as [Hj _].
  exists i, j. by rewrite splice_out_delete.
Qed.

Lemma dragOver_perm current d t next :
  App.dragOver current (Some d) t = Some next → next ≡ₚ current.
Proof.
  intros (i & j & Hi & _ & _ & ->)%dragOver_Some.
  rewrite splice_in_perm. symmetry. by apply delete_Permutation.
Qed.

Lemma sync_loop_eq (f : string) (limit : nat) (selection acc : list Z) :
  (length acc < limit)%nat →
  App.sync_loop f limit selection acc
  = take limit (acc ++ filter (λ id, matchesFilter f id = true) selection).
Proof.
  revert acc. induction selection as [| id sel IH]; intros acc Hacc.
  { cbn. rewrite app_nil_r. by rewrite take_ge by lia. }
  cbn [App.sync_loop].
  destruct (matchesFilter f id) eqn:Em; cbn [negb].
  - rewrite filter_cons_True by done. cbn zeta.
    destruct (Nat.leb_spec limit (length (acc ++ [id]))) as [Hle | Hgt].
    + rewrite length_app in Hle. cbn in Hle.
      set (F := filter _ sel).
      replace (acc ++ id :: F) with ((acc ++ [id]) ++ F) by (by rewrite <- app_assoc).
      rewrite take_app_le by (rewrite length_app; cbn; lia).
      rewrite take_ge; [done | rewrite length_app; cbn; lia].
    + rewrite (IH (acc ++ [id]) Hgt). by rewrite <- app_assoc.
  - rewrite filter_cons_False by congruence. by apply IH.
Qed.

Lemma syncSelectedItems_eq (selectedFilter : string) (selection prev : list Z) :
  App.syncSelectedItems selectedFilter selection prev
  = take (length prev)
         (filter (λ id, matchesFilter (trim selectedFilter) id = true) selection).
Proof.
  unfold App.syncSelectedItems. destruct prev as [| x prev]; [done |].
  rewrite sync_loop_eq by (cbn; lia). done.
Qed.

Lemma filter_all {A} (P : A → Prop) `{∀ x, Decision (P x)} (l : list A) :
  (∀ x, x ∈ l → P x) → filter P l = l.
Proof.
  induction l as [| x l IH]; intros HP; [done |].
  rewrite filter_cons_True by (apply HP; left). f_equal.
  apply IH. intros y Hy. apply HP. by right.
Qed.

Lemma survivors_valid (st : Store) (l : list Z) :
  (∀ id, id ∈ l → 0 < id ∧ in_id_space st id) →
  survivors st (map (λ id, VNum (Int id)) l) = l.
Proof.
  induction l as [| x l IH]; intros Hv; [done |].
  unfold survivors. cbn [map omap list_omap Number].
  rewrite decide_True by (apply Hv; left). cbn. f_equal.
  apply IH. intros id Hid. apply Hv. by right.
Qed.

Lemma sanitizeIds_valid (st : Store) (l : list Z) :
  selection_ok st l → sanitizeIds st (Some (map (λ id, VNum (Int id)) l)) = l.
Proof.
  intros [Hnd Hv]. rewrite sanitizeIds_eq.
  change (default [] (Some ?x)) with x.
  rewrite survivors_valid by done.
  apply first_occurrences_fresh; [done |]. intros x _. apply not_elem_of_nil.
Qed.

End view_selection.

(** X9: [isSameOrder] says whether two id lists are the same list, so
    [applySelection] keeps the selection and sends nothing exactly when the
    new order is the current one. *)
Theorem isSameOrder_decides_equality (a b : list Z) :
  (App.isSameOrder a b = true ↔ a = b)
  ∧ ((App.applySelection b a).2 = false ↔ a = b)
  ∧ (App.applySelection b a).1 = a.
Proof.
  pose proof (isSameOrder_eq a b) as H. unfold App.applySelection.
  destruct (App.isSameOrder a b); cbn [fst snd].
  - assert (a = b) as -> by (by apply H). done.
  - split_and!; [done | | done]. split; [done |]. intros ->.
    assert (false = true) by (by apply H). done.
Qed.

(** X10: a selection of distinct positive ids of the identifier space is
    stored by the server exactly as sent: [sanitizeIds] returns it
    unchanged, and [POST /api/selection] answers with it and stores it;
    sanitizing twice is sanitizing once. *)
Theorem valid_selection_kept (st : Store) (l : list Z) (body : option (list JsValue)) :
  selection_ok st l →
  let sent := Some (map (λ id, VNum (Int id)) l) in
  sanitizeIds st sent = l
  ∧ (Direct.post_selection st sent).1 = RespSelection l
  ∧ selectedIds (Direct.post_selection st sent).2 = l
  ∧ sanitizeIds st (Some (map (λ id, VNum (Int id)) (sanitizeIds st body)))
    = sanitizeIds st body.
Proof.
  intros Hl. cbn zeta. unfold Direct.post_selection.
  cbn [fst snd selectedIds ensureSelectedLookup].
  rewrite (sanitizeIds_valid st l Hl). split_and!; try done.
  apply sanitizeIds_valid, sanitizeIds_ok.
Qed.

Lemma valid_selection_kept_witness :
  let st := initStore in
  let l := [3; 1; 2] in
  let body := Some [VNum (Int 4); VNum (Int 0); VNum (Int 4); VOther "x" (Int 5)] in
  let sent := Some (map (λ id, VNum (Int id)) l) in
  sanitizeIds st sent = l
  ∧ (Direct.post_selection st sent).1 = RespSelection l
  ∧ selectedIds (Direct.post_selection st sent).2 = l
  ∧ sanitizeIds st (Some (map (λ id, VNum (Int id)) (sanitizeIds st body)))
    = sanitizeIds st body.
Proof.
  intros st l body. apply (valid_selection_kept st l body). split.
  - apply (bool_decide_unpack _). vm_compute. exact I.
  - intros id Hin. unfold in_id_space, BASE_MAX_ID.
    repeat (apply elem_of_cons in Hin as [-> | Hin]); [lia | lia | lia |].
    by apply elem_of_nil in Hin.
Defined.

(** X11: dragging: when [handleDragOver] moves the dragged id, the new
    order is a rearrangement of the old selection of the same length, the
    dragged id stands at the index the target had, and the other ids keep
    their relative order; it leaves the selection alone exactly when the
    dragged id is the target or one of the two is not in the selection, and
    when nothing is dragged. *)
Theorem dragOver_moves_to_target (current : list Z) (d t : Z) :
  (App.dragOver current (Some d) t = None ↔ d = t ∨ d ∉ current ∨ t ∉ current)
  ∧ App.dragOver current None t = None
  ∧ ∀ next, App.dragOver current (Some d) t = Some next →
      next ≡ₚ current
      ∧ length next = length current
      ∧ (NoDup current ↔ NoDup next)
      ∧ filter (λ x, x ≠ d) next = filter (λ x, x ≠ d) current
      ∧ ∃ j, App.indexOf t current = Some j ∧ next !! j = Some d.
Proof.
  split_and!; [| done |].
  - unfold App.dragOver. case_bool_decide as Hdt; [tauto |].
    destruct (App.indexOf d current) as [i |] eqn:Ei.
    + destruct (App.indexOf t current) as [j |] eqn:Ej.
      * case_bool_decide as Hij.
        { subst j. apply indexOf_Some in Ei as [Hi _]. apply indexOf_Some in Ej as [Hj _].
          congruence. }
        split; [done |]. intros [? | [Hd | Ht]]; [done | |].
        -- apply indexOf_None in Hd. congruence.
        -- apply indexOf_None in Ht. congruence.
      * apply indexOf_None in Ej. tauto.
    + apply indexOf_None in Ei. tauto.
  - intros next Hnext. pose proof (dragOver_perm _ _ _ _ Hnext) as Hperm.
    split_and!; [done | by rewrite Hperm | by rewrite Hperm | |].
    + apply dragOver_Some in Hnext as (i & j & Hi & _ & _ & ->).
      rewrite filter_splice_in_other. by apply filter_delete_other.
    + unfold App.dragOver in Hnext. case_bool_decide as Hdt; [done |].
      destruct (App.indexOf d current) as [i |] eqn:Ei; [| done].
      destruct (App.indexOf t current) as [j |] eqn:Ej; [| done].
      case_bool_decide as Hij; [done |]. injection Hnext as <-.
      exists j. split; [done |]. apply splice_in_lookup.
      apply indexOf_Some in Ei as [Hi _]. apply indexOf_Some in Ej as [Hj _].
      apply lookup_lt_Some in Hi, Hj.
      rewrite splice_out_delete, length_delete by eauto using lookup_lt_is_Some_2.
      lia.
Qed.

Lemma dragOver_moves_to_target_witness :
  let current := [3; 1; 2; 5] in
  let next := [3; 5; 1; 2] in
  App.dragOver current (Some 5) 1 = Some next
  ∧ next ≡ₚ current
  ∧ length next = length current
  ∧ (NoDup current ↔ NoDup next)
  ∧ filter (λ x, x ≠ 5) next = filter (λ x, x ≠ 5) current
  ∧ ∃ j, App.indexOf 1 current = Some j ∧ next !! j = Some 5.
Proof.
  intros current next. split; [reflexivity |].
  exact (proj2 (proj2 (dragOver_moves_to_target current 5 1)) next eq_refl).
Defined.

(** X12: after an edit of the selection the list of selected items shown
    becomes the first matching ids of the new selection, as many as were
    shown before (fewer when fewer match), in selection order; an empty
    list stays empty. *)
Theorem sync_shows_first_matching (selectedFilter : string) (selection prev : list Z) :
  let shown := App.syncSelectedItems selectedFilter selection prev in
  let matching :=
    filter (λ id, matchesFilter (trim selectedFilter) id = true) selection in
  shown = take (length prev) matching
  ∧ (length shown ≤ length prev)%nat
  ∧ shown `prefix_of` matching
  ∧ shown `sublist_of` selection.
Proof.
  cbn zeta. rewrite syncSelectedItems_eq. split_and!.
  - done.
  - rewrite length_take. lia.
  - apply prefix_take.
  - etrans; [apply sublist_take | apply sublist_filter].
Qed.

(** X13: the list [syncSelectedItemsFromSelection] shows is the page the
    server would answer with, once it holds the same selection, to a
    selected-items query with the same filter, offset 0 and the length of
    the list shown as limit (between 1 and 200). *)
Theorem sync_agrees_with_server (st : Store) (selectedFilter : string) (prev : list Z) :
  (0 < length prev ≤ 200)%nat →
  App.syncSelectedItems selectedFilter (selectedIds st) prev
  = items (buildSelectedResult st (Some selectedFilter) (Some (inject_Z 0))
             (Some (inject_Z (Z.of_nat (length prev))))).
Proof.
  intros Hlen. rewrite syncSelectedItems_eq, buildSelectedResult_eq.
  cbn [items getNormalizedFilter].
  change (inject_Z 0) with (inject_Z (Z.of_nat 0)).
  rewrite (clampOffset_Z 0), clampLimit_Z by lia.
  by rewrite !Nat2Z.id, drop_0.
Qed.

Lemma sync_agrees_with_server_witness :
  let st := mkStore [] None [12; 5; 125; 7] [12; 5; 125; 7] in
  App.syncSelectedItems " 5" (selectedIds st) [12; 5]
  = items (buildSelectedResult st (Some " 5") (Some (inject_Z 0))
             (Some (inject_Z (Z.of_nat (length [12; 5]))))).
Proof.
  intros st. apply (sync_agrees_with_server st " 5" [12; 5]). cbn. lia.
Defined.

(** X14: the edits of the view keep the selection acceptable: from a
    selection of distinct positive ids of the identifier space, moving such
    an id to the selection, removing an id, or dragging an id over another
    gives again such a selection, which [POST /api/selection] stores as
    sent.  Moving an id that is not selected appends it, and removing it
    again gives the selection back. *)
Theorem view_edits_keep_selection_valid (st : Store) (current next : list Z)
    (id target : Z) :
  selection_ok st current → 0 < id → in_id_space st id →
  App.moveToSelection current id = Some next
  ∨ App.removeFromSelection current id = Some next
  ∨ App.dragOver current (Some id) target = Some next →
  selection_ok st next
  ∧ selectedIds (Direct.post_selection st (Some (map (λ id, VNum (Int id)) next))).2
    = next
  ∧ (App.moveToSelection current id = Some next →
     next = current ++ [id] ∧ App.removeFromSelection next id = Some current).
Proof.
  intros [Hnd Hv] Hpos Hid Hedit.
  assert (Hok : selection_ok st next).
  { destruct Hedit as [Hm | [Hr | Hd]].
    - unfold App.moveToSelection in Hm. case_bool_decide as Hin; [done |].
      injection Hm as <-. split.
      + apply NoDup_app. split_and!; [done | | apply NoDup_singleton].
        intros x Hx ->%list_elem_of_singleton. done.
      + intros x [Hx | ->%list_elem_of_singleton]%elem_of_app; [by apply Hv | done].
    - unfold App.removeFromSelection in Hr. case_bool_decide as Hin; [| done].
      injection Hr as <-. split; [by apply NoDup_filter |].
      intros x [_ Hx]%list_elem_of_filter. by apply Hv.
    - pose proof (dragOver_perm _ _ _ _ Hd) as Hperm. split; [by rewrite Hperm |].
      intros x Hx. apply Hv. by rewrite <- Hperm. }
  split_and!; [done | |].
  - unfold Direct.post_selection. cbn [fst snd selectedIds ensureSelectedLookup].
    by apply sanitizeIds_valid.
  - unfold App.moveToSelection. case_bool_decide as Hin; [done |].
    intros [= <-]. split; [done |]. unfold App.removeFromSelection.
    rewrite bool_decide_eq_true_2
      by (apply elem_of_app; right; by apply list_elem_of_singleton).
    cbn [negb]. f_equal.
    rewrite filter_app.
    rewrite (filter_cons_False _ id) by (intros ?; done).
    rewrite filter_nil, app_nil_r.
    apply filter_all. intros x Hx ->. done.
Qed.

Lemma view_edits_keep_selection_valid_witness :
  let st := initStore in
  selection_ok st [3; 8]
  ∧ selectedIds (Direct.post_selection st
                   (Some (map (λ id, VNum (Int id)) ([3; 8] ++ [5])))).2
    = [3; 8] ++ [5]
  ∧ App.removeFromSelection ([3; 8] ++ [5]) 5 = Some [3; 8].
Proof.
  intros st.
  assert (Hsel : selection_ok st [3; 8]).
  { split.
    - apply (bool_decide_unpack _). vm_compute. exact I.
    - intros id Hin. unfold in_id_space, BASE_MAX_ID.
      repeat (apply elem_of_cons in Hin as [-> | Hin]); [lia | lia |].
      by apply elem_of_nil in Hin. }
  assert (Hin : in_id_space st 5) by (left; unfold BASE_MAX_ID; lia).
  destruct (view_edits_keep_selection_valid st [3; 8] ([3; 8] ++ [5]) 5 0 Hsel
              ltac:(lia) Hin ltac:(by left)) as (_ & Hpost & Hmove).
  split_and!; [done | done |]. by apply Hmove.
Defined.

(** ** A lone caller of a batcher *)

Section lone_caller.

Lemma number_candidates_added (st : Store) (ids : list JsValue) (id : Z) :
  (∀ raw, raw ∈ ids → ∃ n, raw = VNum n) →
  id ∈ (add_batch st ids).1.1 → VNum (Int id) ∈ ids.
Proof.
  intros Hnum Hin. apply added_elem in Hin.
  unfold spec_accepted in Hin. apply list_elem_of_omap in Hin as (raw & Hraw & Hv).
  destruct (Hnum raw Hraw) as [n ->].
  unfold spec_verdict in Hv. cbn [Number] in Hv. destruct n as [z |]; [| done].
  repeat case_decide; try done. by injection Hv as ->.
Qed.

Lemma number_candidates_rejected (st : Store) (ids : list JsValue) (r : Rejection) :
  (∀ raw, raw ∈ ids → ∃ n, raw = VNum n) →
  r ∈ (add_batch st ids).1.2 → VNum (Number (rej_id r)) ∈ ids.
Proof.
  intros Hnum. rewrite add_batch_eq. cbn [fst snd].
  unfold spec_rejected. intros (raw & Hraw & Hv)%list_elem_of_omap.
  destruct (Hnum raw Hraw) as [n ->].
  destruct (spec_verdict _ _); [done |]. injection Hv as <-.
  by rewrite rejection_of_number.
Qed.

End lone_caller.

(** X15: batching does not change what a lone caller is told: when the
    add batcher holds no request, a request whose ids are all numbers is
    answered at the flush with exactly the lists [POST /api/items/batch] of
    the unbatched server answers with on the same store, and the store
    after the flush is the store after that unbatched request. *)
Theorem lone_add_request_as_unbatched (s : Batched.Server) (ids : list JsValue) (t : nat) :
  Batched.reachable s →
  Batched.ab_pendingRequests (Batched.addBatcher s) = [] →
  (∀ raw, raw ∈ ids → ∃ n, raw = VNum n) →
  let e := Batched.post_items_batch s (Some ids) in
  let s' := Batched.fire_add t e.2 in
  let direct := Direct.post_items_batch (Batched.store s) (Some ids) in
  settled (Batched.promises s') !! e.1 = Some (Resolved direct.1)
  ∧ Batched.store s' = direct.2.
Proof.
  intros Hs Hempty Hnum. cbn zeta.
  assert (Hs' : Batched.reachable (Batched.post_items_batch s (Some ids)).2).
  { eapply Batched.reachable_step; [exact Hs | apply Batched.step_items_batch]. }
  set (req := Batched.mkPendingAdd ids (JsSet.of_list ids)
                (next_promise (Batched.promises s))).
  assert (Hpend : Batched.ab_pendingRequests
                    (Batched.addBatcher (Batched.post_items_batch s (Some ids)).2)
                  = [req]).
  { unfold Batched.post_items_batch. rewrite add_enqueue_eq. cbn. by rewrite Hempty. }
  assert (Hstore : Batched.store (Batched.post_items_batch s (Some ids)).2
                   = Batched.store s).
  { unfold Batched.post_items_batch. by rewrite add_enqueue_eq. }
  assert (He1 : (Batched.post_items_batch s (Some ids)).1
                = next_promise (Batched.promises s)).
  { unfold Batched.post_items_batch. by rewrite add_enqueue_eq. }
  assert (Hreq : Batched.requested_of [req] = ids).
  { unfold Batched.requested_of. cbn. by rewrite app_nil_r. }
  unfold Direct.post_items_batch. change (default [] (Some ids)) with ids.
  split.
  - pose proof (fire_add_resolves _ t req Hs') as Hres.
    rewrite Hpend, Hstore, Hreq in Hres. cbn zeta in Hres.
    rewrite He1. change (next_promise (Batched.promises s)) with (Batched.pa_resolve req).
    rewrite Hres by (apply list_elem_of_singleton; done).
    pose proof (number_candidates_added (Batched.store s) ids) as Ha.
    pose proof (number_candidates_rejected (Batched.store s) ids) as Hr.
    destruct (add_batch (Batched.store s) ids) as [[added rejected] st'].
    cbn [fst snd] in *. do 3 f_equal.
    + unfold Batched.addedForRequest. apply filter_all.
      intros id Hid. apply has_idSet. by apply Ha.
    + unfold Batched.rejectedForRequest. apply filter_all.
      intros r Hin. apply has_idSet. by apply Hr.
  - unfold Batched.fire_add.
    rewrite add_flush_store
      by (cbn [Batched.addBatcher Batched.ab_pendingRequests]; by rewrite Hpend).
    cbn [Batched.addBatcher Batched.ab_pendingRequests Batched.store].
    rewrite Hpend, Hstore, Hreq.
    by destruct (add_batch (Batched.store s) ids) as [[added rejected] st'].
Qed.

Lemma lone_add_request_as_unbatched_witness :
  let s := Batched.initServer in
  let ids := [VNum (Int 1000003); VNum (NonInt 0); VNum (Int 7); VNum (Int 1000003)] in
  let e := Batched.post_items_batch s (Some ids) in
  let s' := Batched.fire_add 0 e.2 in
  let direct := Direct.post_items_batch (Batched.store s) (Some ids) in
  settled (Batched.promises s') !! e.1 = Some (Resolved direct.1)
  ∧ Batched.store s' = direct.2.
Proof.
  intros s ids.
  apply (lone_add_request_as_unbatched s ids 0 Batched.reachable_init eq_refl).
  intros raw Hraw.
  repeat (apply elem_of_cons in Hraw as [-> | Hraw]); try (by eexists).
  by apply elem_of_nil in Hraw.
Defined.

(** ** No caller is forgotten *)

Section accounting.
Context {V : Type}.
Implicit Types (P : Promises V) (live rest : list nat).

Lemma accounted_init : accounted [] (@initPromises V).
Proof. intros p Hp. cbn in Hp. lia. Qed.

Lemma accounted_perm live live' P :
  live ≡ₚ live' → accounted live P → accounted live' P.
Proof.
  intros Hperm Ha p Hp. destruct (Ha p Hp) as [Hin | Hs]; [left | by right].
  by rewrite <- Hperm.
Qed.

Lemma accounted_new live P :
  accounted live P → accounted (next_promise P :: live) (newPromise P).2.
Proof.
  intros Ha p Hp. cbn in Hp |- *.
  destruct (decide (p = next_promise P)) as [-> | Hne]; [left; left |].
  destruct (Ha p) as [Hin | Hs]; [lia | left; by right | by right].
Qed.

Lemma settle_each_covers (groups : list (list nat * Outcome V)) P p :
  p ∈ concat groups.*1 → is_Some (settled (settle_each groups P) !! p).
Proof.
  revert P. induction groups as [| [ws o] groups IH]; intros P Hp.
  { by apply elem_of_nil in Hp. }
  rewrite fmap_cons in Hp. cbn [fst concat] in Hp.
  change (settle_each ((ws, o) :: groups) P)
    with (settle_each groups (settle_all ws o P)).
  apply elem_of_app in Hp as [Hp | Hp]; [| by apply IH].
  assert (Hs : is_Some (settled (settle_all ws o P) !! p)).
  { rewrite settle_all_lookup. destruct (settled P !! p); [by eexists |].
    rewrite decide_True by done. by eexists. }
  destruct Hs as [x Hx]. exists x. by apply settle_each_settled.
Qed.

Lemma accounted_settle_each (groups : list (list nat * Outcome V)) rest P :
  accounted (concat groups.*1 ++ rest) P → accounted rest (settle_each groups P).
Proof.
  intros Ha p Hp. rewrite settle_each_next in Hp.
  destruct (Ha p Hp) as [[Hin | Hin]%elem_of_app | [x Hx]].
  - right. by apply settle_each_covers.
  - by left.
  - right. exists x. by apply settle_each_settled.
Qed.

Lemma accounted_settle_new live (o : Outcome V) P :
  accounted live P → accounted live (settle (next_promise P) o (newPromise P).2).
Proof.
  intros Ha. apply accounted_new in Ha.
  apply (accounted_settle_each [([next_promise P], o)] live) in Ha. exact Ha.
Qed.

(** A promise is owed and unsettled, or settled and no longer held. *)
Lemma owed_or_settled live P p :
  ledger live P → accounted live P → (p < next_promise P)%nat →
  (p ∈ live ∧ settled P !! p = None) ∨ ((p ∉ live) ∧ is_Some (settled P !! p)).
Proof.
  intros (_ & Hlive & _) Ha Hp. destruct (decide (p ∈ live)) as [Hin | Hnin].
  - left. split; [done |]. by apply Hlive.
  - right. split; [done |]. destruct (Ha p Hp); [done | done].
Qed.

End accounting.

Section accounted_queues.

Lemma BatchQueryQueue_accounted {Request Result} (key : Request → string)
    (w : BatchQueryQueue.World Request Result) :
  BatchQueryQueue.reachable key w →
  accounted (BatchQueryQueue_live w) (BatchQueryQueue.promises w).
Proof.
  induction 1 as [| w w' _ IH Hstep]; [apply accounted_init |].
  destruct Hstep as [w req | w t Ht | w i outcome Hi]; unfold BatchQueryQueue_live in *.
  - unfold BatchQueryQueue.enqueue. cbn [newPromise].
    destruct (bool_decide (key req = EmptyString)); cbn.
    { by apply accounted_settle_new. }
    destruct (schedule _ _) as [tm' c']. cbn.
    eapply accounted_perm; [| apply accounted_new, IH].
    unfold BatchQueryQueue.waiters.
    destruct (JsMap.get _ _) as [existing |] eqn:Eg.
    + pose proof (held_set_existing BatchQueryQueue.resolvers (key req)
        (BatchQueryQueue.mkEntry req
           (BatchQueryQueue.resolvers existing ++ [next_promise (BatchQueryQueue.promises w)]))
        _ _ _ Eg eq_refl) as Hp.
      unfold held in Hp. by rewrite Hp.
    + pose proof (held_set_new BatchQueryQueue.resolvers (key req)
        (BatchQueryQueue.mkEntry req [next_promise (BatchQueryQueue.promises w)])
        _ Eg) as Hp.
      unfold held in Hp. rewrite Hp. cbn.
      apply perm_snoc_front.
  - unfold BatchQueryQueue.fire, BatchQueryQueue.flush. cbn.
    destruct (BatchQueryQueue.pending w) as [| e es] eqn:Ep; cbn; [done |].
    eapply accounted_perm; [| exact IH]. by rewrite live_capture.
  - destruct Hi as [es Hi]. unfold BatchQueryQueue.complete. rewrite Hi. cbn.
    rewrite BatchQueryQueue_resume.
    apply accounted_settle_each. rewrite groups_fst.
    eapply accounted_perm; [| exact IH].
    apply (live_delete BatchQueryQueue.waiters _ _ _ _ Hi).
Qed.

Lemma AddQueue_accounted (w : AddQueue.World) :
  AddQueue.reachable w → accounted (AddQueue_live w) (AddQueue.promises w).
Proof.
  induction 1 as [| w w' _ IH Hstep]; [apply accounted_init |].
  destruct Hstep as [w id | w t Ht | w i outcome Hi]; unfold AddQueue_live in *.
  - unfold AddQueue.enqueue. cbn [newPromise].
    destruct id as [id |]; cbn; [| by apply accounted_settle_new].
    destruct (id <=? 0); cbn; [by apply accounted_settle_new |].
    destruct (schedule _ _) as [tm' c']. cbn.
    eapply accounted_perm; [| apply accounted_new, IH].
    unfold AddQueue.waiters.
    destruct (JsMap.get _ _) as [existing |] eqn:Eg.
    + pose proof (held_set_existing (λ ws : list nat, ws) id
        (existing ++ [next_promise (AddQueue.promises w)]) _ _ _ Eg eq_refl) as Hp.
      unfold held in Hp. cbn in Hp. by rewrite Hp.
    + pose proof (held_set_new (λ ws : list nat, ws) id
        [next_promise (AddQueue.promises w)] _ Eg) as Hp.
      unfold held in Hp. cbn in Hp. rewrite Hp.
      apply perm_snoc_front.
  - unfold AddQueue.fire, AddQueue.flush. cbn.
    destruct (AddQueue.pending w) as [| e es] eqn:Ep; cbn; [done |].
    eapply accounted_perm; [| exact IH]. by rewrite live_capture.
  - destruct Hi as [es Hi]. unfold AddQueue.complete. rewrite Hi. cbn.
    rewrite AddQueue_resume.
    apply accounted_settle_each. rewrite groups_fst.
    eapply accounted_perm; [| exact IH].
    apply (live_delete AddQueue.waiters _ _ _ _ Hi).
Qed.

Lemma LatestPayloadQueue_accounted {TPayload TResult}
    (w : LatestPayloadQueue.World TPayload TResult) :
  LatestPayloadQueue.reachable w →
  accounted (LatestPayloadQueue_live w) (LatestPayloadQueue.promises w).
Proof.
  induction 1 as [| w w' _ IH Hstep]; [apply accounted_init |].
  destruct Hstep as [w pl | w t Ht | w i outcome Hi]; unfold LatestPayloadQueue_live in *.
  - unfold LatestPayloadQueue.enqueue. cbn [newPromise].
    destruct (schedule _ _) as [tm' c']. cbn.
    eapply accounted_perm; [| apply accounted_new, IH].
    destruct (LatestPayloadQueue.pending w) as [cur |]; cbn; [| done].
    apply perm_snoc_front.
  - unfold LatestPayloadQueue.fire, LatestPayloadQueue.flush. cbn.
    destruct (LatestPayloadQueue.pending w) as [cur |] eqn:Ep; cbn; [| done].
    eapply accounted_perm; [| exact IH]. cbn. by rewrite live_capture.
  - destruct Hi as [cur Hi]. unfold LatestPayloadQueue.complete. rewrite Hi. cbn.
    rewrite LatestPayloadQueue_resume.
    apply accounted_settle_each. cbn. rewrite app_nil_r.
    eapply accounted_perm; [| exact IH].
    apply (live_delete LatestPayloadQueue.resolvers _ _ _ _ Hi).
Qed.

Lemma Batched_accounted (s : Batched.Server) :
  Batched.reachable s → accounted (Batched_live s) (Batched.promises s).
Proof.
  induction 1 as [| s s' _ IH Hstep]; [apply accounted_init |].
  unfold Batched_live in *.
  destruct Hstep as [s ids | s body | s queries | s t Ht | s t Ht | s t Ht].
  - unfold Batched.post_items_batch, Batched.add_enqueue. cbn [newPromise].
    eapply accounted_perm; [| apply accounted_new, IH].
    destruct (Batched.ab_timer _); cbn; rewrite map_app; apply perm_snoc_back.
  - unfold Batched.post_selection, Batched.selection_enqueue. cbn [newPromise].
    eapply accounted_perm; [| apply accounted_new, IH].
    destruct (Batched.sb_timer _); cbn; apply perm_snoc_mid.
  - unfold Batched.post_query, Batched.query_enqueue. cbn [newPromise].
    eapply accounted_perm; [| apply accounted_new, IH].
    destruct (Batched.qb_timer _); cbn; rewrite map_app; apply perm_snoc_front.
  - unfold Batched.fire_query, Batched.query_flush. cbn.
    destruct (Batched.qb_pending (Batched.queryBatcher s)) as [| item pend] eqn:Ep;
      [done |].
    destruct (foldl run_query _ _) as [results st']. cbn.
    rewrite (foldl_settle_one Batched.pq_resolve
               (λ it, Resolved (RespQuery (Batched.response_for results it)))
               pend).
    change (settle_each ?g (settle ?w ?o ?P)) with (settle_each (([w], o) :: g) P).
    apply accounted_settle_each. cbn [fmap list_fmap fst concat app].
    by rewrite singles_concat.
  - unfold Batched.fire_selection, Batched.selection_flush. cbn.
    destruct (Batched.sb_latest _); cbn;
      change (settle_all ?ws ?o ?P) with (settle_each [(ws, o)] P);
      apply accounted_settle_each; cbn; rewrite app_nil_r;
      (eapply accounted_perm; [| exact IH]);
      by rewrite (Permutation_app_swap_app (map _ _)).
  - unfold Batched.fire_add, Batched.add_flush. cbn.
    destruct (Batched.ab_pendingRequests (Batched.addBatcher s)) as [| req pend] eqn:Ep;
      [done |].
    destruct (add_batch _ _) as [[added rejectedGlobal] st']. cbn.
    rewrite (foldl_settle_one Batched.pa_resolve
               (λ rq, Resolved (RespAdd (Batched.addedForRequest added rq)
                                        (Batched.rejectedForRequest rejectedGlobal rq)))
               pend).
    change (settle_each ?g (settle ?w ?o ?P)) with (settle_each (([w], o) :: g) P).
    apply accounted_settle_each. cbn [fmap list_fmap fst concat app].
    rewrite singles_concat. rewrite app_nil_r.
    eapply accounted_perm; [| exact IH]. cbn.
    rewrite app_assoc. apply Permutation_app_comm.
Qed.

End accounted_queues.

(** X16: no caller is forgotten and none is answered while still queued:
    in every reachable state of the three client queues and of the batching
    server, each promise handed out so far is either still owed (it waits in
    the pending state or in a flush whose dispatcher call is in flight) and
    not settled, or it is settled and held nowhere; the promises owed are
    distinct. *)
Theorem no_caller_forgotten :
  (∀ Request Result (key : Request → string)
     (w : BatchQueryQueue.World Request Result) (p : nat),
     BatchQueryQueue.reachable key w →
     (p < next_promise (BatchQueryQueue.promises w))%nat →
     NoDup (BatchQueryQueue_live w)
     ∧ ((p ∈ BatchQueryQueue_live w ∧ settled (BatchQueryQueue.promises w) !! p = None)
        ∨ ((p ∉ BatchQueryQueue_live w)
           ∧ is_Some (settled (BatchQueryQueue.promises w) !! p))))
  ∧ (∀ (w : AddQueue.World) (p : nat),
       AddQueue.reachable w →
       (p < next_promise (AddQueue.promises w))%nat →
       NoDup (AddQueue_live w)
       ∧ ((p ∈ AddQueue_live w ∧ settled (AddQueue.promises w) !! p = None)
          ∨ ((p ∉ AddQueue_live w) ∧ is_Some (settled (AddQueue.promises w) !! p))))
  ∧ (∀ TPayload TResult (w : LatestPayloadQueue.World TPayload TResult) (p : nat),
       LatestPayloadQueue.reachable w →
       (p < next_promise (LatestPayloadQueue.promises w))%nat →
       NoDup (LatestPayloadQueue_live w)
       ∧ ((p ∈ LatestPayloadQueue_live w
           ∧ settled (LatestPayloadQueue.promises w) !! p = None)
          ∨ ((p ∉ LatestPayloadQueue_live w)
             ∧ is_Some (settled (LatestPayloadQueue.promises w) !! p))))
  ∧ (∀ (s : Batched.Server) (p : nat),
       Batched.reachable s →
       (p < next_promise (Batched.promises s))%nat →
       NoDup (Batched_live s)
       ∧ ((p ∈ Batched_live s ∧ settled (Batched.promises s) !! p = None)
          ∨ ((p ∉ Batched_live s) ∧ is_Some (settled (Batched.promises s) !! p)))).
Proof.
  split_and!.
  - intros Rq Rs key w p Hw Hp.
    pose proof (BatchQueryQueue_ledger key w Hw) as HL.
    split; [by destruct HL |].
    apply owed_or_settled; [done | by apply (BatchQueryQueue_accounted key) | done].
  - intros w p Hw Hp. pose proof (AddQueue_ledger w Hw) as HL.
    split; [by destruct HL |].
    apply owed_or_settled; [done | by apply AddQueue_accounted | done].
  - intros Pl Rs w p Hw Hp. pose proof (LatestPayloadQueue_ledger w Hw) as HL.
    split; [by destruct HL |].
    apply owed_or_settled; [done | by apply LatestPayloadQueue_accounted | done].
  - intros s p Hs Hp. pose proof (Batched_ledger s Hs) as HL.
    split; [by destruct HL |].
    apply owed_or_settled; [done | by apply Batched_accounted | done].
Qed.

Lemma no_caller_forgotten_witness :
  let w0 := (AddQueue.enqueue AddQueue.init (Int 1000001)).2 in
  let w1 := (AddQueue.enqueue w0 (Int 0)).2 in
  let w := AddQueue.fire 0 w1 in
  NoDup (AddQueue_live w)
  ∧ ((0%nat ∈ AddQueue_live w ∧ settled (AddQueue.promises w) !! 0%nat = None)
     ∨ ((0%nat ∉ AddQueue_live w) ∧ is_Some (settled (AddQueue.promises w) !! 0%nat))).
Proof.
  intros w0 w1 w.
  apply (proj1 (proj2 no_caller_forgotten) w 0%nat).
  - eapply AddQueue.reachable_step; [| apply AddQueue.step_fire; vm_compute; left].
    eapply AddQueue.reachable_step; [| apply AddQueue.step_enqueue].
    eapply AddQueue.reachable_step; [apply AddQueue.reachable_init |].
    apply AddQueue.step_enqueue.
  - vm_compute. lia.
Defined.

(** ** What the client queues hand to their dispatcher *)

(** X17: what the dispatchers are given: every list of requests
    [BatchQueryQueue] hands to its dispatcher is non-empty, holds no two
    requests with the same key and none without key; every list of ids
    [AddQueue] hands to its dispatcher is non-empty and holds distinct
    positive integers.  So the guards for an empty list in the dispatchers
    of the client never fire: each call goes to the server. *)
Theorem dispatcher_input_wellformed :
  (∀ Request Result (key : Request → string)
     (w : BatchQueryQueue.World Request Result) (requests : list Request),
     BatchQueryQueue.reachable key w →
     requests ∈ BatchQueryQueue.calls w →
     requests ≠ [] ∧ NoDup (map key requests)
     ∧ (∀ r, r ∈ requests → key r ≠ EmptyString))
  ∧ (∀ (w : BatchQueryQueue.World Query QueryResult) (requests : list Query)
       (postJson : list Query → JsError + gmap string QueryResult),
       BatchQueryQueue.reachable q_key w →
       requests ∈ BatchQueryQueue.calls w →
       Client.query_dispatcher postJson requests = postJson requests)
  ∧ (∀ (w : AddQueue.World) (ids : list Z)
       (postJson : list JsValue → JsError + AddQueue.AddResponse),
       AddQueue.reachable w →
       ids ∈ AddQueue.calls w →
       ids ≠ [] ∧ NoDup ids ∧ (∀ id, id ∈ ids → 0 < id)
       ∧ Client.add_dispatcher postJson ids
         = postJson (map (λ id, VNum (Int id)) ids)).
Proof.
  split_and!.
  - intros Rq Rs key w requests Hw Hin.
    destruct (BatchQueryQueue_wellkeyed key w Hw) as (_ & _ & Hcalls & _).
    by apply Hcalls.
  - intros w requests postJson Hw Hin.
    destruct (BatchQueryQueue_wellkeyed q_key w Hw) as (_ & _ & Hcalls & _).
    destruct (Hcalls requests Hin) as (Hne & _). by destruct requests.
  - intros w ids postJson Hw Hin.
    destruct (AddQueue_wellkeyed w Hw) as (_ & _ & Hcalls & _).
    destruct (Hcalls ids Hin) as (Hne & Hnd & Hpos).
    split_and!; [done | done | done |]. by destruct ids.
Qed.

Lemma dispatcher_input_wellformed_witness :
  let w0 := (AddQueue.enqueue AddQueue.init (Int 1000001)).2 in
  let w1 := (AddQueue.enqueue w0 (Int 7)).2 in
  let w2 := (AddQueue.enqueue w1 (Int 1000001)).2 in
  let w := AddQueue.fire 0 w2 in
  let postJson := Client.post_items_batch initStore in
  AddQueue.calls w = [[1000001; 7]]
  ∧ NoDup [1000001; 7]
  ∧ Client.add_dispatcher postJson [1000001; 7]
    = postJson [VNum (Int 1000001); VNum (Int 7)].
Proof.
  intros w0 w1 w2 w postJson. split; [reflexivity |].
  assert (Hw : AddQueue.reachable w).
  { eapply AddQueue.reachable_step; [| apply AddQueue.step_fire; vm_compute; left].
    eapply AddQueue.reachable_step; [| apply AddQueue.step_enqueue].
    eapply AddQueue.reachable_step; [| apply AddQueue.step_enqueue].
    eapply AddQueue.reachable_step; [apply AddQueue.reachable_init |].
    apply AddQueue.step_enqueue. }
  destruct (proj2 (proj2 dispatcher_input_wellformed) w [1000001; 7] postJson Hw)
    as (_ & Hnd & _ & Hd); [vm_compute; left |].
  by split.
Defined.

(** X18: a request the queue cannot take is refused at once and goes no
    further: [BatchQueryQueue.enqueue] with a request without key, and
    [AddQueue.enqueue] with an id that is no positive integer, return a
    promise that is already rejected with the validation message; the
    pending state, the timer, the timeouts, the dispatcher calls and every
    other promise are as before.  [enqueueAddition] of the client without
    queues fails with the same message without calling the server. *)
Theorem invalid_request_refused_at_once :
  (∀ Request Result (key : Request → string)
     (w : BatchQueryQueue.World Request Result) (req : Request),
     BatchQueryQueue.reachable key w →
     key req = EmptyString →
     let e := BatchQueryQueue.enqueue key w req in
     settled (BatchQueryQueue.promises e.2) !! e.1 = Some (Rejected MSG_NO_KEY)
     ∧ (∀ p, p ≠ e.1 →
          settled (BatchQueryQueue.promises e.2) !! p
          = settled (BatchQueryQueue.promises w) !! p)
     ∧ BatchQueryQueue.pending e.2 = BatchQueryQueue.pending w
     ∧ BatchQueryQueue.timer e.2 = BatchQueryQueue.timer w
     ∧ BatchQueryQueue.clock e.2 = BatchQueryQueue.clock w
     ∧ BatchQueryQueue.calls e.2 = BatchQueryQueue.calls w
     ∧ BatchQueryQueue.inflight e.2 = BatchQueryQueue.inflight w)
  ∧ (∀ (w : AddQueue.World) (id : JsNum),
       AddQueue.reachable w →
       invalid_id id →
       let e := AddQueue.enqueue w id in
       settled (AddQueue.promises e.2) !! e.1 = Some (Rejected REASON_FORMAT)
       ∧ (∀ p, p ≠ e.1 →
            settled (AddQueue.promises e.2) !! p = settled (AddQueue.promises w) !! p)
       ∧ AddQueue.pending e.2 = AddQueue.pending w
       ∧ AddQueue.timer e.2 = AddQueue.timer w
       ∧ AddQueue.clock e.2 = AddQueue.clock w
       ∧ AddQueue.calls e.2 = AddQueue.calls w
       ∧ AddQueue.inflight e.2 = AddQueue.inflight w)
  ∧ (∀ (postJson : list JsValue → JsError + AddQueue.AddResponse) (id : JsNum),
       invalid_id id → Client.enqueueAddition postJson id = inl REASON_FORMAT).
Proof.
  split_and!.
  - intros Rq Rs key w req Hw Hk. cbn zeta.
    destruct (BatchQueryQueue_ledger key w Hw) as (_ & _ & Hlt).
    assert (Hfresh : settled (BatchQueryQueue.promises w)
                       !! next_promise (BatchQueryQueue.promises w) = None).
    { destruct (settled _ !! _) eqn:E; [| done].
      assert (next_promise (BatchQueryQueue.promises w)
              < next_promise (BatchQueryQueue.promises w))%nat by (apply Hlt; eauto).
      lia. }
    unfold BatchQueryQueue.enqueue. cbn [newPromise].
    rewrite bool_decide_eq_true_2 by done.
    cbn [fst snd BatchQueryQueue.promises BatchQueryQueue.pending BatchQueryQueue.timer
         BatchQueryQueue.clock BatchQueryQueue.calls BatchQueryQueue.inflight].
    split_and!; try done.
    + rewrite settle_lookup. cbn [settled]. rewrite Hfresh. by rewrite decide_True.
    + intros p Hp. rewrite settle_lookup. cbn [settled].
      destruct (settled (BatchQueryQueue.promises w) !! p); [done |].
      by rewrite decide_False.
  - intros w id Hw Hid. cbn zeta.
    destruct (AddQueue_ledger w Hw) as (_ & _ & Hlt).
    assert (Hfresh : settled (AddQueue.promises w)
                       !! next_promise (AddQueue.promises w) = None).
    { destruct (settled _ !! _) eqn:E; [| done].
      assert (next_promise (AddQueue.promises w)
              < next_promise (AddQueue.promises w))%nat by (apply Hlt; eauto).
      lia. }
    assert (He : AddQueue.enqueue w id
                 = (next_promise (AddQueue.promises w),
                    AddQueue.mkWorld (AddQueue.pending w) (AddQueue.timer w)
                      (AddQueue.clock w)
                      (settle (next_promise (AddQueue.promises w))
                         (Rejected REASON_FORMAT) (newPromise (AddQueue.promises w)).2)
                      (AddQueue.calls w) (AddQueue.inflight w))).
    { unfold AddQueue.enqueue. cbn [newPromise]. destruct id as [z |]; [| done].
      cbn in Hid. by rewrite (proj2 (Z.leb_le z 0)) by done. }
    rewrite He.
    cbn [fst snd AddQueue.promises AddQueue.pending AddQueue.timer
         AddQueue.clock AddQueue.calls AddQueue.inflight].
    split_and!; try done.
    + rewrite settle_lookup. cbn [settled newPromise snd]. rewrite Hfresh.
      by rewrite decide_True.
    + intros p Hp. rewrite settle_lookup. cbn [settled newPromise snd].
      destruct (settled (AddQueue.promises w) !! p); [done |].
      by rewrite decide_False.
  - intros postJson id Hid. unfold Client.enqueueAddition.
    destruct id as [z |]; [| done]. cbn in Hid.
    by rewrite (proj2 (Z.leb_le z 0)) by done.
Qed.

Lemma invalid_request_refused_at_once_witness :
  let w := (AddQueue.enqueue AddQueue.init (Int 1000001)).2 in
  let e := AddQueue.enqueue w (NonInt 0) in
  settled (AddQueue.promises e.2) !! e.1 = Some (Rejected REASON_FORMAT)
  ∧ (∀ p, p ≠ e.1 →
       settled (AddQueue.promises e.2) !! p = settled (AddQueue.promises w) !! p)
  ∧ AddQueue.pending e.2 = AddQueue.pending w
  ∧ AddQueue.timer e.2 = AddQueue.timer w
  ∧ AddQueue.clock e.2 = AddQueue.clock w
  ∧ AddQueue.calls e.2 = AddQueue.calls w
  ∧ AddQueue.inflight e.2 = AddQueue.inflight w.
Proof.
  intros w.
  apply (proj1 (proj2 invalid_request_refused_at_once) w (NonInt 0)); [| exact I].
  eapply AddQueue.reachable_step; [apply AddQueue.reachable_init |].
  apply AddQueue.step_enqueue.
Defined.

(** X19: an answer of the dispatcher that lacks a key: when the call of a
    flush of [BatchQueryQueue] completes with an object, the waiters of
    each captured key that is not the name of a member of
    [Object.prototype] are settled by that key alone: resolved with the
    result the object holds for the key, rejected with the missing-result
    message when it holds none, whatever it holds for the other keys. *)
Theorem missing_result_rejects_its_key {Request Result} (key : Request → string)
    (w : BatchQueryQueue.World Request Result) (i : nat)
    (entries : list (string * BatchQueryQueue.Entry Request))
    (responseMap : gmap string Result) (k : string)
    (e : BatchQueryQueue.Entry Request) (p : nat) :
  BatchQueryQueue.reachable key w →
  BatchQueryQueue.inflight w !! i = Some entries →
  (k, e) ∈ entries → p ∈ BatchQueryQueue.resolvers e →
  plain_key k →
  let w' := BatchQueryQueue.complete i (inr responseMap) w in
  settled (BatchQueryQueue.promises w') !! p
  = Some (match responseMap !! k with
          | Some result => Resolved result
          | None => Rejected MSG_NO_RESULT
          end)
  ∧ settled (BatchQueryQueue.promises w) !! p = None
  ∧ BatchQueryQueue.inflight w' = delete i (BatchQueryQueue.inflight w)
  ∧ BatchQueryQueue.pending w' = BatchQueryQueue.pending w
  ∧ BatchQueryQueue.calls w' = BatchQueryQueue.calls w.
Proof.
  intros Hw Hi He Hp _. cbn zeta.
  rewrite (BatchQueryQueue_complete_lookup key w i entries _ k e p Hw Hi He Hp).
  split_and!.
  - unfold BatchQueryQueue_outcome. by destruct (responseMap !! k).
  - apply (ledger_unsettled _ _ _ (BatchQueryQueue_ledger key w Hw)).
    unfold BatchQueryQueue_live. apply elem_of_app. right.
    apply elem_of_concat. exists (BatchQueryQueue.waiters entries). split.
    + apply list_elem_of_fmap. exists entries. split; [done |].
      by eapply list_elem_of_lookup_2.
    + apply elem_of_concat. exists (BatchQueryQueue.resolvers e). split; [| done].
      apply list_elem_of_fmap. by exists (k, e).
  - unfold BatchQueryQueue.complete. by rewrite Hi.
  - unfold BatchQueryQueue.complete. by rewrite Hi.
  - unfold BatchQueryQueue.complete. by rewrite Hi.
Qed.

Lemma missing_result_rejects_its_key_witness :
  let key := λ r : string, r in
  let w0 := (BatchQueryQueue.enqueue key (@BatchQueryQueue.init string nat) "a").2 in
  let w1 := (BatchQueryQueue.enqueue key w0 "b").2 in
  let w := BatchQueryQueue.fire 0 w1 in
  let responseMap : gmap string nat := {[ "a" := 7%nat ]} in
  let w' := BatchQueryQueue.complete 0 (inr responseMap) w in
  settled (BatchQueryQueue.promises w') !! 1%nat = Some (Rejected MSG_NO_RESULT)
  ∧ settled (BatchQueryQueue.promises w') !! 0%nat = Some (Resolved 7%nat).
Proof.
  intros key w0 w1 w responseMap w'.
  assert (Hw : BatchQueryQueue.reachable key w).
  { eapply BatchQueryQueue.reachable_step;
      [| apply BatchQueryQueue.step_fire; vm_compute; left].
    eapply BatchQueryQueue.reachable_step; [| apply BatchQueryQueue.step_enqueue].
    eapply BatchQueryQueue.reachable_step; [apply BatchQueryQueue.reachable_init |].
    apply BatchQueryQueue.step_enqueue. }
  split.
  - apply (missing_result_rejects_its_key key w 0
             [("a", BatchQueryQueue.mkEntry "a" [0%nat]);
              ("b", BatchQueryQueue.mkEntry "b" [1%nat])]
             responseMap "b" (BatchQueryQueue.mkEntry "b" [1%nat]) 1%nat Hw eq_refl).
    + right. left.
    + left.
    + apply (bool_decide_unpack _). vm_compute. exact I.
  - apply (missing_result_rejects_its_key key w 0
             [("a", BatchQueryQueue.mkEntry "a" [0%nat]);
              ("b", BatchQueryQueue.mkEntry "b" [1%nat])]
             responseMap "a" (BatchQueryQueue.mkEntry "a" [0%nat]) 0%nat Hw eq_refl).
    + left.
    + left.
    + apply (bool_decide_unpack _). vm_compute. exact I.
Defined.

(** ** What a caller of an addition is told *)

Section addition_outcome.
Implicit Types (st : Store) (ids : list Z) (id : Z).

Lemma get_foldl_set {K V E} `{EqDecision K} (f : E → K) (g : E → V)
    (l : list E) (m0 : list (K * V)) (k : K) :
  JsMap.get k (foldl (λ m r, JsMap.set (f r) (g r) m) m0 l)
  = match last (filter (λ r, f r = k) l) with
    | Some r => Some (g r)
    | None => JsMap.get k m0
    end.
Proof.
  induction l as [| r l IH] using rev_ind; [done |].
  rewrite foldl_snoc, get_set, filter_app.
  destruct (decide (k = f r)) as [-> | Hne].
  - rewrite filter_cons_True by done. rewrite filter_nil. by rewrite last_snoc.
  - rewrite filter_cons_False by congruence. by rewrite filter_nil, app_nil_r.
Qed.

Lemma find_reason_head id (rejected : list Rejection) :
  Client.find_reason id rejected
  = rej_reason <$> head (filter (λ r, Number (rej_id r) = Int id) rejected).
Proof.
  induction rejected as [| r rejected IH]; [done |].
  cbn [Client.find_reason]. rewrite filter_cons.
  destruct (decide (Number (rej_id r) = Int id)); [done | exact IH].
Qed.

Lemma verdict_of_id st id :
  0 < id →
  spec_verdict (addedIds st) (VNum (Int id))
  = if decide (id ≤ BASE_MAX_ID) then RejectedAs REASON_BASE
    else if decide (id ∈ addedIds st) then RejectedAs REASON_ADDED
    else Accepted id.
Proof.
  intros Hpos. unfold spec_verdict. cbn [Number].
  rewrite decide_False by lia.
  destruct (decide (id ≤ BASE_MAX_ID)).
  - by rewrite decide_True by lia.
  - by rewrite decide_False by lia.
Qed.

Lemma accepted_number st ids id :
  id ∈ spec_accepted (addedIds st) (map (λ id, VNum (Int id)) ids)
  ↔ id ∈ ids ∧ spec_verdict (addedIds st) (VNum (Int id)) = Accepted id.
Proof.
  unfold spec_accepted. rewrite list_elem_of_omap. split.
  - intros (raw & (z & -> & Hz)%list_elem_of_fmap & Hv).
    destruct (spec_verdict (addedIds st) (VNum (Int z))) as [id' |] eqn:Ev; [| done].
    injection Hv as ->.
    assert (z = id) as ->; [| done].
    unfold spec_verdict in Ev. cbn [Number] in Ev.
    repeat case_decide; try done. by injection Ev.
  - intros [Hin Hv]. exists (VNum (Int id)). split.
    + apply list_elem_of_fmap. by exists id.
    + by rewrite Hv.
Qed.

Lemma rejected_records st ids id reason :
  id ∈ ids →
  spec_verdict (addedIds st) (VNum (Int id)) = RejectedAs reason →
  ∃ r recs,
    filter (λ r, Number (rej_id r) = Int id)
           (spec_rejected (addedIds st) (map (λ id, VNum (Int id)) ids))
    = r :: recs
    ∧ ∀ r', r' ∈ r :: recs → rej_reason r' = reason.
Proof.
  intros Hin Hv.
  set (recs := filter _ _).
  assert (Hall : ∀ r', r' ∈ recs → rej_reason r' = reason).
  { intros r' [Hn Hr]%list_elem_of_filter.
    unfold spec_rejected in Hr.
    apply list_elem_of_omap in Hr as (raw & (z & -> & Hz)%list_elem_of_fmap & Hr).
    destruct (spec_verdict (addedIds st) (VNum (Int z))) as [| reason'] eqn:Ev; [done |].
    injection Hr as <-. rewrite rejection_of_number in Hn |- *.
    cbn in Hn. injection Hn as ->. cbn. congruence. }
  assert (Hex : mkRejection (VNum (Int id)) reason ∈ recs).
  { apply list_elem_of_filter. split; [done |].
    unfold spec_rejected. apply list_elem_of_omap. exists (VNum (Int id)). split.
    - apply list_elem_of_fmap. by exists id.
    - by rewrite Hv, rejection_of_number. }
  destruct recs as [| r recs']; [by apply elem_of_nil in Hex |].
  by exists r, recs'.
Qed.

(** The payload computed from the answer of the server for one of the ids
    sent. *)
Lemma payload_for_reply st ids id :
  id ∈ ids →
  let batch := add_batch st (map (λ id, VNum (Int id)) ids) in
  AddQueue.payload_for (Client.add_reply batch.1.1 batch.1.2) id
  = match spec_verdict (addedIds st) (VNum (Int id)) with
    | Accepted _ =>
        AddQueue.mkAddQueueResult id true
          ("ID " +:+ String_of id +:+ " успешно добавлен")
    | RejectedAs reason => AddQueue.mkAddQueueResult id false reason
    end.
Proof.
  intros Hin. cbn zeta. unfold AddQueue.payload_for, Client.add_reply.
  cbn [AddQueue.added AddQueue.rejected].
  destruct (spec_verdict (addedIds st) (VNum (Int id))) as [id' | reason] eqn:Ev.
  - assert (Hadd : id ∈ (add_batch st (map (λ id, VNum (Int id)) ids)).1.1).
    { apply added_elem, accepted_number. split; [done |].
      unfold spec_verdict in Ev |- *. cbn [Number] in Ev |- *.
      repeat case_decide; try done. }
    rewrite (proj2 (has_true _ _)); [done |].
    apply elem_of_of_list, list_elem_of_fmap. by exists id.
  - rewrite (proj2 (has_false _ _)).
    + rewrite add_batch_eq. cbn [fst snd]. unfold AddQueue.rejectedMap_of.
      rewrite get_foldl_set.
      destruct (rejected_records st ids id reason Hin Ev) as (r & recs & -> & Hall).
      destruct (last (r :: recs)) as [r' |] eqn:El.
      * cbn. f_equal. apply Hall. by apply last_Some_elem_of in El.
      * by apply last_None in El.
    + rewrite elem_of_of_list, list_elem_of_fmap.
      intros (z & [= <-] & Hz). apply added_elem, accepted_number in Hz as [_ Hz].
      congruence.
Qed.

Lemma expected_of_verdict st id :
  0 < id →
  match spec_verdict (addedIds st) (VNum (Int id)) with
  | Accepted _ =>
      AddQueue.mkAddQueueResult id true
        ("ID " +:+ String_of id +:+ " успешно добавлен")
  | RejectedAs reason => AddQueue.mkAddQueueResult id false reason
  end
  = if decide (id ≤ BASE_MAX_ID) then AddQueue.mkAddQueueResult id false REASON_BASE
    else if decide (id ∈ addedIds st)
      then AddQueue.mkAddQueueResult id false REASON_ADDED
    else AddQueue.mkAddQueueResult id true
           ("ID " +:+ String_of id +:+ " успешно добавлен").
Proof. intros Hpos. rewrite verdict_of_id by done. by repeat case_decide. Qed.

Lemma addition_outcome_reported_aux st ids id :
  id ∈ ids → 0 < id →
  ∃ response,
    Client.add_dispatcher (Client.post_items_batch st) ids = inr response
    ∧ AddQueue.payload_for response id
      = if decide (id ≤ BASE_MAX_ID)
        then AddQueue.mkAddQueueResult id false REASON_BASE
        else if decide (id ∈ addedIds st)
          then AddQueue.mkAddQueueResult id false REASON_ADDED
        else AddQueue.mkAddQueueResult id true
               ("ID " +:+ String_of id +:+ " успешно добавлен").
Proof.
  intros Hin Hpos. rewrite <- expected_of_verdict by done.
  exists (Client.add_reply
            (add_batch st (map (λ id, VNum (Int id)) ids)).1.1
            (add_batch st (map (λ id, VNum (Int id)) ids)).1.2).
  split; [| by apply payload_for_reply].
  unfold Client.add_dispatcher, Client.post_items_batch.
  destruct ids; [by apply elem_of_nil in Hin | reflexivity].
Qed.

End addition_outcome.

(** X20: what a caller of an addition is told, against the unbatched
    server: for a positive integer [id] among the ids one dispatcher call of
    [AddQueue] sends, the payload computed for [id] from the answer, and the
    result of [enqueueAddition] of the client without queues, are the same:
    failure with the base-set message when [id] lies in the base range,
    failure with the already-added message when it is in the overflow set,
    success with the message naming the id otherwise; success is reported
    exactly for the ids the server adds. *)
Theorem addition_outcome_reported (st : Store) (ids : list Z) (id : Z) :
  id ∈ ids → 0 < id →
  let expected :=
    if decide (id ≤ BASE_MAX_ID) then AddQueue.mkAddQueueResult id false REASON_BASE
    else if decide (id ∈ addedIds st)
      then AddQueue.mkAddQueueResult id false REASON_ADDED
    else AddQueue.mkAddQueueResult id true
           ("ID " +:+ String_of id +:+ " успешно добавлен") in
  (∃ response,
     Client.add_dispatcher (Client.post_items_batch st) ids = inr response
     ∧ AddQueue.payload_for response id = expected)
  ∧ Client.enqueueAddition (Client.post_items_batch st) (Int id) = inr expected
  ∧ (AddQueue.aq_success expected = true
     ↔ id ∈ (add_batch st (map (λ id, VNum (Int id)) ids)).1.1).
Proof.
  intros Hin Hpos. cbn zeta.
  pose proof (expected_of_verdict st id Hpos) as Hexp.
  rewrite <- Hexp. split_and!.
  - rewrite Hexp. by apply addition_outcome_reported_aux.
  - unfold Client.enqueueAddition. rewrite (proj2 (Z.leb_gt id 0)) by done.
    unfold Client.post_items_batch.
    pose proof (payload_for_reply st [id] id ltac:(left)) as Hp. cbn zeta in Hp.
    rewrite <- Hp. unfold AddQueue.payload_for, Client.add_reply.
    cbn [AddQueue.added AddQueue.rejected map].
    set (batch := add_batch st [VNum (Int id)]).
    assert (Hhas : JsSet.has (Int id) (JsSet.of_list (map Int batch.1.1))
                   = JsSet.has (Int id) (map Int batch.1.1)).
    { destruct (JsSet.has (Int id) (map Int batch.1.1)) eqn:E.
      - apply has_true in E. by apply has_true, elem_of_of_list.
      - apply has_false in E. apply has_false. by rewrite elem_of_of_list. }
    rewrite Hhas. destruct (JsSet.has (Int id) (map Int batch.1.1)); [done |].
    do 2 f_equal. rewrite find_reason_head.
    unfold AddQueue.rejectedMap_of. rewrite get_foldl_set.
    subst batch. rewrite add_batch_eq. cbn [fst snd].
    unfold spec_rejected. cbn [omap list_omap].
    destruct (spec_verdict (addedIds st) (VNum (Int id))) as [| reason]; [done |].
    cbn [mbind option_bind app]. rewrite rejection_of_number.
    rewrite filter_cons_True by done. done.
  - rewrite added_elem, accepted_number.
    destruct (spec_verdict (addedIds st) (VNum (Int id))) as [id' | reason] eqn:Ev;
      cbn [AddQueue.aq_success].
    + split; [intros _ | done]. split; [done |].
      unfold spec_verdict in Ev |- *. cbn [Number] in Ev |- *.
      repeat case_decide; try done.
    + split; [done | intros [_ ?]; done].
Qed.

Lemma addition_outcome_reported_witness :
  let st := Direct.run initStore [Direct.PostItemsBatch (Some [VNum (Int 1000002)])] in
  let ids := [1000001; 7; 1000002] in
  (∃ response,
     Client.add_dispatcher (Client.post_items_batch st) ids = inr response
     ∧ AddQueue.payload_for response 1000002
       = AddQueue.mkAddQueueResult 1000002 false REASON_ADDED)
  ∧ Client.enqueueAddition (Client.post_items_batch st) (Int 1000002)
    = inr (AddQueue.mkAddQueueResult 1000002 false REASON_ADDED).
Proof.
  intros st ids.
  destruct (addition_outcome_reported st ids 1000002) as (H1 & H2 & _).
  - right. right. left.
  - lia.
  - split; [exact H1 | exact H2].
Defined.

(** X21: an addition through the queue: when the dispatcher call of a flush
    of [AddQueue] is served by the unbatched server on the store [st], every
    caller that waits for the id [id] in that flush is resolved with the
    outcome of [id] on [st]: failure with the base-set message when [id]
    lies in the base range, failure with the already-added message when it
    is in the overflow set, success otherwise; the ids of a flush are
    positive and distinct. *)
Theorem addition_through_queue (w : AddQueue.World) (i : nat)
    (entries : list (Z * list nat)) (id : Z) (ws : list nat) (p : nat) (st : Store) :
  AddQueue.reachable w →
  AddQueue.inflight w !! i = Some entries →
  (id, ws) ∈ entries → p ∈ ws →
  let outcome := Client.add_dispatcher (Client.post_items_batch st) entries.*1 in
  let w' := AddQueue.complete i outcome w in
  let expected :=
    if decide (id ≤ BASE_MAX_ID) then AddQueue.mkAddQueueResult id false REASON_BASE
    else if decide (id ∈ addedIds st)
      then AddQueue.mkAddQueueResult id false REASON_ADDED
    else AddQueue.mkAddQueueResult id true
           ("ID " +:+ String_of id +:+ " успешно добавлен") in
  settled (AddQueue.promises w') !! p = Some (Resolved expected)
  ∧ 0 < id ∧ NoDup entries.*1.
Proof.
  intros Hw Hi He Hp. cbn zeta.
  destruct (AddQueue_wellkeyed w Hw) as (_ & _ & _ & Hfl).
  destruct (Hfl entries) as [Hnd Hpos]; [by eapply list_elem_of_lookup_2 |].
  assert (Hin : id ∈ entries.*1) by (apply list_elem_of_fmap; by exists (id, ws)).
  split_and!; [| by apply Hpos | done].
  rewrite (AddQueue_complete_lookup w i entries _ id ws p Hw Hi He Hp).
  destruct (addition_outcome_reported_aux st entries.*1 id Hin (Hpos id Hin))
    as (response & -> & <-).
  done.
Qed.

Lemma addition_through_queue_witness :
  let w0 := (AddQueue.enqueue AddQueue.init (Int 1000001)).2 in
  let w1 := (AddQueue.enqueue w0 (Int 7)).2 in
  let w := AddQueue.fire 0 w1 in
  let outcome := Client.add_dispatcher (Client.post_items_batch initStore) [1000001; 7] in
  let w' := AddQueue.complete 0 outcome w in
  settled (AddQueue.promises w') !! 1%nat
  = Some (Resolved (AddQueue.mkAddQueueResult 7 false REASON_BASE))
  ∧ 0 < 7 ∧ NoDup [1000001; 7].
Proof.
  intros w0 w1 w.
  apply (addition_through_queue w 0 [(1000001, [0%nat]); (7, [1%nat])] 7 [1%nat] 1%nat
           initStore).
  - eapply AddQueue.reachable_step; [| apply AddQueue.step_fire; vm_compute; left].
    eapply AddQueue.reachable_step; [| apply AddQueue.step_enqueue].
    eapply AddQueue.reachable_step; [apply AddQueue.reachable_init |].
    apply AddQueue.step_enqueue.
  - reflexivity.
  - right. left.
  - left.
Defined.

(** ** What the query batcher answers *)

Section query_batcher.
Implicit Types (st : Store) (q : Query) (k : string)
  (results : gmap string QueryResult).

Lemma query_answer_stable st st' q :
  store_ok st → store_ok st' →
  addedIds st' = addedIds st → selectedIds st' = selectedIds st →
  query_answer st' q = query_answer st q.
Proof.
  intros Hok Hok' Ha Hs. unfold query_answer. destruct (q_type q); [| | | done].
  - rewrite !buildAvailableResult_eq by done. cbn zeta. by rewrite Ha, Hs.
  - rewrite !buildSelectedResult_eq. cbn zeta. by rewrite Hs.
  - by rewrite Hs.
Qed.

Lemma run_query_lookup results st q k :
  (run_query (results, st) q).1 !! k
  = if decide (q_key q = k) then
      match query_answer st q with
      | Some r => Some r
      | None => results !! k
      end
    else results !! k.
Proof.
  unfold run_query, query_answer. destruct (q_type q).
  - destruct (buildAvailableResult _ _ _ _) as [r st']. cbn [fst].
    destruct (decide (q_key q = k)) as [<- | Hne];
      [by rewrite lookup_insert_eq | by rewrite lookup_insert_ne].
  - cbn [fst]. destruct (decide (q_key q = k)) as [<- | Hne];
      [by rewrite lookup_insert_eq | by rewrite lookup_insert_ne].
  - cbn [fst]. destruct (decide (q_key q = k)) as [<- | Hne];
      [by rewrite lookup_insert_eq | by rewrite lookup_insert_ne].
  - cbn [fst]. by destruct (decide (q_key q = k)).
Qed.









End query_batcher.

Section query_answers.
Implicit Types (st : Store) (q : Query) (k : string).

Lemma query_answer_None st q : query_answer st q = None ↔ q_type q = UnknownType.
Proof. unfold query_answer. by destruct (q_type q). Qed.

(** The results of [POST /api/query] of the unbatched server, key by key. *)
Lemma Direct_results st (queries : list Query) (results0 : gmap string QueryResult) k :
  store_ok st →
  (foldl (λ acc query,
            if bool_decide (q_key query = EmptyString) then acc
            else run_query acc query) (results0, st) queries).1 !! k
  = match last (filter (λ q, q_key q = k ∧ q_key q ≠ EmptyString
                             ∧ q_type q ≠ UnknownType) queries) with
    | Some q => query_answer st q
    | None => results0 !! k
    end.
Proof.
  intros Hok. induction queries as [| q qs IH] using rev_ind; [done |].
  rewrite foldl_snoc, filter_app.
  match goal with |- context [foldl ?f (results0, st) qs] =>
    destruct (run_queries_ok f qs results0 st) as (Hok1 & Ha & Hs);
      [intros acc q'; case_bool_decide; [by left | by right] | done |];
    destruct (foldl f (results0, st) qs) as [results1 st1] end.
  cbn [fst snd] in *.
  case_bool_decide as Hk.
  { rewrite filter_cons_False by tauto. by rewrite filter_nil, app_nil_r. }
  rewrite run_query_lookup, (query_answer_stable st st1 q Hok Hok1 Ha Hs).
  destruct (decide (q_key q = k)) as [Hqk | Hne].
  - destruct (query_answer st q) as [r |] eqn:Eq.
    + rewrite filter_cons_True.
      * rewrite filter_nil, last_snoc. by rewrite Eq.
      * split_and!; [done | done |]. intros Hu%(query_answer_None st). congruence.
    + apply query_answer_None in Eq.
      rewrite filter_cons_False by tauto. by rewrite filter_nil, app_nil_r.
  - rewrite filter_cons_False by tauto. by rewrite filter_nil, app_nil_r.
Qed.



End query_answers.





(** X24: a query through the queue: when the dispatcher call of a flush of
    the client's [BatchQueryQueue] is served by the unbatched server on a
    store it can be in, every caller that waits in that flush for a key
    that is not the name of a member of [Object.prototype] is resolved with
    what the server's builder computes for the request kept under that key,
    and rejected with the missing-result message when the type of that
    request is none the server knows; the key is the key of that request
    and is not empty. *)
Theorem query_through_queue (w : BatchQueryQueue.World Query QueryResult) (i : nat)
    (entries : list (string * BatchQueryQueue.Entry Query)) (k : string)
    (e : BatchQueryQueue.Entry Query) (p : nat) (st : Store) :
  BatchQueryQueue.reachable q_key w →
  BatchQueryQueue.inflight w !! i = Some entries →
  (k, e) ∈ entries → p ∈ BatchQueryQueue.resolvers e →
  store_reachable st →
  plain_key k →
  let requests := map (λ x, BatchQueryQueue.request x.2) entries in
  let outcome := Client.query_dispatcher (Client.post_query st) requests in
  let w' := BatchQueryQueue.complete i outcome w in
  settled (BatchQueryQueue.promises w') !! p
  = Some (match query_answer st (BatchQueryQueue.request e) with
          | Some result => Resolved result
          | None => Rejected MSG_NO_RESULT
          end)
  ∧ q_key (BatchQueryQueue.request e) = k ∧ k ≠ EmptyString.
Proof.
  intros Hw Hi He Hp Hst _. cbn zeta.
  pose proof (store_reachable_ok st Hst) as Hok.
  destruct (BatchQueryQueue_wellkeyed q_key w Hw) as (_ & _ & _ & Hfl).
  destruct (Hfl entries) as [Hkeyed Hne]; [by eapply list_elem_of_lookup_2 |].
  assert (Hk : k ≠ EmptyString).
  { apply Hne. apply list_elem_of_fmap. by exists (k, e). }
  assert (Hke : q_key (BatchQueryQueue.request e) = k) by (by apply Hkeyed).
  split_and!; [| done | done].
  rewrite (BatchQueryQueue_complete_lookup q_key w i entries _ k e p Hw Hi He Hp).
  f_equal.
  assert (Hout : Client.query_dispatcher (Client.post_query st)
                   (map (λ x, BatchQueryQueue.request x.2) entries)
                 = inr (foldl (λ acc query,
                                 if bool_decide (q_key query = EmptyString) then acc
                                 else run_query acc query) (∅, st)
                          (map (λ x, BatchQueryQueue.request x.2) entries)).1).
  { unfold Client.query_dispatcher, Client.post_query.
    rewrite Direct_post_query_eq. cbn zeta. cbn [fst].
    destruct entries; [by apply elem_of_nil in He | done]. }
  rewrite Hout. unfold BatchQueryQueue_outcome.
  rewrite Direct_results by done. rewrite lookup_empty.
  rewrite <- (list_filter_filter_l
                (λ q, q_key q = k ∧ q_key q ≠ EmptyString ∧ q_type q ≠ UnknownType)
                (λ q, q_key q = k)) by (intros ?; tauto).
  rewrite (keyed_requests q_key k e entries Hkeyed)
    by (apply elem_get_Some; [by destruct Hkeyed | done]).
  rewrite filter_cons, filter_nil. case_decide as Hc.
  - cbn [last]. destruct (query_answer st (BatchQueryQueue.request e)) eqn:Eq; [done |].
    apply query_answer_None in Eq. tauto.
  - cbn [last].
    assert (query_answer st (BatchQueryQueue.request e) = None) as ->; [| done].
    apply query_answer_None.
    destruct (decide (q_type (BatchQueryQueue.request e) = UnknownType)); [done |].
    exfalso. apply Hc. split_and!; [done | congruence | done].
Qed.

Lemma query_through_queue_witness :
  let qa := mkQuery "a" SelectionFull None None None in
  let qb := mkQuery "b" UnknownType None None None in
  let w0 := (BatchQueryQueue.enqueue q_key
               (@BatchQueryQueue.init Query QueryResult) qa).2 in
  let w1 := (BatchQueryQueue.enqueue q_key w0 qb).2 in
  let w := BatchQueryQueue.fire 0 w1 in
  let st := Direct.run initStore [Direct.PostSelection (Some [VNum (Int 4)])] in
  let outcome := Client.query_dispatcher (Client.post_query st) [qa; qb] in
  let w' := BatchQueryQueue.complete 0 outcome w in
  (settled (BatchQueryQueue.promises w') !! 1%nat = Some (Rejected MSG_NO_RESULT)
   ∧ q_key qb = "b" ∧ "b" ≠ EmptyString)
  ∧ (settled (BatchQueryQueue.promises w') !! 0%nat
     = Some (Resolved (mkResult (selectedIds st) (length (selectedIds st))))
     ∧ q_key qa = "a" ∧ "a" ≠ EmptyString).
Proof.
  intros qa qb w0 w1 w st.
  assert (Hw : BatchQueryQueue.reachable q_key w).
  { eapply BatchQueryQueue.reachable_step;
      [| apply BatchQueryQueue.step_fire; vm_compute; left].
    eapply BatchQueryQueue.reachable_step; [| apply BatchQueryQueue.step_enqueue].
    eapply BatchQueryQueue.reachable_step; [apply BatchQueryQueue.reachable_init |].
    apply BatchQueryQueue.step_enqueue. }
  split.
  - apply (query_through_queue w 0
             [("a", BatchQueryQueue.mkEntry qa [0%nat]);
              ("b", BatchQueryQueue.mkEntry qb [1%nat])]
             "b" (BatchQueryQueue.mkEntry qb [1%nat]) 1%nat st Hw eq_refl).
    + right. left.
    + left.
    + apply store_direct.
    + apply (bool_decide_unpack _). vm_compute. exact I.
  - apply (query_through_queue w 0
             [("a", BatchQueryQueue.mkEntry qa [0%nat]);
              ("b", BatchQueryQueue.mkEntry qb [1%nat])]
             "a" (BatchQueryQueue.mkEntry qa [0%nat]) 0%nat st Hw eq_refl).
    + left.
    + left.
    + apply store_direct.
    + apply (bool_decide_unpack _). vm_compute. exact I.
Defined.

(** X25: batching does not change what a lone caller of
    [POST /api/selection] is told: when the selection batcher holds
    nothing, a request is answered at the flush with the selection the
    unbatched server answers with on the same store, and the store after
    the flush is the store after that unbatched request. *)
Theorem lone_selection_request_as_unbatched (s : Batched.Server)
    (body : option (list JsValue)) (t : nat) :
  Batched.reachable s →
  Batched.sb_latest (Batched.selectionBatcher s) = None →
  let e := Batched.post_selection s body in
  let s' := Batched.fire_selection t e.2 in
  let direct := Direct.post_selection (Batched.store s) body in
  settled (Batched.promises s') !! e.1 = Some (Resolved direct.1)
  ∧ Batched.store s' = direct.2.
Proof.
  intros Hs Hlatest. cbn zeta.
  pose proof (Batched_unsettled_next s Hs) as Hfresh.
  destruct (Batched_timed s Hs) as (_ & [_ Hres] & _).
  rewrite Hlatest in Hres.
  destruct (Batched.sb_resolvers (Batched.selectionBatcher s)) as [| r rs] eqn:Er;
    [| done].
  unfold Batched.post_selection. rewrite selection_enqueue_eq. cbn [fst snd].
  rewrite Er.
  unfold Batched.fire_selection, Batched.selection_flush, Direct.post_selection.
  cbn [Batched.selectionBatcher Batched.sb_latest Batched.sb_resolvers
       Batched.store Batched.promises selectedIds ensureSelectedLookup fst snd app].
  split; [| done].
  rewrite settle_all_lookup. cbn [settled]. rewrite Hfresh.
  rewrite decide_True; [done | left].
Qed.

Lemma lone_selection_request_as_unbatched_witness :
  let s := Batched.initServer in
  let body := Some [VNum (Int 9); VNum (Int 2); VNum (Int 9); VNum (Int 1000001)] in
  let e := Batched.post_selection s body in
  let s' := Batched.fire_selection 0 e.2 in
  let direct := Direct.post_selection (Batched.store s) body in
  settled (Batched.promises s') !! e.1 = Some (Resolved direct.1)
  ∧ Batched.store s' = direct.2.
Proof.
  intros s body.
  exact (lone_selection_request_as_unbatched s body 0 Batched.reachable_init eq_refl).
Defined.

(** ** The two lists together *)

Section two_lists.

Lemma selected_in_scan (st : Store) (id : Z) :
  store_ok st → id ∈ selectedIds st →
  id ∈ seqZ 1 BASE_MAX_ID ++ sort_asc (addedIds st).
Proof.
  intros (_ & _ & _ & _ & [_ Hsel]) Hin.
  destruct (Hsel id Hin) as [Hpos [Hb | Ha]]; apply elem_of_app.
  - left. apply elem_of_seqZ. lia.
  - right. by apply sort_asc_elem.
Qed.

Lemma scan_NoDup (st : Store) :
  store_ok st → NoDup (seqZ 1 BASE_MAX_ID ++ sort_asc (addedIds st)).
Proof.
  intros (Hnd & Hbase & _). apply NoDup_app. split_and!.
  - apply NoDup_seqZ.
  - intros id Hb Ha. apply elem_of_seqZ in Hb. apply sort_asc_elem, Hbase in Ha. lia.
  - by apply sort_asc_NoDup.
Qed.

Lemma matching_split (st : Store) (nf : string) :
  store_ok st →
  let all := seqZ 1 BASE_MAX_ID ++ sort_asc (addedIds st) in
  (length (filter (λ id, (id ∉ selectedIds st) ∧ matchesFilter nf id = true) all)
   + length (filter (λ id, matchesFilter nf id = true) (selectedIds st))
   = length (filter (λ id, matchesFilter nf id = true) all))%nat.
Proof.
  intros Hok. cbn zeta.
  set (all := seqZ 1 BASE_MAX_ID ++ sort_asc (addedIds st)).
  set (m := λ id : Z, matchesFilter nf id = true).
  assert (HA : filter (λ id, (id ∉ selectedIds st) ∧ matchesFilter nf id = true) all
               = filter (λ id, ¬ id ∈ selectedIds st) (filter m all)).
  { rewrite list_filter_filter. apply list_filter_iff. intros id. unfold m. tauto. }
  assert (HS : filter m (selectedIds st)
               ≡ₚ filter (λ id, id ∈ selectedIds st) (filter m all)).
  { apply NoDup_Permutation.
    - apply NoDup_filter. by destruct Hok as (_ & _ & _ & _ & [? _]).
    - do 2 apply NoDup_filter. by apply scan_NoDup.
    - intros id. rewrite !list_elem_of_filter. split; [| tauto].
      intros [? ?]. split_and!; [done | done |]. by apply selected_in_scan. }
  rewrite HA, (Permutation_length HS), Nat.add_comm, <- length_app.
  apply Permutation_length, filter_app_complement.
Qed.

End two_lists.

(** X26: the two lists share out the identifier space: in every store
    either server can reach, for every filter, the totals of the available
    list and of the selected list add up to the number of ids of the
    identifier space (base range and overflow set) that match the filter,
    which without filter is 1,000,000 plus the size of the overflow set; and
    no id is listed in both. *)
Theorem lists_share_out_id_space (st : Store) (flt : option string)
    (offset limit offset' limit' : JsArg) :
  store_reachable st →
  let a := (buildAvailableResult st flt offset limit).1 in
  let s := buildSelectedResult st flt offset' limit' in
  let all := seqZ 1 BASE_MAX_ID ++ sort_asc (addedIds st) in
  (total a + total s
   = length (filter (λ id, matchesFilter (getNormalizedFilter flt) id = true) all))%nat
  ∧ (getNormalizedFilter flt = EmptyString →
     (total a + total s = Z.to_nat BASE_MAX_ID + length (addedIds st))%nat)
  ∧ (∀ id, id ∈ items a → id ∉ items s).
Proof.
  intros Hst. cbn zeta. pose proof (store_reachable_ok st Hst) as Hok.
  rewrite (buildAvailableResult_eq st flt offset limit Hok), buildSelectedResult_eq.
  cbn [items total].
  pose proof (matching_split st (getNormalizedFilter flt) Hok) as Hsplit.
  cbn zeta in Hsplit. split_and!.
  - exact Hsplit.
  - intros Hnf. rewrite Hsplit, Hnf.
    rewrite filter_all by (intros; reflexivity).
    assert (Hlen : length (sort_asc (addedIds st)) = length (addedIds st)).
    { apply Permutation_length, merge_sort_Permutation. }
    rewrite length_app, length_seqZ, Hlen. reflexivity.
  - intros id Ha Hs.
    apply subseteq_take, subseteq_drop, list_elem_of_filter in Ha as [[Hns _] _].
    apply subseteq_take, subseteq_drop, list_elem_of_filter in Hs as [_ Hin].
    done.
Qed.

Lemma lists_share_out_id_space_witness :
  let st := Direct.run initStore
              [Direct.PostItemsBatch (Some [VNum (Int 1000012)]);
               Direct.PostSelection (Some [VNum (Int 120); VNum (Int 7)])] in
  let flt := Some " 12" in
  let a := (buildAvailableResult st flt None None).1 in
  let s := buildSelectedResult st flt (Some (inject_Z 1)) None in
  let all := seqZ 1 BASE_MAX_ID ++ sort_asc (addedIds st) in
  (total a + total s
   = length (filter (λ id, matchesFilter (getNormalizedFilter flt) id = true) all))%nat
  ∧ (getNormalizedFilter flt = EmptyString →
     (total a + total s = Z.to_nat BASE_MAX_ID + length (addedIds st))%nat)
  ∧ (∀ id, id ∈ items a → id ∉ items s).
Proof.
  intros st flt.
  exact (lists_share_out_id_space st flt None None (Some (inject_Z 1)) None
           (store_direct _)).
Defined.

(** ** Round trips through the unbatched server *)

(** X27: the selection survives a reload: after [POST /api/selection] with a
    selection of distinct positive ids of the identifier space, the request
    the view sends when it starts ([selectionFull], through [runQuery] of
    the client without queues) is answered with exactly that selection, in
    the same order, and its length as [total]. *)
Theorem selection_round_trip (st : Store) (l : list Z) :
  selection_ok st l →
  let st' := (Direct.post_selection st (Some (map (λ id, VNum (Int id)) l))).2 in
  Client.runQuery (Client.post_query st') App.selectionFull_query
  = inr (mkResult l (length l)).
Proof.
  intros Hl. cbn zeta. rewrite runQuery_keyed by done.
  cbn [q_type App.selectionFull_query]. unfold Direct.post_selection.
  cbn [snd selectedIds ensureSelectedLookup].
  by rewrite (sanitizeIds_valid st l Hl).
Qed.

Lemma selection_round_trip_witness :
  let st := initStore in
  let st' := (Direct.post_selection st
                (Some (map (λ id, VNum (Int id)) [8; 3; 5]))).2 in
  Client.runQuery (Client.post_query st') App.selectionFull_query
  = inr (mkResult [8; 3; 5] (length [8; 3; 5])).
Proof.
  intros st. apply (selection_round_trip st [8; 3; 5]). split.
  - apply (bool_decide_unpack _). vm_compute. exact I.
  - intros id Hin. unfold in_id_space, BASE_MAX_ID.
    repeat (apply elem_of_cons in Hin as [-> | Hin]); [lia | lia | lia |].
    by apply elem_of_nil in Hin.
Defined.

(** X28: an accepted id becomes available: in a store either server can
    reach, an id that [POST /api/items/batch] reports as added was neither
    in the identifier space nor selected, and after the request it is in
    the identifier space, [hasId] accepts it, and the available-items query
    lists it for every filter it matches: it is on the page of default
    size that starts at some offset. *)
Theorem accepted_id_becomes_available (st : Store) (requested : list JsValue)
    (id : Z) (flt : option string) :
  store_reachable st →
  id ∈ (add_batch st requested).1.1 →
  matchesFilter (getNormalizedFilter flt) id = true →
  let st' := (add_batch st requested).2 in
  ¬ in_id_space st id
  ∧ (id ∉ selectedIds st)
  ∧ in_id_space st' id
  ∧ hasId st' (VNum (Int id)) = true
  ∧ ∃ n : nat,
      id ∈ items (buildAvailableResult st' flt (Some (inject_Z (Z.of_nat n))) None).1.
Proof.
  intros Hst Hadd Hm. cbn zeta.
  pose proof (store_reachable_ok st Hst) as Hok.
  pose proof (add_batch_ok st requested Hok) as Hok'.
  pose proof Hadd as Hfresh. apply added_elem, spec_accepted_fresh in Hfresh as [Hbig Hnew].
  assert (Hnot : ¬ in_id_space st id) by (intros [? | ?]; [lia | done]).
  assert (Hnsel : id ∉ selectedIds st).
  { intros Hin. destruct Hok as (_ & _ & _ & _ & [_ Hsel]).
    by destruct (Hsel id Hin) as [_ ?]. }
  assert (Hin' : id ∈ addedIds (add_batch st requested).2).
  { rewrite commit_added_ids. apply elem_of_app. by right. }
  assert (Hpos : 0 < id) by (unfold BASE_MAX_ID in Hbig; lia).
  split_and!; [done | done | by right | apply hasId_positive; [done | by right] |].
  set (st' := (add_batch st requested).2) in *.
  assert (Hmatch : id ∈ filter (λ id, (id ∉ selectedIds st')
                                       ∧ matchesFilter (getNormalizedFilter flt) id = true)
                          (seqZ 1 BASE_MAX_ID ++ sort_asc (addedIds st'))).
  { apply list_elem_of_filter. split.
    - split; [| done]. unfold st'. by rewrite (proj1 (add_batch_frame st requested)).
    - apply elem_of_app. right. by apply sort_asc_elem. }
  apply list_elem_of_lookup in Hmatch as [n Hn]. exists n.
  rewrite (buildAvailableResult_eq st' flt _ _ Hok'). cbn [items].
  rewrite clampOffset_Z, Nat2Z.id. cbn [clampLimit].
  apply list_elem_of_lookup. exists 0%nat.
  rewrite lookup_take_lt by (unfold PAGE_LIMIT; lia).
  by rewrite lookup_drop, Nat.add_0_r.
Qed.

Lemma accepted_id_becomes_available_witness :
  let st := Direct.run initStore [Direct.PostSelection (Some [VNum (Int 3)])] in
  let requested := [VNum (Int 1000020); VNum (Int 3); VNum (Int 1000004)] in
  let st' := (add_batch st requested).2 in
  ¬ in_id_space st 1000004
  ∧ (1000004 ∉ selectedIds st)
  ∧ in_id_space st' 1000004
  ∧ hasId st' (VNum (Int 1000004)) = true
  ∧ ∃ n : nat,
      1000004 ∈ items (buildAvailableResult st' (Some "0004")
                         (Some (inject_Z (Z.of_nat n))) None).1.
Proof.
  intros st requested.
  apply (accepted_id_becomes_available st requested 1000004 (Some "0004")).
  - apply store_direct.
  - vm_compute. left.
  - vm_compute. reflexivity.
Defined.
